(** * ColabBTR: the morphology engine of [colabbtr/morphology.py]

    A shallow embedding of the tensor code of [morphology.py]: the
    grayscale dilation and erosion of a height field by a tip, the
    recentering of a tip on its centre of mass, the blind tip
    reconstruction loop and the two surface renderers.

    Tensors of rank two are lists of rows.  The element type of the
    dilation and the erosion is a parameter (class [Scalar]): the two
    functions run unchanged at every floating dtype, and the same code
    is read over exact arithmetic where a property is one of real
    numbers and not of their binary64 approximation.  The recentering,
    the optimizer loop and the renderers are fixed at binary64, the
    dtype [differentiable_btr] allocates its tip with, and use Rocq's
    primitive IEEE 754 floats, so that rounding, signed zeros,
    infinities and NaN behave as they do in the program.

    The file has four parts: the definitions, translated from the
    source function by function and followed by the notions the
    statements need; the lemmas and theorems about them; the
    specifications that follow, with examples the functions are
    evaluated on; and further properties of the engine: its edge and
    error behaviour, its invariants and its algebra. *)

From Stdlib Require Import ZArith Lia Floats.
From stdpp Require Import base tactics option list numbers strings.

Set Warnings "-inexact-float".
#[local] Open Scope Z_scope.

(** * Part I: definitions *)

(** ** Python exceptions and results *)

Inductive exn : Set :=
| IndexError
| ValueError
| OverflowError
| RuntimeError.

Inductive result (A : Type) : Type :=
| Ok (a : A)
| Raise (e : exn).
Arguments Ok {A} a.
Arguments Raise {A} e.

Definition rbind {A B} (m : result A) (k : A → result B) : result B :=
  match m with
  | Ok a => k a
  | Raise e => Raise e
  end.

Notation "x ←ᵣ m ; k" := (rbind m (λ x, k))
  (at level 20, m at level 100, k at level 200, only parsing).

(** A [for] loop that threads one accumulator through the elements of a
    list and stops at the first exception. *)
Fixpoint for_ {A X} (l : list X) (acc : A) (body : X → A → result A)
  : result A :=
  match l with
  | [] => Ok acc
  | x :: l' => acc' ←ᵣ body x acc; for_ l' acc' body
  end.

(** ** Python integers: [range] and [round] *)

(** [range(lo, hi)]. *)
Definition py_range (lo hi : Z) : list Z := seqZ lo (hi - lo).

(** [round(k / 2)] for an integer [k]: the true division gives the float
    [k/2] exactly, and Python 3 rounds a float to the nearest integer
    with ties going to the even one. *)
Definition round_half (k : Z) : Z :=
  let q := k / 2 in
  if Z.even k then q else if Z.even q then q else q + 1.

(** ** Tensors of rank two *)

Abbreviation tensor A := (list (list A)) (only parsing).

(** [t.size()]: the two extents.  A tensor without rows is given the
    second extent 0. *)
Definition size {A} (t : tensor A) : Z * Z :=
  (Z.of_nat (length t),
   match t with [] => 0 | row :: _ => Z.of_nat (length row) end).

(** There are [n] rows and every row has [m] entries. *)
Definition rect {A} (n m : nat) (t : tensor A) : Prop :=
  length t = n ∧ Forall (λ row, length row = m) t.

(** The entry at row [i], column [j], if there is one. *)
Definition cell {A} (t : tensor A) (i j : nat) : option A :=
  t !! i ≫= (.!! j).

(** All entries, row after row. *)
Definition entries {A} (t : tensor A) : list A := mjoin t.

(** One Python index into an axis of extent [n]: a negative index
    counts from the end, anything outside [-n, n) is an [IndexError]. *)
Definition py_index (n i : Z) : result nat :=
  if bool_decide (0 ≤ i < n) then Ok (Z.to_nat i)
  else if bool_decide (- n ≤ i < 0) then Ok (Z.to_nat (i + n))
  else Raise IndexError.

(** [t[i, j]]. *)
Definition item {A} (t : tensor A) (i j : Z) : result A :=
  i' ←ᵣ py_index (Z.of_nat (length t)) i;
  match t !! i' with
  | None => Raise IndexError
  | Some row =>
      j' ←ᵣ py_index (Z.of_nat (length row)) j;
      match row !! j' with
      | None => Raise IndexError
      | Some v => Ok v
      end
  end.

(** [torch.full_like(t, v)]. *)
Definition full_like {A} (t : tensor A) (v : A) : tensor A :=
  (λ row : list A, (λ _ : A, v) <$> row) <$> t.

(** [torch.roll] along one axis: the entry at [i] comes from
    [(i - shift) mod n]. *)
Definition roll1 {X} (shift : Z) (l : list X) : list X :=
  rotate (Z.to_nat ((- shift) `mod` Z.of_nat (length l))) l.

(** [torch.roll(t, shifts=(s0, s1), dims=(0, 1))]. *)
Definition roll {A} (t : tensor A) (shifts : Z * Z) : tensor A :=
  roll1 shifts.1 (roll1 shifts.2 <$> t).

(** ** The morphology engine *)

(** The scalar operations the engine uses. *)
Class Scalar (A : Type) : Type := {
  s_add : A → A → A;
  s_sub : A → A → A;
  maximum : A → A → A;
  minimum : A → A → A;
  neg_inf : A;
  pos_inf : A;
}.

Section Morphology.
Context {A : Type} `{Scalar A}.

(** [t + v] and [t - v] for a tensor [t] and a scalar [v]. *)
Definition add_scalar (t : tensor A) (v : A) : tensor A :=
  (λ row : list A, (λ x : A, s_add x v) <$> row) <$> t.
Definition sub_scalar (t : tensor A) (v : A) : tensor A :=
  (λ row : list A, (λ x : A, s_sub x v) <$> row) <$> t.

(** [torch.maximum] and [torch.minimum] of two tensors of one shape. *)
Definition tmaximum (r t : tensor A) : tensor A :=
  zip_with (zip_with maximum) r t.
Definition tminimum (r t : tensor A) : tensor A :=
  zip_with (zip_with minimum) r t.

Definition compute_xc_yc (tip : tensor A) : Z * Z :=
  let '(tip_xsiz, tip_ysiz) := size tip in
  let xc := round_half (tip_xsiz - 1) in
  let yc := round_half (tip_ysiz - 1) in
  (xc, yc).

Definition idilation (surface tip : tensor A) : result (tensor A) :=
  let '(xc, yc) := compute_xc_yc tip in
  let '(tip_xsiz, tip_ysiz) := size tip in
  let r := full_like surface neg_inf in
  for_ (py_range (- xc) (tip_xsiz - xc)) r (λ px r,
    for_ (py_range (- yc) (tip_ysiz - yc)) r (λ py r,
      let temp := roll surface (- px, - py) in
      v ←ᵣ item tip (xc + px) (yc + py);
      let temp := add_scalar temp v in
      Ok (tmaximum r temp))).

Definition ierosion (image tip : tensor A) : result (tensor A) :=
  let '(xc, yc) := compute_xc_yc tip in
  let '(tip_xsiz, tip_ysiz) := size tip in
  let r := full_like image pos_inf in
  for_ (py_range (- xc) (tip_xsiz - xc)) r (λ px r,
    for_ (py_range (- yc) (tip_ysiz - yc)) r (λ py r,
      let temp := roll image (px, py) in
      v ←ᵣ item tip (xc + px) (yc + py);
      let temp := sub_scalar temp v in
      Ok (tminimum r temp))).

(** The opening the reconstruction loss is computed from (lines 118
    and 125). *)
Definition opening (image tip : tensor A) : result (tensor A) :=
  e ←ᵣ ierosion image tip; idilation e tip.

(** *** The engine as the specification words it *)

(** The offsets of the tip's footprint relative to its centre, in the
    order the two loops visit them. *)
Definition footprint (tip : tensor A) : list (Z * Z) :=
  let '(xc, yc) := compute_xc_yc tip in
  let '(tip_xsiz, tip_ysiz) := size tip in
  px ← py_range (- xc) (tip_xsiz - xc);
  (λ py, (px, py)) <$> py_range (- yc) (tip_ysiz - yc).

(** The index [i + p] on a circular axis of extent [n]. *)
Definition wrap (i : nat) (p n : Z) : nat :=
  Z.to_nat ((Z.of_nat i + p) `mod` n).

(** One step of a running maximum or minimum [f] over terms that may be
    missing. *)
Definition step_opt (f : A → A → A) (term : Z * Z → option A)
    (acc : option A) (p : Z * Z) : option A :=
  a ← acc; c ← term p; Some (f a c).

(** The running [f] of the terms over a list of offsets, from [init]. *)
Definition running (f : A → A → A) (init : A) (term : Z * Z → option A)
    (l : list (Z * Z)) : option A :=
  foldl (step_opt f term) (Some init) l.

(** What the offset [p] contributes to the dilation at the cell
    [(i, j)]: the surface shifted by [-p], plus the tip's entry at
    [p] from its centre. *)
Definition dilate_term (surface tip : tensor A) (i j : nat) (p : Z * Z)
  : option A :=
  let '(xc, yc) := compute_xc_yc tip in
  let '(h, w) := size surface in
  s ← cell surface (wrap i p.1 h) (wrap j p.2 w);
  t ← cell tip (Z.to_nat (xc + p.1)) (Z.to_nat (yc + p.2));
  Some (s_add s t).

(** The dilation at the cell [(i, j)]: the maximum, from minus
    infinity, over the footprint. *)
Definition dilate_cell (surface tip : tensor A) (i j : nat) : option A :=
  running maximum neg_inf (dilate_term surface tip i j) (footprint tip).

(** The same for the erosion: the image shifted by [+p], minus the
    tip's entry, and the minimum from plus infinity. *)
Definition erode_term (image tip : tensor A) (i j : nat) (p : Z * Z)
  : option A :=
  let '(xc, yc) := compute_xc_yc tip in
  let '(h, w) := size image in
  s ← cell image (wrap i (- p.1) h) (wrap j (- p.2) w);
  t ← cell tip (Z.to_nat (xc + p.1)) (Z.to_nat (yc + p.2));
  Some (s_sub s t).

Definition erode_cell (image tip : tensor A) (i j : nat) : option A :=
  running minimum pos_inf (erode_term image tip i j) (footprint tip).

(** *** The two loops as one

    Both loop bodies shift the field by [sh p], combine it with the
    tip's entry through [g] and fold it into the accumulator through
    [f]. *)
Variable f g : A → A → A.
Variable sh : Z * Z → Z * Z.

Definition shift_body (S T : tensor A) (p : Z * Z) (r : tensor A)
  : result (tensor A) :=
  v ←ᵣ item T ((compute_xc_yc T).1 + p.1) ((compute_xc_yc T).2 + p.2);
  Ok (zip_with (zip_with f) r
        ((λ row : list A, (λ x : A, g x v) <$> row) <$> roll S (sh p))).

Definition shift_term (S T : tensor A) (i j : nat) (p : Z * Z) : option A :=
  s ← cell (roll S (sh p)) i j;
  t ← cell T (Z.to_nat ((compute_xc_yc T).1 + p.1))
             (Z.to_nat ((compute_xc_yc T).2 + p.2));
  Some (g s t).
End Morphology.

(** ** Binary64 scalars *)

(** [torch.maximum] and [torch.minimum] on two floats: a NaN operand
    gives NaN, otherwise the larger (smaller) operand. *)
Definition fmaximum (a b : float) : float :=
  if is_nan a then a else if is_nan b then b
  else if (a <? b)%float then b else a.
Definition fminimum (a b : float) : float :=
  if is_nan a then a else if is_nan b then b
  else if (b <? a)%float then b else a.

#[export] Instance float_scalar : Scalar float := {|
  s_add := PrimFloat.add;
  s_sub := PrimFloat.sub;
  maximum := fmaximum;
  minimum := fminimum;
  neg_inf := neg_infinity;
  pos_inf := infinity;
|}.

(** Python's [round(x)] for a float [x]: the nearest integer, ties to
    even; [ValueError] on NaN and [OverflowError] on an infinity. *)
Definition py_round (x : float) : result Z :=
  match Prim2SF x with
  | S754_nan => Raise ValueError
  | S754_infinity _ => Raise OverflowError
  | S754_zero _ => Ok 0
  | S754_finite s m e =>
      let mag :=
        if 0 <=? e then Z.pos m * 2 ^ e
        else
          let d := 2 ^ (- e) in
          let q := Z.pos m / d in
          let r := Z.pos m `mod` d in
          match 2 * r ?= d with
          | Lt => q
          | Gt => q + 1
          | Eq => if Z.even q then q else q + 1
          end in
      Ok (if s then - mag else mag)
  end.

(** The float nearest to a count of elements. *)
Definition float_of_nat (n : nat) : float :=
  of_uint63 (Uint63.of_Z (Z.of_nat n)).

(** A float that carries a real number: a zero or a finite value. *)
Definition finite (x : float) : bool :=
  match Prim2SF x with
  | S754_zero _ | S754_finite _ _ _ => true
  | _ => false
  end.

(** ** Exact scalars: the integers with two infinities

    The same engine over arithmetic that does not round. *)

Inductive xint : Set :=
| NegInf
| Fin (z : Z)
| PosInf.

Definition xadd (a b : xint) : xint :=
  match a, b with
  | Fin x, Fin y => Fin (x + y)
  | NegInf, _ | _, NegInf => NegInf
  | PosInf, _ | _, PosInf => PosInf
  end.

Definition xsub (a b : xint) : xint :=
  match a, b with
  | Fin x, Fin y => Fin (x - y)
  | NegInf, _ => NegInf
  | PosInf, _ => PosInf
  | Fin _, NegInf => PosInf
  | Fin _, PosInf => NegInf
  end.

Definition xleb (a b : xint) : bool :=
  match a, b with
  | NegInf, _ => true
  | _, PosInf => true
  | Fin x, Fin y => bool_decide (x ≤ y)
  | _, _ => false
  end.

Definition xmax (a b : xint) : xint := if xleb a b then b else a.
Definition xmin (a b : xint) : xint := if xleb a b then a else b.

#[export] Instance xint_scalar : Scalar xint := {|
  s_add := xadd;
  s_sub := xsub;
  maximum := xmax;
  minimum := xmin;
  neg_inf := NegInf;
  pos_inf := PosInf;
|}.

(** An order on the scalars and the scalars that are real numbers. *)
Class Ordered (A : Type) `{Scalar A} : Type := {
  s_le : A → A → Prop;
  real : A → Prop;
}.

#[export] Instance xint_ordered : Ordered xint := {|
  s_le a b := xleb a b = true;
  real a := ∃ z, a = Fin z;
|}.

(** Arithmetic without rounding, as far as the opening needs it:
    [minimum] is a lower bound and [maximum] the least upper bound for
    the order, and on real numbers subtraction is adjoint to addition. *)
Class ExactLaws (A : Type) `{Ordered A} : Prop := {
  s_le_trans a b c : s_le a b → s_le b c → s_le a c;
  minimum_le_l a b : s_le (minimum a b) a;
  minimum_le_r a b : s_le (minimum a b) b;
  maximum_lub a b c : s_le a c → s_le b c → s_le (maximum a b) c;
  neg_inf_le a : s_le neg_inf a;
  sub_add_le a b t : real a → real t → s_le b (s_sub a t) → s_le (s_add b t) a;
}.

(** ** Binary64 tensors *)

Section FloatTensor.
#[local] Open Scope float_scope.

(** [torch.min(t)]: NaN if an entry is NaN; no minimum of nothing. *)
Definition tmin (t : tensor float) : result float :=
  match entries t with
  | [] => Raise RuntimeError
  | x :: l => Ok (foldl fminimum x l)
  end.

(** [torch.sum(t)], the entries added up row after row. *)
Definition tsum (t : tensor float) : float :=
  foldl PrimFloat.add 0 (entries t).

(** [torch.mean(t)]: the sum over the number of entries. *)
Definition tmean (t : tensor float) : float :=
  tsum t / float_of_nat (length (entries t)).

(** [torch.all(t < c)]. *)
Definition all_lt (t : tensor float) (c : float) : bool :=
  forallb (λ w, w <? c) (entries t).

(** [w[w < c] = v]. *)
Definition fill_lt (t : tensor float) (c v : float) : tensor float :=
  (λ row : list float, (λ w, if w <? c then v else w) <$> row) <$> t.

(** [torch.ones(n, m)] and [torch.zeros(n, m)]. *)
Definition ones (n m : nat) : tensor float := replicate n (replicate m 1).
Definition zeros (n m : nat) : tensor float := replicate n (replicate m 0).

(** Running sums of a list, [torch.cumsum] along one axis. *)
Fixpoint scan {X} (f : X → X → X) (acc : X) (l : list X) : list X :=
  match l with
  | [] => []
  | x :: l' => let acc' := f acc x in acc' :: scan f acc' l'
  end.
Definition cumsum_list {X} (f : X → X → X) (l : list X) : list X :=
  match l with
  | [] => []
  | x :: l' => x :: scan f x l'
  end.
Definition cumsum0 (t : tensor float) : tensor float :=
  cumsum_list (zip_with PrimFloat.add) t.
Definition cumsum1 (t : tensor float) : tensor float :=
  cumsum_list PrimFloat.add <$> t.

(** Entrywise product, difference and quotient by a scalar. *)
Definition tmul (a b : tensor float) : tensor float :=
  zip_with (zip_with PrimFloat.mul) a b.
Definition tsub (a b : tensor float) : tensor float :=
  zip_with (zip_with PrimFloat.sub) a b.
Definition div_scalar (t : tensor float) (v : float) : tensor float :=
  (λ row : list float, (λ x, x / v) <$> row) <$> t.

(** [torch.clamp(t, max=c)]. *)
Definition clamp_max (t : tensor float) (c : float) : tensor float :=
  (λ row : list float,
     (λ x, if is_nan x then x else if c <? x then c else x) <$> row) <$> t.

(** The bounds of the slice [a:b] of an axis of extent [n], as a start
    and a length: negative bounds count from the end and both are
    clipped to the axis. *)
Definition slice_bounds (n a b : Z) : nat * nat :=
  let norm i := (if i <? 0 then Z.max 0 (i + n) else Z.min i n)%Z in
  (Z.to_nat (norm a), Z.to_nat (norm b - norm a)).

(** A slice [s] of the source can be written to a slice [d] of the
    destination when it has the same extent, or the extent 1 and is
    broadcast. *)
Definition slice_fits (d s : nat * nat) : bool :=
  bool_decide (s.2 = d.2 ∨ s.2 = 1%nat).

(** The index [k] of the destination lies in the slice [d]. *)
Definition slice_inside (d : nat * nat) (k : nat) : bool :=
  bool_decide (d.1 ≤ k < d.1 + d.2)%nat.

(** The index of the source that is written to the index [k] of the
    destination. *)
Definition slice_pick (d s : nat * nat) (k : nat) : nat :=
  (s.1 + if bool_decide (s.2 = d.2) then k - d.1 else 0)%nat.

(** [dst[r0:r1, c0:c1] = src[r0':r1', c0':c1']], the four slices given
    by their bounds; a source slice that does not fit is a
    [RuntimeError]. *)
Definition assign_slice {X} (dst src : tensor X)
    (drow dcol srow scol : nat * nat) : result (tensor X) :=
  if slice_fits drow srow && slice_fits dcol scol then
    Ok (imap (λ i row,
          if slice_inside drow i then
            imap (λ j old,
              if slice_inside dcol j
              then default old (cell src (slice_pick drow srow i)
                                         (slice_pick dcol scol j))
              else old) row
          else row) dst)
  else Raise RuntimeError.

(** Lines 68 to 84 of [translate_tip_mean]: the weights above the
    background [p_min] and the cell nearest to their centre of mass. *)
Definition centre_of_mass (P : tensor float) (p_min : float)
  : result (Z * Z) :=
  let cutoff := 1e-8 in
  let '(tip_xsiz, tip_ysiz) := size P in
  let weight := sub_scalar P p_min in
  let weight := fill_lt weight cutoff 0 in
  let weight := if all_lt weight 1e-10 then full_like weight 1 else weight in
  let ix := ones (Z.to_nat tip_xsiz) (Z.to_nat tip_ysiz) in
  let iy := ones (Z.to_nat tip_xsiz) (Z.to_nat tip_ysiz) in
  let ix := sub_scalar (cumsum0 ix) 1 in
  let iy := sub_scalar (cumsum1 iy) 1 in
  let com_x := tsum (div_scalar (tmul ix weight) (tsum weight)) in
  let com_y := tsum (div_scalar (tmul iy weight) (tsum weight)) in
  id_x ←ᵣ py_round com_x;
  id_y ←ᵣ py_round com_y;
  Ok (id_x, id_y).

Definition translate_tip_mean (P : tensor float) : result (tensor float) :=
  let '(tip_xsiz, tip_ysiz) := size P in
  let '(xc, yc) := compute_xc_yc P in
  p_min ←ᵣ tmin P;
  idx ←ᵣ centre_of_mass P p_min;
  let '(id_x, id_y) := idx in
  let pxmin := Z.max (- xc) (- id_x) in
  let pymin := Z.max (- yc) (- id_y) in
  let pxmax := Z.min (tip_xsiz - xc) (tip_xsiz - id_x) in
  let pymax := Z.min (tip_ysiz - yc) (tip_ysiz - id_y) in
  let P_new := full_like P p_min in
  assign_slice P_new P
    (slice_bounds tip_xsiz (xc + pxmin) (xc + pxmax))
    (slice_bounds tip_ysiz (yc + pymin) (yc + pymax))
    (slice_bounds tip_xsiz (id_x + pxmin) (id_x + pxmax))
    (slice_bounds tip_ysiz (id_y + pymin) (id_y + pymax)).

(** The two slices of one axis that [translate_tip_mean] copies
    between: of the new tip, around the centre [c], and of the old one,
    around the centre of mass [id]. *)
Definition window_dst (n c id : Z) : nat * nat :=
  slice_bounds n (c + Z.max (- c) (- id)) (c + Z.min (n - c) (n - id)).
Definition window_src (n c id : Z) : nat * nat :=
  slice_bounds n (id + Z.max (- c) (- id)) (id + Z.min (n - c) (n - id)).

(** *** Properties of binary64 tensors *)

(** Equal as numbers, entry by entry ([==]). *)
Definition numeq (a b : tensor float) : Prop :=
  Forall2 (Forall2 (λ x y, (x =? y) = true)) a b.

(** No entry is NaN. *)
Definition no_nan (t : tensor float) : Prop :=
  Forall (Forall (λ x, is_nan x = false)) t.

(** Every entry is a real number: no NaN and no infinity. *)
Definition all_finite (t : tensor float) : Prop :=
  Forall (Forall (λ x, finite x = true)) t.

(** Every entry is a zero. *)
Definition all_zero (t : tensor float) : Prop :=
  Forall (Forall (λ x, (x =? 0) = true)) t.

(** Every entry is at most 0. *)
Definition nonpositive (t : tensor float) : Prop :=
  Forall (Forall (λ x, (x <=? 0) = true)) t.

(** The opening of [image] by [tip] leaves no residual. *)
Definition zero_residual (image tip : tensor float) : Prop :=
  ∀ recon, opening image tip = Ok recon →
    Forall2 (Forall2 (λ a b, (a - b =? 0) = true)) recon image.

(** A frame of an image stack: a grid of at least one and fewer than
    2^53 real-valued heights. *)
Definition height_field (image : tensor float) : Prop :=
  ∃ h w, rect h w image ∧ (0 < h * w)%nat ∧
         (Z.of_nat (h * w) < 2 ^ 53)%Z ∧ all_finite image.

(** What the projection of lines 122 to 124 leaves: a tip of the
    requested shape without a positive entry, which is the initial tip
    or was returned by [translate_tip_mean] for a clamped tip. *)
Definition projected (n m : nat) (tip : tensor float) : Prop :=
  rect n m tip ∧ nonpositive tip ∧
  (tip = zeros n m ∨
   ∃ Q, rect n m Q ∧ nonpositive Q ∧ translate_tip_mean Q = Ok tip).
End FloatTensor.

(** ** The reconstruction loop

    Automatic differentiation and the AdamW optimizer belong to PyTorch
    and are parameters here: [AdamW tip lr weight_decay] is the state of
    a new optimizer, [backward image tip] the gradient with respect to
    [tip] that [loss.backward()] leaves for the loss of [image], and
    [step] one [optimizer.step()], which returns the new state and the
    new tip. *)

Section Optimizer.
#[local] Open Scope float_scope.

Context {opt_state : Type}.
Variable AdamW : tensor float → float → float → opt_state.
Variable backward : tensor float → tensor float → tensor float.
Variable step :
  opt_state → tensor float → tensor float → opt_state * tensor float.

(** [torch.mean((a - b)**2)]. *)
Definition mse (a b : tensor float) : float :=
  let d := tsub a b in tmean (tmul d d).

(** Lines 117 to 127: what one frame does to the optimizer, the tip and
    the loss of the epoch. *)
Definition frame_step (image : tensor float)
    (s : opt_state * tensor float * float)
  : result (opt_state * tensor float * float) :=
  let '(opt, tip, loss_tmp) := s in
  image_reconstructed ←ᵣ opening image tip;
  let loss := mse image_reconstructed image in
  let grad := backward image tip in
  let '(opt, tip) := step opt tip grad in
  let tip := clamp_max tip 0 in
  tip ←ᵣ translate_tip_mean tip;
  image_reconstructed ←ᵣ opening image tip;
  let loss := mse image_reconstructed image in
  Ok (opt, tip, loss_tmp + loss).

Definition differentiable_btr (images : list (tensor float))
    (tip_size : nat * nat) (nepoch : Z) (lr weight_decay : float)
  : result (tensor float * list float) :=
  let tip := zeros tip_size.1 tip_size.2 in
  let optimizer := AdamW tip lr weight_decay in
  s ←ᵣ for_ (py_range 0 nepoch) (optimizer, tip, []) (λ epoch s,
         let '(opt, tip, loss_train) := s in
         let loss_tmp := 0 in
         s' ←ᵣ for_ images (opt, tip, loss_tmp) frame_step;
         let '(opt, tip, loss_tmp) := s' in
         Ok (opt, tip, loss_train ++ [loss_tmp]));
  let '(_, tip, loss_train) := s in
  Ok (tip, loss_train).

(** The state of a run whose tip has one entry: the optimizer has only
    seen zero gradients ([quiescent]), the tip is a zero and so is the
    loss of the epoch so far. *)
Definition still (quiescent : opt_state → Prop)
    (s : opt_state * tensor float * float) : Prop :=
  quiescent s.1.1 ∧ (∃ z, s.1.2 = [[z]] ∧ (z =? 0) = true) ∧ s.2 = 0.
End Optimizer.

(** ** The surface renderers

    An atom is one row of [xyz] with its entry of [radius]; the stage
    is the dictionary [config].  [torch.arange] is PyTorch's and a
    parameter: [arange start stop step] is the grid it returns, or the
    exception it raises.  Both renderers are read at one precision. *)

Record atom : Set := Atom {
  pos_x : float;
  pos_y : float;
  pos_z : float;
  radius : float;
}.

Record config : Set := Config {
  min_x : float;
  max_x : float;
  resolution_x : float;
  min_y : float;
  max_y : float;
  resolution_y : float;
}.

Section Renderer.
#[local] Open Scope float_scope.

Variable arange : float → float → float → result (list float).

(** [x**2]. *)
Definition square (x : float) : float := x * x.

(** The cell centres along one axis. *)
Definition stage (lo hi resolution : float) : result (list float) :=
  grid ←ᵣ arange lo hi resolution;
  Ok ((λ g, g + 0.5 * resolution) <$> grid).

(** [t.max(dim=0)[0]] of a stack of tensors of one shape; PyTorch
    refuses to reduce an axis of extent 0. *)
Definition max_dim0 (stack : list (tensor float)) : result (tensor float) :=
  match stack with
  | [] => Raise IndexError
  | t :: stack' => Ok (foldl tmaximum t stack')
  end.

(** [b.any(dim=0)] of a stack of [h] by [w] tensors of booleans. *)
Definition any_dim0 (h w : nat) (stack : list (tensor bool)) : tensor bool :=
  foldl (zip_with (zip_with orb)) (replicate h (replicate w false)) stack.

(** [torch.where(c, a, b)] with a scalar [b]. *)
Definition where_ (c : tensor bool) (a : tensor float) (b : float)
  : tensor float :=
  zip_with (zip_with (λ (ci : bool) ai, if ci then ai else b)) c a.

Definition surfing (atoms : list atom) (cfg : config)
  : result (tensor float) :=
  let radius2 (a : atom) := square (radius a) in
  x_stage ←ᵣ stage (min_x cfg) (max_x cfg) (resolution_x cfg);
  y_stage ←ᵣ stage (min_y cfg) (max_y cfg) (resolution_y cfg);
  let dx2 (a : atom) := (λ x, square (pos_x a - x)) <$> x_stage in
  let dy2 (a : atom) := (λ y, square (pos_y a - y)) <$> y_stage in
  let r2 (a : atom) : tensor float :=
    (λ dy2_h, (λ dx2_w, dx2_w + dy2_h) <$> dx2 a) <$> dy2 a in
  let index_within_radius (a : atom) : tensor bool :=
    (λ row : list float, (λ v, v <? radius2 a) <$> row) <$> r2 a in
  let temp (a : atom) : tensor float :=
    (λ row : list float,
       (λ v, if v <? radius2 a
             then pos_z a + sqrt (radius2 a - v)
             else neg_infinity) <$> row) <$> r2 a in
  temp_max ←ᵣ max_dim0 (temp <$> atoms);
  let z_stage :=
    where_ (any_dim0 (length y_stage) (length x_stage)
              (index_within_radius <$> atoms))
           temp_max 0 in
  Ok (reverse z_stage).

(** [t[i, j] = v]. *)
Definition set_item (t : tensor float) (i j : Z) (v : float)
  : result (tensor float) :=
  i' ←ᵣ py_index (Z.of_nat (length t)) i;
  match t !! i' with
  | None => Raise IndexError
  | Some row =>
      j' ←ᵣ py_index (Z.of_nat (length row)) j;
      Ok (<[i' := <[j' := v]> row]> t)
  end.

(** [l[i]] for a vector. *)
Definition item1 (l : list float) (i : Z) : result float :=
  i' ←ᵣ py_index (Z.of_nat (length l)) i;
  match l !! i' with
  | None => Raise IndexError
  | Some v => Ok v
  end.

(** [torch.max(v)] of a vector. *)
Definition vmax (v : list float) : result float :=
  match v with
  | [] => Raise RuntimeError
  | x :: v' => Ok (foldl fmaximum x v')
  end.

Definition surfing_old (atoms : list atom) (cfg : config)
  : result (tensor float) :=
  let radius2 (a : atom) := square (radius a) in
  x_stage ←ᵣ stage (min_x cfg) (max_x cfg) (resolution_x cfg);
  y_stage ←ᵣ stage (min_y cfg) (max_y cfg) (resolution_y cfg);
  let z_stage := zeros (length y_stage) (length x_stage) in
  for_ (py_range 0 (Z.of_nat (length x_stage))) z_stage (λ i z_stage,
    x ←ᵣ item1 x_stage i;
    let dx2 (a : atom) := square (pos_x a - x) in
    for_ (py_range 0 (Z.of_nat (length y_stage))) z_stage (λ j z_stage,
      y ←ᵣ item1 y_stage j;
      let dy2 (a : atom) := square (pos_y a - y) in
      let r2 (a : atom) := dx2 a + dy2 a in
      let index_within_radius (a : atom) := r2 a <? radius2 a in
      if existsb index_within_radius atoms then
        let hit := filter (λ a, index_within_radius a = true) atoms in
        v ←ᵣ vmax ((λ a, pos_z a + sqrt (radius2 a - r2 a)) <$> hit);
        set_item z_stage (- j - 1) i v
      else Ok z_stage)).

Definition afmize (atoms : list atom) (tip : tensor float) (cfg : config)
  : result (tensor float) :=
  surface ←ᵣ surfing atoms cfg;
  idilation surface tip.
End Renderer.

Section RenderSpec.
#[local] Open Scope float_scope.

(** The atom's sphere meets the vertical line through [(x, y)]. *)
Definition within (a : atom) (x y : float) : bool :=
  square (pos_x a - x) + square (pos_y a - y) <? square (radius a).

(** The top of the atom's sphere above [(x, y)]. *)
Definition top (a : atom) (x y : float) : float :=
  pos_z a +
  sqrt (square (radius a) - (square (pos_x a - x) + square (pos_y a - y))).

(** The height at [(x, y)]: the highest top among the atoms whose
    sphere meets the line, 0 on the bare stage. *)
Definition render_point (atoms : list atom) (x y : float) : float :=
  match (λ a, top a x y) <$> filter (λ a, within a x y = true) atoms with
  | [] => 0
  | v :: vs => foldl fmaximum v vs
  end.

(** The field over the grid, rows in descending [y]. *)
Definition render (atoms : list atom) (x_stage y_stage : list float)
  : tensor float :=
  reverse ((λ y, (λ x, render_point atoms x y) <$> x_stage) <$> y_stage).

(** The values of [g] over the grid, rows in ascending [y]. *)
Definition grid {V} (x_stage y_stage : list float) (g : float → float → V)
  : tensor V :=
  (λ y, (λ x, g x y) <$> x_stage) <$> y_stage.

(** The value [surfing] keeps for one atom at one point. *)
Definition masked (x y : float) (a : atom) : float :=
  if within a x y then top a x y else neg_infinity.

(** The field of [surfing_old] after the columns before [k] and, in
    column [k], the grid rows before [l] have been written. *)
Definition painted (atoms : list atom) (xs ys : list float) (k l : nat)
    (z : tensor float) : Prop :=
  rect (length ys) (length xs) z ∧
  ∀ r c, (r < length ys)%nat → (c < length xs)%nat →
    cell z r c =
    if bool_decide (c < k ∨ (c = k ∧ length ys - 1 - r < l))%nat
    then cell (render atoms xs ys) r c else Some 0.

(** [math.ceil(x)]. *)
Definition py_ceil (x : float) : result Z :=
  match Prim2SF x with
  | S754_nan => Raise ValueError
  | S754_infinity _ => Raise OverflowError
  | S754_zero _ => Ok 0%Z
  | S754_finite s m e =>
      if (0 <=? e)%Z then Ok (if s then - (Z.pos m * 2 ^ e) else Z.pos m * 2 ^ e)%Z
      else
        let d := (2 ^ (- e))%Z in
        Ok (if s then - (Z.pos m / d) else (Z.pos m + d - 1) / d)%Z
  end.

(** A grid that stands for [torch.arange] in examples: as many points
    from [start] in steps of [step] as the ceiling of the quotient of
    the extent by the step. *)
Definition arange_model (start stop step : float) : result (list float) :=
  n ←ᵣ py_ceil ((stop - start) / step);
  Ok ((λ i, start + float_of_nat i * step) <$> seq 0 (Z.to_nat n)).
End RenderSpec.

(** ** Optimizers and a stage for examples

    Stand-ins for the parameters above, on which the loop and the
    renderers can be evaluated. *)

(** An optimizer without a state. *)
Definition stateless (tip : tensor float) (lr weight_decay : float) : unit :=
  tt.

(** A loss without a gradient. *)
Definition no_grad (image tip : tensor float) : tensor float :=
  full_like tip 0%float.

(** A step that leaves the tip where it is. *)
Definition frozen_step (opt : unit) (tip grad : tensor float)
  : unit * tensor float :=
  (opt, tip).

(** A step that lowers row [i] of the tip by the entry [i] of
    [script]. *)
Definition scripted_step (script : list float) (opt : unit)
    (tip grad : tensor float) : unit * tensor float :=
  (opt, imap (λ i row, (λ x, x - nth i script 0)%float <$> row) tip).

(** A stage of 2 by 2 cells of side 1 with a corner at the origin. *)
Definition unit_stage : config :=
  Config 0%float 2%float 1%float 0%float 2%float 1%float.

(** ** The radius table

    [Atom2Radius], the dictionary of lines 202 to 280, as the list of
    its items in the order they are written. *)

Section Table.
#[local] Open Scope string_scope.
#[local] Open Scope float_scope.

Definition Atom2Radius : list (string * float) :=
  [("H", 0.120);
   ("HE", 0.140);
   ("B", 0.192);
   ("C", 0.170);
   ("CA", 0.170);
   ("CB", 0.170);
   ("CG", 0.170);
   ("CG1", 0.170);
   ("CG2", 0.170);
   ("CG3", 0.170);
   ("CD", 0.170);
   ("CD1", 1.70);
   ("CD2", 0.170);
   ("CD3", 0.170);
   ("CZ", 0.170);
   ("CZ1", 0.170);
   ("CZ2", 0.170);
   ("CZ3", 0.170);
   ("CE", 0.170);
   ("CE1", 0.170);
   ("CE2", 0.170);
   ("CE3", 0.170);
   ("CH", 0.170);
   ("CH1", 0.170);
   ("CH2", 0.170);
   ("CH3", 0.170);
   ("N", 0.155);
   ("NE", 0.155);
   ("NZ", 0.155);
   ("ND1", 0.155);
   ("ND2", 0.155);
   ("NE1", 0.155);
   ("NE2", 0.155);
   ("NH1", 0.155);
   ("NH2", 0.155);
   ("O", 0.152);
   ("OH", 0.152);
   ("OG", 0.152);
   ("OE1", 0.152);
   ("OE2", 0.152);
   ("OG1", 0.152);
   ("OG2", 0.152);
   ("OD1", 0.152);
   ("OD2", 0.152);
   ("OXT", 0.152);
   ("F", 0.147);
   ("MG", 0.173);
   ("AL", 0.184);
   ("SI", 0.210);
   ("P", 0.180);
   ("S", 0.180);
   ("SD", 0.180);
   ("SG", 0.180);
   ("CL", 0.175);
   ("AR", 0.188);
   ("K", 0.275);
   ("CYS", 0.275);
   ("PHE", 0.32);
   ("LEU", 0.31);
   ("TRP", 0.34);
   ("VAL", 0.295);
   ("ILE", 0.31);
   ("MET", 0.31);
   ("HIS", 0.305);
   ("HSD", 0.305);
   ("TYR", 0.325);
   ("ALA", 0.25);
   ("GLY", 0.225);
   ("PRO", 0.28);
   ("ASN", 0.285);
   ("THR", 0.28);
   ("SER", 0.26);
   ("ARG", 0.33);
   ("GLN", 0.30);
   ("ASP", 0.28);
   ("LYS", 0.32);
   ("GLU", 0.295)].
End Table.

(** [Atom2Radius[name]]: the value of the last item with that key, as a
    dictionary display keeps it; a [KeyError] is [None]. *)
Definition radius_of (name : string) : option float :=
  snd <$> last (filter (λ kv, kv.1 = name) Atom2Radius).

(** ** Notions for further properties *)

(** The index [c] is the centre of an axis of extent [n]: the middle
    index of an odd extent, the even one of the two middle indices of
    an even extent. *)
Definition centre_index (n c : Z) : Prop :=
  0 ≤ c < n ∧
  (Z.odd n = true → 2 * c = n - 1) ∧
  (Z.even n = true → Z.even c = true ∧ n / 2 - 1 ≤ c ≤ n / 2).

(** [a <= b] at every cell of two fields of exact scalars. *)
Definition below (a b : tensor xint) : Prop :=
  Forall2 (Forall2 (λ x y, xleb x y = true)) a b.

(** * Part II: lemmas and theorems *)

Section ListFacts.
Context {X : Type}.

Lemma roll1_length (s : Z) (l : list X) : length (roll1 s l) = length l.
Proof. apply length_rotate. Qed.

Lemma roll1_lookup (s : Z) (l : list X) (i : nat) :
  (i < length l)%nat →
  roll1 s l !! i = l !! Z.to_nat ((Z.of_nat i - s) `mod` Z.of_nat (length l)).
Proof.
  intros Hi. unfold roll1. rewrite lookup_rotate_r by done.
  f_equal. unfold rotate_nat_add.
  assert (0 < Z.of_nat (length l)) as Hn by lia.
  rewrite Z2Nat.id by (apply Z.mod_pos_bound; done).
  f_equal. rewrite Zplus_mod_idemp_l. f_equal. lia.
Qed.
End ListFacts.

Section TensorFacts.
Context {X : Type}.
Implicit Types t : tensor X.

Lemma rect_row n m t i row : rect n m t → t !! i = Some row → length row = m.
Proof. intros [_ Hr] Hi. by eapply (Forall_lookup_1 _ _ _ _ Hr Hi). Qed.

Lemma rect_size n m t : rect n m t → (0 < n)%nat →
  size t = (Z.of_nat n, Z.of_nat m).
Proof.
  intros [Hn Hr] Hpos. unfold size. rewrite Hn. f_equal.
  destruct t as [|row t]; simpl in *; [lia|].
  by rewrite (Forall_inv Hr).
Qed.

Lemma rect_size_1 n m t : rect n m t → (size t).1 = Z.of_nat n.
Proof. intros [Hn _]. unfold size. simpl. by rewrite Hn. Qed.

Lemma cell_is_Some n m t i j :
  rect n m t → (i < n)%nat → (j < m)%nat → is_Some (cell t i j).
Proof.
  intros Hr Hi Hj. unfold cell.
  destruct (lookup_lt_is_Some_2 t i) as [row Hrow]; [destruct Hr; lia|].
  rewrite Hrow. simpl. apply lookup_lt_is_Some_2.
  rewrite (rect_row _ _ _ _ _ Hr Hrow). done.
Qed.

Lemma cell_Some_lt n m t i j v :
  rect n m t → cell t i j = Some v → (i < n)%nat ∧ (j < m)%nat.
Proof.
  intros Hr. unfold cell. destruct (t !! i) as [row|] eqn:Hrow; [|done].
  simpl. intros Hj. split.
  - destruct Hr as [<- _]. by eapply lookup_lt_Some.
  - rewrite <- (rect_row _ _ _ _ _ Hr Hrow). by eapply lookup_lt_Some.
Qed.

Lemma Forall_cell (Q : X → Prop) t i j v :
  Forall (Forall Q) t → cell t i j = Some v → Q v.
Proof.
  intros Ht. unfold cell. destruct (t !! i) as [row|] eqn:Hrow; [|done].
  simpl. intros Hv. pose proof (Forall_lookup_1 _ _ _ _ Ht Hrow) as Hr.
  by eapply (Forall_lookup_1 _ _ _ _ Hr Hv).
Qed.

Lemma rect_fmap {Y} n m (f : list X → list Y) t :
  (∀ row, length (f row) = length row) → rect n m t → rect n m (f <$> t).
Proof.
  intros Hf [Hn Hr]. split; [by rewrite length_fmap|].
  apply Forall_fmap, list.Forall_forall. intros row Hin. simpl.
  rewrite Hf. by eapply list.Forall_forall in Hr.
Qed.

Lemma rect_full_like n m t v : rect n m t → rect n m (full_like t v).
Proof. apply rect_fmap. intros. by rewrite length_fmap. Qed.

Lemma cell_full_like t v i j :
  cell (full_like t v) i j = (λ _, v) <$> cell t i j.
Proof.
  unfold cell, full_like. rewrite list_lookup_fmap.
  destruct (t !! i); simpl; [|done]. by rewrite list_lookup_fmap.
Qed.

Lemma rect_roll n m t s : rect n m t → rect n m (roll t s).
Proof.
  intros Hr. unfold roll. destruct (rect_fmap n m (roll1 s.2) t) as [Hn Hrows];
    [intros; apply roll1_length|done|].
  split; [by rewrite roll1_length|].
  unfold roll1. apply list.Forall_forall. intros row Hin.
  apply elem_of_rotate in Hin. by eapply list.Forall_forall in Hrows.
Qed.

Lemma cell_roll n m t a b i j :
  rect n m t → (i < n)%nat → (j < m)%nat →
  cell (roll t (a, b)) i j =
  cell t (Z.to_nat ((Z.of_nat i - a) `mod` Z.of_nat n))
         (Z.to_nat ((Z.of_nat j - b) `mod` Z.of_nat m)).
Proof.
  intros Hr Hi Hj. unfold cell, roll. simpl.
  destruct Hr as [Hn Hrows].
  rewrite roll1_lookup by (rewrite length_fmap; lia).
  rewrite length_fmap, Hn, list_lookup_fmap.
  destruct (t !! _) as [row|] eqn:Hrow; simpl; [|done].
  assert (length row = m) as Hm by (by eapply (Forall_lookup_1 _ _ _ _ Hrows Hrow)).
  rewrite roll1_lookup by lia. by rewrite Hm.
Qed.

Lemma cell_zip_with {Y W} (f : X → Y → W) t (u : tensor Y) i j :
  cell (zip_with (zip_with f) t u) i j =
  a ← cell t i j; b ← cell u i j; Some (f a b).
Proof.
  unfold cell. rewrite lookup_zip_with.
  destruct (t !! i) as [x|]; simpl; [|done].
  destruct (u !! i) as [y|]; simpl.
  - by rewrite lookup_zip_with.
  - by destruct (x !! j).
Qed.

Lemma rect_zip_with {Y W} (f : X → Y → W) n m t (u : tensor Y) :
  rect n m t → rect n m u → rect n m (zip_with (zip_with f) t u).
Proof.
  intros [Hn Hr] [Hn' Hr']. split.
  - rewrite length_zip_with. lia.
  - apply list.Forall_forall. intros row Hin.
    apply list_elem_of_lookup in Hin as [i Hi].
    apply lookup_zip_with_Some in Hi as (x & y & -> & Hx & Hy).
    rewrite length_zip_with.
    rewrite (Forall_lookup_1 _ _ _ _ Hr Hx), (Forall_lookup_1 _ _ _ _ Hr' Hy).
    lia.
Qed.

Lemma cell_fmap {Y} (f : X → Y) t i j :
  cell ((λ row : list X, f <$> row) <$> t) i j = f <$> cell t i j.
Proof.
  unfold cell. rewrite list_lookup_fmap.
  destruct (t !! i); simpl; [|done]. by rewrite list_lookup_fmap.
Qed.

Lemma rect_fmap_cells {Y} (f : X → Y) n m t :
  rect n m t → rect n m ((λ row : list X, f <$> row) <$> t).
Proof. apply rect_fmap. intros. by rewrite length_fmap. Qed.
End TensorFacts.

Section ForFacts.
Context {A X : Type}.
Implicit Types body : X → A → result A.

Lemma for_app (l1 l2 : list X) acc body :
  for_ (l1 ++ l2) acc body = (acc' ←ᵣ for_ l1 acc body; for_ l2 acc' body).
Proof.
  revert acc. induction l1 as [|x l1 IH]; intros acc; simpl; [done|].
  destruct (body x acc); simpl; [apply IH|done].
Qed.

Lemma for_fmap {Y} (f : Y → X) (l : list Y) acc body :
  for_ (f <$> l) acc body = for_ l acc (λ y, body (f y)).
Proof.
  revert acc. induction l as [|y l IH]; intros acc; simpl; [done|].
  destruct (body (f y) acc); simpl; [apply IH|done].
Qed.
End ForFacts.

Lemma for_pairs {A X Y} (xs : list X) (ys : list Y) (acc : A)
    (body : X → Y → A → result A) :
  for_ xs acc (λ x acc, for_ ys acc (body x)) =
  for_ (x ← xs; (λ y, (x, y)) <$> ys) acc (λ p, body p.1 p.2).
Proof.
  revert acc. induction xs as [|x xs IH]; intros acc; [done|].
  change (x :: xs) with ([x] ++ xs) at 2. rewrite bind_app, for_app.
  simpl. rewrite app_nil_r, for_fmap. simpl.
  destruct (for_ ys acc (body x)); simpl; [apply IH|done].
Qed.

Lemma round_half_range n : 1 ≤ n → 0 ≤ round_half (n - 1) < n.
Proof.
  intros Hn. unfold round_half.
  pose proof (Z.div_mod (n - 1) 2 ltac:(lia)) as Hdm.
  pose proof (Z.mod_pos_bound (n - 1) 2 ltac:(lia)) as Hb.
  destruct (Z.even (n - 1)) eqn:He; [lia|].
  destruct (Z.even ((n - 1) / 2)); [lia|].
  rewrite Zeven_mod in He. apply Z.eqb_neq in He. lia.
Qed.

Section MorphologyFacts.
Context {A : Type} `{Scalar A}.
Implicit Types S T : tensor A.

Lemma py_index_in_range n i :
  0 ≤ i < n → py_index n i = Ok (Z.to_nat i).
Proof. intros Hi. unfold py_index. by rewrite bool_decide_eq_true_2. Qed.

Lemma item_cell n m T a b :
  rect n m T → 0 ≤ a < Z.of_nat n → 0 ≤ b < Z.of_nat m →
  ∃ v, item T a b = Ok v ∧ cell T (Z.to_nat a) (Z.to_nat b) = Some v.
Proof.
  intros Hr Ha Hb.
  destruct (cell_is_Some n m T (Z.to_nat a) (Z.to_nat b) Hr) as [v Hv]; [lia..|].
  exists v. split; [|done]. unfold item, cell in *.
  destruct Hr as [Hn Hrows].
  rewrite py_index_in_range by lia. simpl.
  destruct (T !! Z.to_nat a) as [row|] eqn:Hrow; [|done]. simpl in Hv.
  assert (length row = m) as Hm by (by eapply (Forall_lookup_1 _ _ _ _ Hrows Hrow)).
  rewrite py_index_in_range by lia. simpl. by rewrite Hv.
Qed.

Lemma compute_xc_yc_eq T :
  compute_xc_yc T = (round_half ((size T).1 - 1), round_half ((size T).2 - 1)).
Proof. unfold compute_xc_yc. by destruct (size T). Qed.

Lemma footprint_in_range n m T p :
  rect n m T → p ∈ footprint T →
  0 ≤ (compute_xc_yc T).1 + p.1 < Z.of_nat n ∧
  0 ≤ (compute_xc_yc T).2 + p.2 < Z.of_nat m.
Proof.
  intros Hr. unfold footprint. rewrite compute_xc_yc_eq.
  destruct (size T) as [sx sy] eqn:Hsize. simpl.
  intros Hin. apply list_elem_of_bind in Hin as (px & Hp & Hpx).
  apply list_elem_of_fmap in Hp as (py & -> & Hpy). simpl.
  unfold py_range in *. apply elem_of_seqZ in Hpx, Hpy.
  destruct (decide (n = 0)%nat) as [->|Hn].
  - destruct Hr as [Hlen _]. apply nil_length_inv in Hlen. subst T.
    inversion Hsize; subst. lia.
  - rewrite (rect_size n m T Hr) in Hsize by lia. inversion Hsize; subst.
    lia.
Qed.
End MorphologyFacts.

Section ShiftFold.
Context {A : Type} `{Scalar A}.
Implicit Types S T : tensor A.

Variable f g : A → A → A.
Variable sh : Z * Z → Z * Z.

Lemma shift_fold_cells h w n m S T (l : list (Z * Z)) r0 :
  rect h w S → rect n m T → rect h w r0 →
  (∀ p, p ∈ l → 0 ≤ (compute_xc_yc T).1 + p.1 < Z.of_nat n ∧
                0 ≤ (compute_xc_yc T).2 + p.2 < Z.of_nat m) →
  ∃ r, for_ l r0 (shift_body f g sh S T) = Ok r ∧ rect h w r ∧
       ∀ i j, (i < h)%nat → (j < w)%nat →
         cell r i j = foldl (step_opt f (shift_term g sh S T i j)) (cell r0 i j) l.
Proof.
  intros HS HT. revert r0.
  induction l as [|p l IH]; intros r0 Hr0 Hl.
  - exists r0. split; [done|]. by split.
  - destruct (Hl p) as [Hx Hy]; [by left|].
    destruct (item_cell n m T _ _ HT Hx Hy) as (v & Hitem & Hcell).
    simpl. unfold shift_body at 1. rewrite Hitem. simpl.
    set (r1 := zip_with _ r0 _).
    assert (rect h w r1) as Hr1.
    { apply rect_zip_with; [done|]. by apply rect_fmap_cells, rect_roll. }
    destruct (IH r1 Hr1) as (r & Hfor & Hr & Hcells).
    { intros q Hq. apply Hl. by right. }
    exists r. split; [done|]. split; [done|].
    intros i j Hi Hj. rewrite (Hcells i j Hi Hj). f_equal.
    unfold r1. rewrite cell_zip_with, cell_fmap.
    unfold step_opt, shift_term. rewrite Hcell.
    destruct (cell r0 i j); simpl; [|done].
    by destruct (cell (roll S (sh p)) i j).
Qed.

Lemma foldl_step_is_Some (term : Z * Z → option A) (l : list (Z * Z)) acc :
  is_Some acc → (∀ p, p ∈ l → is_Some (term p)) →
  is_Some (foldl (step_opt f term) acc l).
Proof.
  revert acc. induction l as [|p l IH]; intros acc Hacc Hl; [done|].
  simpl. apply IH; [|intros q Hq; apply Hl; by right].
  destruct Hacc as [a ->]. destruct (Hl p) as [c Hc]; [by left|].
  unfold step_opt. rewrite Hc. by eexists.
Qed.

Lemma foldl_step_ext (t1 t2 : Z * Z → option A) (l : list (Z * Z)) acc :
  (∀ p, p ∈ l → t1 p = t2 p) →
  foldl (step_opt f t1) acc l = foldl (step_opt f t2) acc l.
Proof.
  revert acc. induction l as [|p l IH]; intros acc Hl; [done|].
  simpl. unfold step_opt at 2 4. rewrite (Hl p) by (by left).
  apply IH. intros q Hq. apply Hl. by right.
Qed.
End ShiftFold.

Section Dilation.
Context {A : Type} `{Scalar A}.
Implicit Types S T : tensor A.

Lemma idilation_for S T :
  idilation S T =
  for_ (footprint T) (full_like S neg_inf)
       (shift_body maximum s_add (λ p, (- p.1, - p.2)) S T).
Proof.
  unfold idilation, footprint, shift_body. rewrite compute_xc_yc_eq.
  destruct (size T) as [sx sy]. simpl.
  exact (for_pairs _ _ _ (λ px py r,
    v ←ᵣ item T (round_half (sx - 1) + px) (round_half (sy - 1) + py);
    Ok (tmaximum r (add_scalar (roll S (- px, - py)) v)))).
Qed.
End Dilation.

Section Erosion.
Context {A : Type} `{Scalar A}.
Implicit Types S T : tensor A.

Lemma ierosion_for S T :
  ierosion S T =
  for_ (footprint T) (full_like S pos_inf)
       (shift_body minimum s_sub (λ p, p) S T).
Proof.
  unfold ierosion, footprint, shift_body. rewrite compute_xc_yc_eq.
  destruct (size T) as [sx sy]. simpl.
  exact (for_pairs _ _ _ (λ px py r,
    v ←ᵣ item T (round_half (sx - 1) + px) (round_half (sy - 1) + py);
    Ok (tminimum r (sub_scalar (roll S (px, py)) v)))).
Qed.

Lemma dilate_term_shift h w S T i j p :
  rect h w S → (i < h)%nat → (j < w)%nat →
  shift_term s_add (λ p, (- p.1, - p.2)) S T i j p = dilate_term S T i j p.
Proof.
  intros HS Hi Hj. unfold shift_term, dilate_term.
  rewrite (rect_size h w S HS) by lia.
  destruct (compute_xc_yc T) as [xc yc]. cbn [fst snd].
  rewrite (cell_roll h w) by done. unfold wrap.
  by rewrite !Z.sub_opp_r.
Qed.

Lemma erode_term_shift h w S T i j p :
  rect h w S → (i < h)%nat → (j < w)%nat →
  shift_term s_sub (λ p, p) S T i j p = erode_term S T i j p.
Proof.
  intros HS Hi Hj. unfold shift_term, erode_term.
  rewrite (rect_size h w S HS) by lia. destruct p as [px py].
  destruct (compute_xc_yc T) as [xc yc]. cbn [fst snd].
  rewrite (cell_roll h w) by done. unfold wrap.
  by rewrite <- !Z.add_opp_r.
Qed.

Lemma idilation_cells h w n m S T :
  rect h w S → rect n m T →
  ∃ r, idilation S T = Ok r ∧ rect h w r ∧
       ∀ i j, (i < h)%nat → (j < w)%nat →
         is_Some (cell r i j) ∧ cell r i j = dilate_cell S T i j.
Proof.
  intros HS HT. rewrite idilation_for.
  destruct (shift_fold_cells maximum s_add (λ p, (- p.1, - p.2))
              h w n m S T (footprint T) (full_like S neg_inf))
    as (r & Hfor & Hr & Hcells); [done|done|by apply rect_full_like| |].
  { intros p Hp. by apply footprint_in_range. }
  exists r. split; [done|]. split; [done|]. intros i j Hi Hj.
  split; [by eapply cell_is_Some|].
  rewrite (Hcells i j Hi Hj), cell_full_like.
  destruct (cell_is_Some h w S i j HS Hi Hj) as [s ->]. simpl.
  apply foldl_step_ext. intros p _. by eapply dilate_term_shift.
Qed.

Lemma ierosion_cells h w n m S T :
  rect h w S → rect n m T →
  ∃ r, ierosion S T = Ok r ∧ rect h w r ∧
       ∀ i j, (i < h)%nat → (j < w)%nat →
         is_Some (cell r i j) ∧ cell r i j = erode_cell S T i j.
Proof.
  intros HS HT. rewrite ierosion_for.
  destruct (shift_fold_cells minimum s_sub (λ p, p)
              h w n m S T (footprint T) (full_like S pos_inf))
    as (r & Hfor & Hr & Hcells); [done|done|by apply rect_full_like| |].
  { intros p Hp. by apply footprint_in_range. }
  exists r. split; [done|]. split; [done|]. intros i j Hi Hj.
  split; [by eapply cell_is_Some|].
  rewrite (Hcells i j Hi Hj), cell_full_like.
  destruct (cell_is_Some h w S i j HS Hi Hj) as [s ->]. simpl.
  apply foldl_step_ext. intros p _. by eapply erode_term_shift.
Qed.
End Erosion.

Lemma wrap_wrap i p h : (i < h)%nat →
  wrap (wrap i p (Z.of_nat h)) (- p) (Z.of_nat h) = i.
Proof.
  intros Hi. unfold wrap.
  assert (0 < Z.of_nat h) as Hh by lia.
  rewrite Z2Nat.id by (apply Z.mod_pos_bound; done).
  rewrite Zplus_mod_idemp_l.
  replace (Z.of_nat i + p + - p) with (Z.of_nat i) by lia.
  rewrite Z.mod_small by lia. apply Nat2Z.id.
Qed.

Lemma wrap_lt i p h : (0 < h)%nat → (wrap i p (Z.of_nat h) < h)%nat.
Proof.
  intros Hh. unfold wrap.
  pose proof (Z.mod_pos_bound (Z.of_nat i + p) (Z.of_nat h) ltac:(lia)). lia.
Qed.

Section Opening.
Context {A : Type} `{Ordered A} `{!ExactLaws A}.
Implicit Types I T : tensor A.

Lemma foldl_step_None (f : A → A → A) term (l : list (Z * Z)) :
  foldl (step_opt f term) None l = None.
Proof. by induction l. Qed.

Lemma running_min_le term (l : list (Z * Z)) a v :
  foldl (step_opt minimum term) (Some a) l = Some v →
  (∀ x, s_le a x → s_le v x) ∧
  (∀ q c, q ∈ l → term q = Some c → s_le v c).
Proof.
  revert a. induction l as [|p l IH]; intros a; simpl.
  - intros [= <-]. split; [done|]. intros q c Hq. by apply elem_of_nil in Hq.
  - destruct (term p) as [c|] eqn:Hp; simpl;
      [|by rewrite foldl_step_None].
    intros Hv. destruct (IH _ Hv) as [Hacc Hl]. split.
    + intros x Hx. apply Hacc. eapply s_le_trans; [apply minimum_le_l|done].
    + intros q c' Hq Hc'. apply elem_of_cons in Hq as [->|Hq].
      * rewrite Hp in Hc'. injection Hc' as <-.
        apply Hacc, minimum_le_r.
      * by eapply Hl.
Qed.

Lemma running_max_le term (l : list (Z * Z)) a v x :
  foldl (step_opt maximum term) (Some a) l = Some v →
  s_le a x → (∀ q c, q ∈ l → term q = Some c → s_le c x) → s_le v x.
Proof.
  revert a. induction l as [|p l IH]; intros a; simpl.
  - by intros [= <-].
  - destruct (term p) as [c|] eqn:Hp; simpl;
      [|by rewrite foldl_step_None].
    intros Hv Ha Hl. eapply IH; [done| |].
    + apply maximum_lub; [done|]. eapply Hl; [by left|done].
    + intros q c' Hq. apply Hl. by right.
Qed.

(** C1, amended.  Over exact arithmetic the opening is a contraction:
    for an image and a tip of real numbers,
    [idilation (ierosion I T) T] is at most [I] at every cell, whatever
    the sign of the tip's entries and with the circular shifts as they
    are.  (Over binary64 the inequality holds up to rounding only.) *)
Theorem opening_contraction_exact h w n m I T :
  rect h w I → rect n m T →
  Forall (Forall real) I → Forall (Forall real) T →
  ∃ r, opening I T = Ok r ∧ rect h w r ∧
       ∀ i j, (i < h)%nat → (j < w)%nat →
         ∃ o a, cell r i j = Some o ∧ cell I i j = Some a ∧ s_le o a.
Proof.
  intros HI HT HrI HrT. unfold opening.
  destruct (ierosion_cells h w n m I T HI HT) as (e & -> & He & Hecells).
  simpl.
  destruct (idilation_cells h w n m e T He HT) as (r & -> & Hr & Hrcells).
  exists r. split; [done|]. split; [done|]. intros i j Hi Hj.
  destruct (Hrcells i j Hi Hj) as [[o Ho] Hspec].
  destruct (cell_is_Some h w I i j HI Hi Hj) as [a Ha].
  exists o, a. split; [done|]. split; [done|].
  rewrite Ho in Hspec. symmetry in Hspec.
  eapply running_max_le; [exact Hspec|apply neg_inf_le|].
  intros [px py] c Hq Hc. unfold dilate_term in Hc.
  rewrite (rect_size h w e He) in Hc by lia.
  destruct (compute_xc_yc T) as [xc yc] eqn:Hxy. simpl in Hc.
  set (i' := wrap i px (Z.of_nat h)) in *.
  set (j' := wrap j py (Z.of_nat w)) in *.
  destruct (cell e i' j') as [ev|] eqn:Hev; [|done]. simpl in Hc.
  destruct (cell T _ _) as [t|] eqn:Ht; [|done]. simpl in Hc.
  injection Hc as <-.
  apply sub_add_le;
    [eapply (Forall_cell _ I); [exact HrI|exact Ha]
    |eapply (Forall_cell _ T); [exact HrT|exact Ht]|].
  assert (i' < h)%nat as Hi' by (apply wrap_lt; lia).
  assert (j' < w)%nat as Hj' by (apply wrap_lt; lia).
  destruct (Hecells i' j' Hi' Hj') as [_ Hespec].
  rewrite Hev in Hespec. symmetry in Hespec.
  apply running_min_le in Hespec as [_ Hmin].
  apply (Hmin (px, py)).
  - exact Hq.
  - unfold erode_term. rewrite (rect_size h w I HI) by lia.
    rewrite Hxy. simpl. unfold i', j'. rewrite !wrap_wrap by done.
    rewrite Ha. simpl. by rewrite Ht.
Qed.
End Opening.

Section SpecOrder.
Lemma SFleb_trans a b c :
  SFleb a b = true → SFleb b c = true → SFleb a c = true.
Proof.
  unfold SFleb, SFcompare.
  destruct a as [sa|sa| |sa ma ea], b as [sb|sb| |sb mb eb],
           c as [sc|sc| |sc mc ec]; try done;
    try destruct sa; try destruct sb; try destruct sc; try done;
    change (Pos.compare_cont Eq) with Pos.compare;
    destruct (Z.compare_spec ea eb); try done;
    destruct (Z.compare_spec eb ec); try done;
    destruct (Z.compare_spec ea ec); try done; try lia;
    destruct (Pos.compare_spec ma mb); try done;
    destruct (Pos.compare_spec mb mc); try done;
    destruct (Pos.compare_spec ma mc); try done; lia.
Qed.
End SpecOrder.

Section SpecOrder2.
Lemma SFcompare_refl a : a ≠ S754_nan → SFcompare a a = Some Eq.
Proof.
  destruct a as [s|s| |s m e]; try done; intros _; simpl.
  - by destruct s.
  - rewrite Z.compare_refl. change (Pos.compare_cont Eq) with Pos.compare.
    rewrite Pos.compare_refl. by destruct s.
Qed.

Lemma SFcompare_antisym a b :
  SFcompare b a = CompOpp <$> SFcompare a b.
Proof.
  destruct a as [sa|sa| |sa ma ea], b as [sb|sb| |sb mb eb]; try done;
    try (by destruct sa); try (by destruct sb);
    try (by destruct sa, sb).
  simpl. change (Pos.compare_cont Eq) with Pos.compare.
  rewrite (Z.compare_antisym ea eb), (Pos.compare_antisym ma mb).
  destruct sa, sb; try done;
    destruct (ea ?= eb); try done; by destruct (ma ?= mb)%positive.
Qed.
End SpecOrder2.

Section FloatOrder.
#[local] Open Scope float_scope.
Implicit Types a b c x : float.

Lemma is_nan_spec x : is_nan x = true ↔ Prim2SF x = S754_nan.
Proof.
  unfold is_nan. rewrite FloatAxioms.eqb_spec. unfold SFeqb. split.
  - destruct (Prim2SF x) eqn:E; try done; intros Hn;
      rewrite SFcompare_refl in Hn; done.
  - by intros ->.
Qed.

Lemma is_nan_false x : is_nan x = false ↔ Prim2SF x ≠ S754_nan.
Proof.
  rewrite <- is_nan_spec. by destruct (is_nan x).
Qed.

Lemma leb_not_nan a b :
  (a <=? b) = true → is_nan a = false ∧ is_nan b = false.
Proof.
  rewrite FloatAxioms.leb_spec, !is_nan_false. unfold SFleb.
  by destruct (Prim2SF a), (Prim2SF b).
Qed.

Lemma leb_refl x : is_nan x = false → (x <=? x) = true.
Proof.
  rewrite is_nan_false, FloatAxioms.leb_spec. intros Hx. unfold SFleb.
  by rewrite SFcompare_refl.
Qed.

Lemma leb_trans a b c :
  (a <=? b) = true → (b <=? c) = true → (a <=? c) = true.
Proof. rewrite !FloatAxioms.leb_spec. apply SFleb_trans. Qed.

Lemma ltb_leb a b : (a <? b) = true → (a <=? b) = true.
Proof.
  rewrite FloatAxioms.leb_spec, FloatAxioms.ltb_spec. unfold SFltb, SFleb.
  by destruct (SFcompare _ _) as [[]|].
Qed.

Lemma leb_total a b :
  is_nan a = false → is_nan b = false →
  (a <? b) = false → (b <=? a) = true.
Proof.
  rewrite !is_nan_false, FloatAxioms.leb_spec, FloatAxioms.ltb_spec.
  unfold SFltb, SFleb. rewrite (SFcompare_antisym (Prim2SF a) (Prim2SF b)).
  intros Ha Hb.
  destruct (SFcompare (Prim2SF a) (Prim2SF b)) as [[]|] eqn:E; try done.
  by destruct (Prim2SF a), (Prim2SF b).
Qed.

Lemma leb_antisym a b :
  (a <=? b) = true → (b <=? a) = true → (a =? b) = true.
Proof.
  rewrite !FloatAxioms.leb_spec, FloatAxioms.eqb_spec. unfold SFleb, SFeqb.
  rewrite (SFcompare_antisym (Prim2SF a) (Prim2SF b)).
  by destruct (SFcompare (Prim2SF a) (Prim2SF b)) as [[]|].
Qed.

Lemma eqb_leb a b : (a =? b) = true → (a <=? b) = true.
Proof.
  rewrite FloatAxioms.leb_spec, FloatAxioms.eqb_spec. unfold SFleb, SFeqb.
  by destruct (SFcompare _ _) as [[]|].
Qed.

(** ** [fminimum], [fmaximum] *)

Lemma fminimum_cases a b : fminimum a b = a ∨ fminimum a b = b.
Proof.
  unfold fminimum. destruct (is_nan a), (is_nan b), (b <? a); auto.
Qed.

Lemma fminimum_nan_l a b : is_nan a = true → is_nan (fminimum a b) = true.
Proof. unfold fminimum. intros Ha. by rewrite Ha. Qed.

Lemma fminimum_nan_r a b : is_nan b = true → is_nan (fminimum a b) = true.
Proof. unfold fminimum. intros Hb. destruct (is_nan a) eqn:Ha; [done|]. by rewrite Hb. Qed.

Lemma fminimum_le_l a b :
  is_nan a = false → is_nan b = false → (fminimum a b <=? a) = true.
Proof.
  intros Ha Hb. unfold fminimum. rewrite Ha, Hb.
  destruct (b <? a) eqn:E; [by apply ltb_leb|by apply leb_refl].
Qed.

Lemma fminimum_le_r a b :
  is_nan a = false → is_nan b = false → (fminimum a b <=? b) = true.
Proof.
  intros Ha Hb. unfold fminimum. rewrite Ha, Hb.
  destruct (b <? a) eqn:E; [by apply leb_refl|by apply leb_total].
Qed.

Lemma fmaximum_neg_inf x : fmaximum neg_infinity x = x.
Proof.
  unfold fmaximum. change (is_nan neg_infinity) with false. cbv iota.
  destruct (is_nan x) eqn:Hx; [done|].
  destruct (neg_infinity <? x) eqn:E; [done|].
  apply Prim2SF_inj. rewrite FloatAxioms.ltb_spec in E.
  apply is_nan_false in Hx. unfold SFltb in E.
  change (Prim2SF neg_infinity) with (S754_infinity true) in *.
  destruct (Prim2SF x) as [s|s| |s m e]; try done. by destruct s.
Qed.

Lemma fminimum_pos_inf x : fminimum infinity x = x.
Proof.
  unfold fminimum. change (is_nan infinity) with false. cbv iota.
  destruct (is_nan x) eqn:Hx; [done|].
  destruct (x <? infinity) eqn:E; [done|].
  apply Prim2SF_inj. rewrite FloatAxioms.ltb_spec in E.
  apply is_nan_false in Hx. unfold SFltb in E.
  change (Prim2SF infinity) with (S754_infinity false) in *.
  destruct (Prim2SF x) as [s|s| |s m e]; try done; by destruct s.
Qed.
End FloatOrder.

Section FloatZero.
#[local] Open Scope float_scope.
Implicit Types a b c x z : float.

Lemma eqb_zero x : (x =? 0) = true ↔ ∃ s, Prim2SF x = S754_zero s.
Proof.
  rewrite FloatAxioms.eqb_spec. unfold SFeqb.
  change (Prim2SF 0) with (S754_zero false). split.
  - destruct (Prim2SF x) as [s|s| |s m e]; try done; [by eexists|..];
      by destruct s.
  - by intros [s ->].
Qed.

Lemma zero_cases x : (x =? 0) = true → x = 0 ∨ x = (-0).
Proof.
  intros [s Hs]%eqb_zero. destruct s; [right|left]; by apply Prim2SF_inj.
Qed.

Lemma finite_not_nan x : finite x = true → is_nan x = false.
Proof.
  unfold finite. intros Hx. apply is_nan_false. by destruct (Prim2SF x).
Qed.

Lemma add_zero_r a z :
  is_nan a = false → (z =? 0) = true → (a + z =? a) = true.
Proof.
  intros Ha%is_nan_false [s Hs]%eqb_zero.
  rewrite FloatAxioms.eqb_spec, FloatAxioms.add_spec, Hs. unfold SFeqb.
  destruct (Prim2SF a) as [sa|sa| |sa ma ea] eqn:E; try done.
  - by destruct sa, s.
  - by destruct sa.
  - unfold SF64add, SFadd. by rewrite SFcompare_refl.
Qed.

Lemma sub_zero_r a z :
  is_nan a = false → (z =? 0) = true → (a - z =? a) = true.
Proof.
  intros Ha%is_nan_false [s Hs]%eqb_zero.
  rewrite FloatAxioms.eqb_spec, FloatAxioms.sub_spec, Hs. unfold SFeqb.
  destruct (Prim2SF a) as [sa|sa| |sa ma ea] eqn:E; try done.
  - by destruct sa, s.
  - by destruct sa.
  - unfold SF64sub, SFsub. by rewrite SFcompare_refl.
Qed.

(** Through a zero tip entry a finite height comes back unchanged, up
    to the sign of a zero, and the residual is a zero. *)
Lemma residual_zero a z :
  finite a = true → (z =? 0) = true → ((a - z) + z - a =? 0) = true.
Proof.
  unfold finite. intros Ha [s Hs]%eqb_zero. apply eqb_zero.
  rewrite FloatAxioms.sub_spec, FloatAxioms.add_spec, FloatAxioms.sub_spec, Hs.
  destruct (Prim2SF a) as [sa|sa| |sa ma ea] eqn:E; try done.
  - destruct sa, s; by eexists.
  - exists false. unfold SF64sub, SF64add, SFsub, SFadd.
    by rewrite Z.sub_diag.
Qed.

Lemma square_zero z : (z =? 0) = true → z * z = 0.
Proof.
  intros [s Hs]%eqb_zero. apply Prim2SF_inj.
  rewrite FloatAxioms.mul_spec, Hs. by destruct s.
Qed.

Lemma zero_div_finite c m e :
  Prim2SF c = S754_finite false m e → 0 / c = 0.
Proof.
  intros Hc. apply Prim2SF_inj. by rewrite FloatAxioms.div_spec, Hc.
Qed.
End FloatZero.

Section FloatNaN.
#[local] Open Scope float_scope.
Implicit Types a b c x y : float.

Lemma sub_nan_r x y : is_nan y = true → is_nan (x - y) = true.
Proof.
  rewrite !is_nan_spec, FloatAxioms.sub_spec. intros ->.
  by destruct (Prim2SF x).
Qed.

Lemma add_nan_l x y : is_nan x = true → is_nan (x + y) = true.
Proof. rewrite !is_nan_spec, FloatAxioms.add_spec. by intros ->. Qed.

Lemma add_nan_r x y : is_nan y = true → is_nan (x + y) = true.
Proof.
  rewrite !is_nan_spec, FloatAxioms.add_spec. intros ->.
  by destruct (Prim2SF x).
Qed.

Lemma mul_nan_r x y : is_nan y = true → is_nan (x * y) = true.
Proof.
  rewrite !is_nan_spec, FloatAxioms.mul_spec. intros ->.
  by destruct (Prim2SF x).
Qed.

Lemma div_nan_l x y : is_nan x = true → is_nan (x / y) = true.
Proof. rewrite !is_nan_spec, FloatAxioms.div_spec. by intros ->. Qed.

Lemma ltb_nan_l x y : is_nan x = true → (x <? y) = false.
Proof. rewrite is_nan_spec, FloatAxioms.ltb_spec. by intros ->. Qed.

Lemma ltb_nan_r x y : is_nan y = true → (x <? y) = false.
Proof.
  rewrite is_nan_spec, FloatAxioms.ltb_spec. intros ->.
  unfold SFltb. by destruct (Prim2SF x).
Qed.

Lemma py_round_nan x : is_nan x = true → py_round x = Raise ValueError.
Proof. rewrite is_nan_spec. unfold py_round. by intros ->. Qed.

Lemma foldl_add_nan a (l : list float) :
  is_nan a = true → is_nan (foldl PrimFloat.add a l) = true.
Proof.
  revert a. induction l as [|x l IH]; intros a Ha; [done|].
  simpl. by apply IH, add_nan_l.
Qed.

Lemma foldl_add_all_nan a (l : list float) :
  l ≠ [] → Forall (λ x, is_nan x = true) l →
  is_nan (foldl PrimFloat.add a l) = true.
Proof.
  destruct l as [|x l]; [done|]. intros _ Hl. simpl.
  apply foldl_add_nan, add_nan_r. by apply Forall_inv in Hl.
Qed.

Lemma foldl_fminimum_nan a (l : list float) :
  is_nan a = true → is_nan (foldl fminimum a l) = true.
Proof.
  revert a. induction l as [|x l IH]; intros a Ha; [done|].
  simpl. by apply IH, fminimum_nan_l.
Qed.

Lemma foldl_fminimum_not_nan a (l : list float) :
  is_nan (foldl fminimum a l) = false →
  is_nan a = false ∧ Forall (λ x, is_nan x = false) l.
Proof.
  revert a. induction l as [|x l IH]; intros a Hm; simpl in *; [done|].
  destruct (IH _ Hm) as [Hax Hl].
  destruct (is_nan a) eqn:Ha.
  { by rewrite fminimum_nan_l in Hax. }
  destruct (is_nan x) eqn:Hx.
  { by rewrite fminimum_nan_r in Hax. }
  split; [done|]. by constructor.
Qed.

Lemma foldl_fminimum_elem a (l : list float) :
  foldl fminimum a l ∈ a :: l.
Proof.
  revert a. induction l as [|x l IH]; intros a; simpl; [by left|].
  specialize (IH (fminimum a x)).
  apply elem_of_cons in IH as [->|IH]; [|by do 2 right].
  destruct (fminimum_cases a x) as [->| ->]; [by left|by right; left].
Qed.

Lemma foldl_fminimum_lower a (l : list float) y :
  is_nan a = false → Forall (λ x, is_nan x = false) l →
  y ∈ a :: l → (foldl fminimum a l <=? y) = true.
Proof.
  revert a y. induction l as [|x l IH]; intros a y Ha Hl Hy.
  - apply elem_of_cons in Hy as [->|Hy]; [by apply leb_refl|].
    by apply elem_of_nil in Hy.
  - simpl. apply list.Forall_cons in Hl as [Hx Hl].
    assert (is_nan (fminimum a x) = false) as Hax.
    { by destruct (fminimum_cases a x) as [->| ->]. }
    apply elem_of_cons in Hy as [->|Hy].
    + eapply leb_trans; [apply IH; [done|done|by left]|].
      by apply fminimum_le_l.
    + apply elem_of_cons in Hy as [->|Hy].
      * eapply leb_trans; [apply IH; [done|done|by left]|].
        by apply fminimum_le_r.
      * apply IH; [done|done|by right].
Qed.
End FloatNaN.

Lemma digits2_pos_size p : digits2_pos p = Pos.size p.
Proof. induction p; simpl; congruence. Qed.

Lemma digits2_iter_xO p k :
  digits2_pos (Pos.iter xO p k) = (digits2_pos p + k)%positive.
Proof.
  induction k as [|k IH] using Pos.peano_ind.
  - simpl. lia.
  - rewrite Pos.iter_succ. simpl. rewrite IH. lia.
Qed.

Lemma size_le_53 p : Z.pos p < 2 ^ 53 → (Pos.size p <= 53)%positive.
Proof.
  intros Hp. pose proof (Pos.size_le p) as Hs.
  destruct (decide (Pos.size p <= 53)%positive) as [|Hn]; [done|].
  exfalso. assert (54 <= Z.pos (Pos.size p)) as H54 by lia.
  assert (2 ^ 54 <= 2 ^ Z.pos (Pos.size p)) as Hpow.
  { apply Z.pow_le_mono_r; lia. }
  assert (Z.pos (2 ^ Pos.size p) <= Z.pos p~0) as Hs' by lia.
  rewrite Pos2Z.inj_pow in Hs'. lia.
Qed.

Lemma binary_round_aux_exact mz ez :
  digits2_pos mz = 53%positive → -1074 ≤ ez ≤ 971 →
  binary_round_aux prec emax false (Z.pos mz) ez loc_Exact =
  S754_finite false mz ez.
Proof.
  intros Hd He.
  assert (fexp prec emax (53 + ez) - ez = 0) as Hfexp.
  { unfold fexp, emin, prec, emax. lia. }
  unfold binary_round_aux, shr_fexp, Zdigits2.
  rewrite Hd, Hfexp. simpl. rewrite Hd, Hfexp. simpl.
  replace (ez <=? emax - prec) with true; [done|].
  symmetry. apply Z.leb_le. unfold emax, prec. lia.
Qed.

Lemma binary_normalize_small p :
  Z.pos p < 2 ^ 53 →
  ∃ m e, binary_normalize prec emax (Z.pos p) 0 false = S754_finite false m e.
Proof.
  intros Hp. apply size_le_53 in Hp. rewrite <- digits2_pos_size in Hp.
  unfold binary_normalize, binary_round.
  remember (digits2_pos p) as d eqn:Hd.
  assert (fexp prec emax (Z.pos d + 0) = Z.pos d - 53) as Hfexp.
  { unfold fexp, emin, prec, emax. lia. }
  rewrite Hfexp. unfold shl_align.
  destruct (decide (d = 53%positive)) as [E|E].
  - subst d. rewrite E. change (53 - 53 - 0) with 0. cbv beta iota zeta.
    rewrite binary_round_aux_exact by (done || lia). eauto.
  - assert (∃ k, Z.pos d - 53 - 0 = Z.neg k ∧ (d + k = 53)%positive)
      as (k & Hk & Hdk).
    { exists (53 - d)%positive. lia. }
    rewrite Hk. cbv beta iota zeta.
    rewrite binary_round_aux_exact; [eauto| |lia].
    rewrite digits2_iter_xO. by rewrite <- Hd.
Qed.

Lemma float_of_nat_finite (n : nat) :
  (0 < n)%nat → Z.of_nat n < 2 ^ 53 →
  ∃ m e, Prim2SF (float_of_nat n) = S754_finite false m e.
Proof.
  intros Hn Hb. unfold float_of_nat. rewrite FloatAxioms.of_uint63_spec.
  rewrite Uint63.of_Z_spec. rewrite Z.mod_small.
  - destruct (Z.of_nat n) as [|p|p] eqn:E; [lia| |lia].
    by apply binary_normalize_small.
  - assert (Uint63.wB = 2 ^ 63) as -> by done. lia.
Qed.

Section Entries.
Context {X : Type}.
Implicit Types t : tensor X.

Lemma elem_of_entries t v :
  v ∈ entries t ↔ ∃ i j, cell t i j = Some v.
Proof.
  unfold entries, cell. rewrite list_elem_of_join. split.
  - intros (row & Hv & Hrow).
    apply list_elem_of_lookup in Hrow as [i Hi].
    apply list_elem_of_lookup in Hv as [j Hj].
    exists i, j. by rewrite Hi.
  - intros (i & j & Hc). destruct (t !! i) as [row|] eqn:Hi; [|done].
    exists row. split; [by eapply list_elem_of_lookup_2|
                        by eapply list_elem_of_lookup_2].
Qed.

Lemma entries_fmap {Y} (f : X → Y) t :
  entries ((λ row : list X, f <$> row) <$> t) = f <$> entries t.
Proof.
  unfold entries. induction t as [|row t IH]; [done|].
  csimpl. by rewrite fmap_app, IH.
Qed.

Lemma entries_length n m t : rect n m t → length (entries t) = (n * m)%nat.
Proof.
  unfold entries. intros [<- Hr]. induction Hr as [|row t Hrow Hr IH]; [done|].
  csimpl. rewrite length_app, IH, Hrow. lia.
Qed.
End Entries.

Section AssignSlice.
Context {X : Type}.
Implicit Types dst src r : tensor X.

Lemma assign_slice_cell dst src dr dc sr sc r i j :
  assign_slice dst src dr dc sr sc = Ok r →
  cell r i j =
  (λ old, if slice_inside dr i && slice_inside dc j
          then default old (cell src (slice_pick dr sr i) (slice_pick dc sc j))
          else old) <$> cell dst i j.
Proof.
  unfold assign_slice.
  destruct (slice_fits dr sr && slice_fits dc sc); [|done]. intros [= <-].
  unfold cell. rewrite list_lookup_imap.
  destruct (dst !! i) as [row|]; simpl; [|done].
  destruct (slice_inside dr i); simpl;
    [by rewrite list_lookup_imap|by destruct (row !! j)].
Qed.

Lemma assign_slice_rect n m dst src dr dc sr sc r :
  assign_slice dst src dr dc sr sc = Ok r → rect n m dst → rect n m r.
Proof.
  unfold assign_slice.
  destruct (slice_fits dr sr && slice_fits dc sc); [|done]. intros [= <-] [Hn Hr].
  split; [by rewrite length_imap|].
  apply list.Forall_forall. intros row Hin.
  apply list_elem_of_lookup in Hin as [i Hi].
  rewrite list_lookup_imap in Hi.
  destruct (dst !! i) as [row0|] eqn:Hrow0; [|done]. simpl in Hi.
  injection Hi as <-.
  pose proof (Forall_lookup_1 _ _ _ _ Hr Hrow0) as Hlen. simpl in Hlen.
  destruct (slice_inside dr i); [|done]. by rewrite length_imap.
Qed.

Lemma tensor_eq n m (t u : tensor X) :
  rect n m t → rect n m u →
  (∀ i j, (i < n)%nat → (j < m)%nat → cell t i j = cell u i j) → t = u.
Proof.
  intros [Hn Hr] [Hn' Hr'] Hcells. apply list_eq_same_length with n; [done..|].
  intros i x y Hi Hx Hy.
  pose proof (Forall_lookup_1 _ _ _ _ Hr Hx) as Hlx.
  pose proof (Forall_lookup_1 _ _ _ _ Hr' Hy) as Hly. simpl in *.
  apply list_eq_same_length with m; [done..|].
  intros j a b Hj Ha Hb. specialize (Hcells i j Hi Hj).
  unfold cell in Hcells. rewrite Hx, Hy in Hcells. simpl in Hcells. congruence.
Qed.

(** Writing all of the source over all of the destination. *)
Lemma assign_slice_all n m dst src :
  rect n m dst → rect n m src →
  assign_slice dst src (0, n)%nat (0, m)%nat (0, n)%nat (0, m)%nat = Ok src.
Proof.
  intros Hd Hs.
  destruct (assign_slice dst src (0, n)%nat (0, m)%nat (0, n)%nat (0, m)%nat)
    as [r|e] eqn:Hr.
  - f_equal. apply (tensor_eq n m); [by eapply assign_slice_rect|done|].
    intros i j Hi Hj. rewrite (assign_slice_cell _ _ _ _ _ _ _ i j Hr).
    destruct (cell_is_Some n m dst i j Hd Hi Hj) as [old ->].
    destruct (cell_is_Some n m src i j Hs Hi Hj) as [v Hv]. simpl.
    unfold slice_inside, slice_pick. simpl.
    rewrite !bool_decide_eq_true_2 by lia. simpl.
    by rewrite !Nat.sub_0_r, Hv.
  - unfold assign_slice, slice_fits in Hr. simpl in Hr.
    by rewrite !bool_decide_eq_true_2 in Hr by auto.
Qed.

(** What a cell of the result holds: the old entry, or an entry of the
    source. *)
Lemma assign_slice_cases dst src dr dc sr sc r i j v :
  assign_slice dst src dr dc sr sc = Ok r → cell r i j = Some v →
  cell dst i j = Some v ∨ v ∈ entries src.
Proof.
  intros Hr Hv. rewrite (assign_slice_cell _ _ _ _ _ _ _ i j Hr) in Hv.
  destruct (cell dst i j) as [old|]; [|done]. simpl in Hv.
  destruct (_ && _); [|by left].
  destruct (cell src _ _) as [s|] eqn:Hs; simpl in Hv; [|by left].
  right. injection Hv as <-. apply elem_of_entries. eauto.
Qed.
End AssignSlice.

Section Translate.
#[local] Open Scope Z_scope.
Implicit Types P : tensor float.

Lemma translate_tip_mean_inv n m P P' :
  rect n m P → (0 < n)%nat →
  translate_tip_mean P = Ok P' →
  ∃ p_min id_x id_y,
    tmin P = Ok p_min ∧ centre_of_mass P p_min = Ok (id_x, id_y) ∧
    assign_slice (full_like P p_min) P
      (window_dst (Z.of_nat n) (round_half (Z.of_nat n - 1)) id_x)
      (window_dst (Z.of_nat m) (round_half (Z.of_nat m - 1)) id_y)
      (window_src (Z.of_nat n) (round_half (Z.of_nat n - 1)) id_x)
      (window_src (Z.of_nat m) (round_half (Z.of_nat m - 1)) id_y) = Ok P'.
Proof.
  intros HP Hn. unfold translate_tip_mean.
  rewrite compute_xc_yc_eq, (rect_size n m P HP Hn). cbn [fst snd].
  destruct (tmin P) as [p_min|] eqn:Hmin; [|done]. simpl.
  destruct (centre_of_mass P p_min) as [[id_x id_y]|] eqn:Hcom; [|done].
  simpl. intros Hr. by exists p_min, id_x, id_y.
Qed.

Lemma translate_tip_mean_intro n m P p_min id_x id_y :
  rect n m P → (0 < n)%nat →
  tmin P = Ok p_min → centre_of_mass P p_min = Ok (id_x, id_y) →
  translate_tip_mean P =
    assign_slice (full_like P p_min) P
      (window_dst (Z.of_nat n) (round_half (Z.of_nat n - 1)) id_x)
      (window_dst (Z.of_nat m) (round_half (Z.of_nat m - 1)) id_y)
      (window_src (Z.of_nat n) (round_half (Z.of_nat n - 1)) id_x)
      (window_src (Z.of_nat m) (round_half (Z.of_nat m - 1)) id_y).
Proof.
  intros HP Hn Hmin Hcom. unfold translate_tip_mean.
  rewrite compute_xc_yc_eq, (rect_size n m P HP Hn). cbn [fst snd].
  rewrite Hmin. simpl. by rewrite Hcom.
Qed.

Lemma window_centred n c : 0 ≤ c < n →
  window_dst n c c = (0%nat, Z.to_nat n) ∧
  window_src n c c = (0%nat, Z.to_nat n).
Proof.
  intros Hc. unfold window_dst, window_src, slice_bounds.
  replace (c + Z.max (- c) (- c)) with 0 by lia.
  replace (c + Z.min (n - c) (n - c)) with n by lia.
  change (0 <? 0) with false. cbv iota.
  destruct (n <? 0) eqn:E; [lia|].
  rewrite !Z.min_l by lia. split; f_equal; lia.
Qed.

(** A tip whose centre of mass rounds to its centre cell is returned
    as it is. *)
Lemma translate_tip_mean_centred n m P p_min :
  rect n m P → (0 < n)%nat → (0 < m)%nat →
  tmin P = Ok p_min →
  centre_of_mass P p_min = Ok (compute_xc_yc P) →
  translate_tip_mean P = Ok P.
Proof.
  intros HP Hn Hm Hmin Hcom.
  rewrite compute_xc_yc_eq, (rect_size n m P HP Hn) in Hcom.
  cbn [fst snd] in Hcom.
  rewrite (translate_tip_mean_intro n m P _ _ _ HP Hn Hmin Hcom).
  destruct (window_centred (Z.of_nat n) (round_half (Z.of_nat n - 1)))
    as [-> ->]; [apply round_half_range; lia|].
  destruct (window_centred (Z.of_nat m) (round_half (Z.of_nat m - 1)))
    as [-> ->]; [apply round_half_range; lia|].
  rewrite !Nat2Z.id. apply assign_slice_all; [by apply rect_full_like|done].
Qed.
End Translate.

Section TMin.
#[local] Open Scope float_scope.
Implicit Types P : tensor float.

Lemma tmin_elem P p : tmin P = Ok p → p ∈ entries P.
Proof.
  unfold tmin. destruct (entries P) as [|x l]; [done|].
  intros [= <-]. apply foldl_fminimum_elem.
Qed.

Lemma tmin_not_nan P p :
  tmin P = Ok p → is_nan p = false →
  Forall (λ x, is_nan x = false) (entries P).
Proof.
  unfold tmin. destruct (entries P) as [|x l]; [done|].
  intros [= <-] Hp. apply foldl_fminimum_not_nan in Hp as [Hx Hl].
  by constructor.
Qed.

Lemma tmin_lower P p y :
  tmin P = Ok p → is_nan p = false → y ∈ entries P → (p <=? y) = true.
Proof.
  intros Hmin Hp Hy. pose proof (tmin_not_nan P p Hmin Hp) as Hall.
  unfold tmin in Hmin. destruct (entries P) as [|x l]; [done|].
  injection Hmin as <-. apply list.Forall_cons in Hall as [Hx Hl].
  by apply foldl_fminimum_lower.
Qed.

Lemma entries_nonempty {X} n m (t : tensor X) :
  rect n m t → (0 < n)%nat → (0 < m)%nat → entries t ≠ [].
Proof.
  intros Ht Hn Hm E. apply (f_equal length) in E.
  rewrite (entries_length n m t Ht) in E. simpl in E. nia.
Qed.

Lemma tmin_is_Ok n m P :
  rect n m P → (0 < n)%nat → (0 < m)%nat → ∃ p, tmin P = Ok p.
Proof.
  intros HP Hn Hm. pose proof (entries_nonempty n m P HP Hn Hm) as Hne.
  unfold tmin. destruct (entries P); [done|]. eauto.
Qed.
End TMin.

Section Cumsum.
Context {X : Type}.

Lemma length_scan (f : X → X → X) acc (l : list X) :
  length (scan f acc l) = length l.
Proof. revert acc. induction l; intros acc; simpl; [done|]. by rewrite IHl. Qed.

Lemma length_cumsum_list (f : X → X → X) (l : list X) :
  length (cumsum_list f l) = length l.
Proof. destruct l; simpl; [done|]. by rewrite length_scan. Qed.

Lemma Forall_scan (Q : X → Prop) (f : X → X → X) acc (l : list X) :
  (∀ a b, Q a → Q b → Q (f a b)) → Q acc → Forall Q l →
  Forall Q (scan f acc l).
Proof.
  intros Hf. revert acc. induction l as [|x l IH]; intros acc Hacc Hl; simpl.
  - constructor.
  - apply list.Forall_cons in Hl as [Hx Hl].
    constructor; [by apply Hf|]. apply IH; [by apply Hf|done].
Qed.

Lemma Forall_cumsum_list (Q : X → Prop) (f : X → X → X) (l : list X) :
  (∀ a b, Q a → Q b → Q (f a b)) → Forall Q l →
  Forall Q (cumsum_list f l).
Proof.
  intros Hf Hl. destruct l as [|x l]; simpl; [constructor|].
  apply list.Forall_cons in Hl as [Hx Hl].
  constructor; [done|]. by apply Forall_scan.
Qed.
End Cumsum.

Lemma rect_cumsum0 n m (t : tensor float) : rect n m t → rect n m (cumsum0 t).
Proof.
  intros [Hn Hr]. unfold cumsum0. split; [by rewrite length_cumsum_list|].
  apply Forall_cumsum_list; [|done].
  intros a b Ha Hb. rewrite length_zip_with. lia.
Qed.

Lemma rect_cumsum1 n m (t : tensor float) : rect n m t → rect n m (cumsum1 t).
Proof. unfold cumsum1. apply rect_fmap. intros. apply length_cumsum_list. Qed.

Lemma rect_ones n m : rect n m (ones n m).
Proof.
  split; [apply length_replicate|].
  apply Forall_replicate. apply length_replicate.
Qed.

Lemma rect_zeros n m : rect n m (zeros n m).
Proof.
  split; [apply length_replicate|].
  apply Forall_replicate. apply length_replicate.
Qed.

Section CentreNaN.
#[local] Open Scope float_scope.
Implicit Types P : tensor float.

Lemma tsum_all_nan n m (ix w : tensor float) s :
  rect n m ix → rect n m w → (0 < n)%nat → (0 < m)%nat →
  (∀ v, v ∈ entries w → is_nan v = true) →
  is_nan (tsum (div_scalar (tmul ix w) s)) = true.
Proof.
  intros Hix Hw Hn Hm Hnan. unfold tsum.
  assert (rect n m (div_scalar (tmul ix w) s)) as Hq.
  { by apply rect_fmap_cells, rect_zip_with. }
  apply foldl_add_all_nan; [by eapply entries_nonempty|].
  apply list.Forall_forall. intros v Hv.
  apply elem_of_entries in Hv as (i & j & Hv).
  unfold div_scalar in Hv. rewrite cell_fmap in Hv. unfold tmul in Hv.
  rewrite cell_zip_with in Hv.
  destruct (cell ix i j) as [a|]; [|done].
  destruct (cell w i j) as [b|] eqn:Hb; [|done].
  simpl in Hv. injection Hv as <-.
  apply div_nan_l, mul_nan_r, Hnan, elem_of_entries. eauto.
Qed.

Lemma centre_of_mass_nan n m P p :
  rect n m P → (0 < n)%nat → (0 < m)%nat → is_nan p = true →
  centre_of_mass P p = Raise ValueError.
Proof.
  intros HP Hn Hm Hp. unfold centre_of_mass.
  rewrite (rect_size n m P HP Hn). rewrite !Nat2Z.id.
  set (w1 := fill_lt (sub_scalar P p) 1e-8 0).
  assert (rect n m w1) as Hw1.
  { by apply rect_fmap_cells, rect_fmap_cells. }
  assert (∀ v, v ∈ entries w1 → is_nan v = true) as Hnan.
  { intros v Hv. unfold w1, fill_lt, sub_scalar in Hv.
    rewrite !entries_fmap in Hv.
    apply list_elem_of_fmap in Hv as (x & -> & Hx).
    apply list_elem_of_fmap in Hx as (y & -> & Hy).
    simpl. rewrite ltb_nan_l; by apply sub_nan_r. }
  assert (all_lt w1 1e-10 = false) as ->.
  { unfold all_lt. pose proof (entries_nonempty n m w1 Hw1 Hn Hm) as Hne.
    destruct (entries w1) as [|x l] eqn:E; [done|]. simpl.
    rewrite ltb_nan_l; [done|]. apply Hnan. by left. }
  rewrite py_round_nan; [done|].
  apply (tsum_all_nan n m); [|done..].
  by apply rect_fmap_cells, rect_cumsum0, rect_ones.
Qed.

Lemma centre_of_mass_not_nan n m P p idx :
  rect n m P → (0 < n)%nat → (0 < m)%nat →
  centre_of_mass P p = Ok idx → is_nan p = false.
Proof.
  intros HP Hn Hm Hc. destruct (is_nan p) eqn:Hp; [|done].
  by rewrite (centre_of_mass_nan n m P p HP Hn Hm Hp) in Hc.
Qed.
End CentreNaN.

Section TranslateCells.
#[local] Open Scope float_scope.
Implicit Types P : tensor float.

Lemma window_full n c id :
  (0 ≤ c < n)%Z →
  slice_inside (window_dst n c id) 0 = true →
  slice_inside (window_dst n c id) (Z.to_nat (n - 1)) = true →
  id = c.
Proof.
  unfold slice_inside, window_dst, slice_bounds. cbn [fst snd].
  intros Hc H0%bool_decide_eq_true H1%bool_decide_eq_true.
  destruct (c + Z.max (- c) (- id) <? 0)%Z eqn:E1;
    destruct (c + Z.min (n - c) (n - id) <? 0)%Z eqn:E2; lia.
Qed.

(** The copy either restores the whole tip or leaves a cell of the
    background. *)
Lemma translate_background n m P p P' id_x id_y :
  rect n m P → (0 < n)%nat → (0 < m)%nat →
  assign_slice (full_like P p) P
    (window_dst (Z.of_nat n) (round_half (Z.of_nat n - 1)) id_x)
    (window_dst (Z.of_nat m) (round_half (Z.of_nat m - 1)) id_y)
    (window_src (Z.of_nat n) (round_half (Z.of_nat n - 1)) id_x)
    (window_src (Z.of_nat m) (round_half (Z.of_nat m - 1)) id_y) = Ok P' →
  P' = P ∨ ∃ i j, cell P' i j = Some p.
Proof.
  intros HP Hn Hm Hr.
  set (dr := window_dst (Z.of_nat n) _ id_x) in *.
  set (dc := window_dst (Z.of_nat m) _ id_y) in *.
  assert (∀ i j, (i < n)%nat → (j < m)%nat →
            slice_inside dr i && slice_inside dc j = false →
            cell P' i j = Some p) as Hout.
  { intros i j Hi Hj Hin.
    rewrite (assign_slice_cell _ _ _ _ _ _ _ i j Hr), cell_full_like.
    destruct (cell_is_Some n m P i j HP Hi Hj) as [v ->]. simpl.
    by rewrite Hin. }
  destruct (slice_inside dr 0) eqn:Hr0;
    [|right; exists 0%nat, 0%nat; apply Hout; [lia..|by rewrite ?Hr0, ?Hr1, ?Hc0, ?Hc1]].
  destruct (slice_inside dr (Z.to_nat (Z.of_nat n - 1))) eqn:Hr1;
    [|right; exists (Z.to_nat (Z.of_nat n - 1)), 0%nat;
      apply Hout; [lia..|by rewrite ?Hr0, ?Hr1, ?Hc0, ?Hc1]].
  destruct (slice_inside dc 0) eqn:Hc0;
    [|right; exists 0%nat, 0%nat; apply Hout; [lia..|by rewrite ?Hr0, ?Hr1, ?Hc0, ?Hc1]].
  destruct (slice_inside dc (Z.to_nat (Z.of_nat m - 1))) eqn:Hc1;
    [|right; exists 0%nat, (Z.to_nat (Z.of_nat m - 1));
      apply Hout; [lia..|by rewrite ?Hr0, ?Hr1, ?Hc0, ?Hc1]].
  left.
  pose proof (round_half_range (Z.of_nat n) ltac:(lia)) as Hxc.
  pose proof (round_half_range (Z.of_nat m) ltac:(lia)) as Hyc.
  apply window_full in Hr1; [|done..]. apply window_full in Hc1; [|done..].
  subst id_x id_y. unfold dr, dc in Hr.
  destruct (window_centred _ _ Hxc) as [Ex1 Ex2].
  destruct (window_centred _ _ Hyc) as [Ey1 Ey2].
  rewrite Ex1, Ex2, Ey1, Ey2, !Nat2Z.id in Hr.
  rewrite (assign_slice_all n m) in Hr; [|by apply rect_full_like|done].
  by injection Hr.
Qed.

(** The recentred tip: its shape, where its entries come from, and its
    minimum. *)
Lemma translate_tip_mean_cells n m P P' :
  rect n m P → (0 < n)%nat → (0 < m)%nat →
  translate_tip_mean P = Ok P' →
  rect n m P' ∧
  ∃ p_min,
    tmin P = Ok p_min ∧
    Forall (λ x, is_nan x = false) (entries P) ∧
    (∀ v, v ∈ entries P' → v ∈ entries P) ∧
    (∀ i j v, cell P' i j = Some v →
       (v = p_min ∨ ∃ k l, cell P k l = Some v) ∧ (p_min <=? v) = true) ∧
    (∃ p_min', tmin P' = Ok p_min' ∧ (p_min' =? p_min) = true).
Proof.
  intros HP Hn Hm Ht.
  destruct (translate_tip_mean_inv n m P P' HP Hn Ht)
    as (p & id_x & id_y & Hmin & Hcom & Hr).
  pose proof (centre_of_mass_not_nan n m P p _ HP Hn Hm Hcom) as Hp.
  pose proof (tmin_not_nan P p Hmin Hp) as Hall.
  pose proof (tmin_elem P p Hmin) as Hpin.
  assert (rect n m P') as HP'.
  { eapply assign_slice_rect; [done|]. by apply rect_full_like. }
  assert (∀ i j v, cell P' i j = Some v → v = p ∨ v ∈ entries P) as Hcases.
  { intros i j v Hv.
    destruct (assign_slice_cases _ _ _ _ _ _ _ i j v Hr Hv) as [Hb|Hs];
      [|by right].
    rewrite cell_full_like in Hb. left.
    destruct (cell P i j); simpl in Hb; congruence. }
  assert (∀ v, v ∈ entries P' → v ∈ entries P) as Hsub.
  { intros v (i & j & Hv)%elem_of_entries.
    by destruct (Hcases i j v Hv) as [->|]. }
  split; [done|]. exists p. split; [done|]. split; [done|]. split; [done|].
  split.
  - intros i j v Hv. split.
    + destruct (Hcases i j v Hv) as [->|Hin]; [by left|].
      right. by apply elem_of_entries.
    + eapply tmin_lower; [done..|]. apply Hsub, elem_of_entries. eauto.
  - destruct (tmin_is_Ok n m P' HP' Hn Hm) as [p' Hmin'].
    exists p'. split; [done|].
    pose proof (tmin_elem P' p' Hmin') as Hp'in.
    assert (is_nan p' = false) as Hp'.
    { apply Hsub in Hp'in. by eapply list.Forall_forall in Hall. }
    apply leb_antisym.
    + destruct (translate_background n m P p P' id_x id_y HP Hn Hm Hr)
        as [->|(i & j & Hbg)].
      * rewrite Hmin in Hmin'. injection Hmin' as ->. by apply leb_refl.
      * eapply tmin_lower; [done..|]. apply elem_of_entries. eauto.
    + eapply tmin_lower; [done..|]. by apply Hsub.
Qed.
End TranslateCells.

Section OneByOne.
Context {A : Type} `{Scalar A}.
Implicit Types S : tensor A.

Lemma roll1_0 {X} (l : list X) : roll1 0 l = l.
Proof.
  unfold roll1, rotate. simpl. rewrite Zmod_0_l. simpl.
  rewrite Nat.Div0.mod_0_l. simpl. apply app_nil_r.
Qed.

Lemma roll_0 S : roll S (0, 0) = S.
Proof.
  unfold roll. simpl. rewrite roll1_0.
  induction S as [|row S IH]; [done|]. csimpl. by rewrite roll1_0, IH.
Qed.

Lemma zip_with_fmap_diag {X Y W V} (f : Y → W → V) (g : X → Y) (h : X → W)
    (l : list X) :
  zip_with f (g <$> l) (h <$> l) = (λ x, f (g x) (h x)) <$> l.
Proof. induction l as [|x l IH]; [done|]. csimpl. by rewrite IH. Qed.

Lemma idilation_1x1 S z :
  idilation S [[z]] =
  Ok ((λ row : list A, (λ a, maximum neg_inf (s_add a z)) <$> row) <$> S).
Proof.
  unfold idilation. simpl. rewrite roll_0. f_equal.
  unfold tmaximum, full_like, add_scalar.
  rewrite zip_with_fmap_diag. apply list_fmap_ext. intros _ row _.
  by rewrite zip_with_fmap_diag.
Qed.

Lemma ierosion_1x1 S z :
  ierosion S [[z]] =
  Ok ((λ row : list A, (λ a, minimum pos_inf (s_sub a z)) <$> row) <$> S).
Proof.
  unfold ierosion. simpl. rewrite roll_0. f_equal.
  unfold tminimum, full_like, sub_scalar.
  rewrite zip_with_fmap_diag. apply list_fmap_ext. intros _ row _.
  by rewrite zip_with_fmap_diag.
Qed.
End OneByOne.

Section OneByOneFloat.
#[local] Open Scope float_scope.
Implicit Types S : tensor float.

Lemma idilation_1x1_float S z : idilation S [[z]] = Ok (add_scalar S z).
Proof.
  rewrite idilation_1x1. f_equal. unfold add_scalar.
  apply list_fmap_ext. intros _ row _. apply list_fmap_ext. intros _ a _.
  apply fmaximum_neg_inf.
Qed.

Lemma ierosion_1x1_float S z : ierosion S [[z]] = Ok (sub_scalar S z).
Proof.
  rewrite ierosion_1x1. f_equal. unfold sub_scalar.
  apply list_fmap_ext. intros _ row _. apply list_fmap_ext. intros _ a _.
  apply fminimum_pos_inf.
Qed.
End OneByOneFloat.

Section ZeroTip.
#[local] Open Scope float_scope.
Implicit Types F : tensor float.

Lemma Forall2_fmap_self {X} (Q : X → X → Prop) (f : X → X) (l : list X) :
  Forall (λ x, Q (f x) x) l → Forall2 Q (f <$> l) l.
Proof. induction 1; csimpl; by constructor. Qed.

Lemma numeq_fmap F (f : float → float) :
  Forall (Forall (λ x, (f x =? x) = true)) F →
  numeq ((λ row : list float, f <$> row) <$> F) F.
Proof.
  intros HF. unfold numeq.
  apply (Forall2_fmap_self _ (λ row : list float, f <$> row)).
  eapply List.Forall_impl; [|exact HF]. intros row Hrow.
  by apply Forall2_fmap_self.
Qed.

(** C5, amended.  For every field [F] without NaN and the tip that has
    one cell, of value zero, [idilation F T] and [ierosion F T] equal
    [F], entry by entry as numbers. *)
Theorem zero_tip_identity F z :
  no_nan F → (z =? 0) = true →
  ∃ d e, idilation F [[z]] = Ok d ∧ ierosion F [[z]] = Ok e ∧
         numeq d F ∧ numeq e F.
Proof.
  intros HF Hz. exists (add_scalar F z), (sub_scalar F z).
  split; [apply idilation_1x1_float|]. split; [apply ierosion_1x1_float|].
  split; apply numeq_fmap; (eapply List.Forall_impl; [|exact HF]);
    intros row Hrow; (eapply List.Forall_impl; [|exact Hrow]);
    intros a Ha; simpl; [by apply add_zero_r|by apply sub_zero_r].
Qed.
End ZeroTip.

Section OneByOneLoss.
#[local] Open Scope float_scope.
Implicit Types image : tensor float.

Lemma opening_1x1_float image z :
  opening image [[z]] = Ok (add_scalar (sub_scalar image z) z).
Proof.
  unfold opening. rewrite ierosion_1x1_float. simpl.
  apply idilation_1x1_float.
Qed.

Lemma zip_with_fmap_l_diag {X Y V} (f : Y → X → V) (g : X → Y) (l : list X) :
  zip_with f (g <$> l) l = (λ x, f (g x) x) <$> l.
Proof. induction l as [|x l IH]; [done|]. csimpl. by rewrite IH. Qed.

Lemma residual_tensor image z :
  tsub (add_scalar (sub_scalar image z) z) image =
  (λ row : list float, (λ a, (a - z) + z - a) <$> row) <$> image.
Proof.
  unfold tsub, add_scalar, sub_scalar. simpl.
  rewrite <- list_fmap_compose, zip_with_fmap_l_diag.
  apply list_fmap_ext. intros _ row _. simpl.
  by rewrite <- list_fmap_compose, zip_with_fmap_l_diag.
Qed.

Lemma zero_residual_1x1 image z :
  all_finite image → (z =? 0) = true → zero_residual image [[z]].
Proof.
  intros Hfin Hz recon. rewrite opening_1x1_float. intros [= <-].
  unfold add_scalar, sub_scalar. simpl. rewrite <- list_fmap_compose.
  apply (Forall2_fmap_self _ _ image).
  eapply List.Forall_impl; [|exact Hfin]. intros row Hrow. simpl.
  rewrite <- list_fmap_compose. apply (Forall2_fmap_self _ _ row).
  eapply List.Forall_impl; [|exact Hrow]. intros a Ha. simpl.
  by apply residual_zero.
Qed.

Lemma foldl_add_zeros {X} (l : list X) :
  foldl PrimFloat.add 0 ((λ _, 0) <$> l) = 0.
Proof. induction l as [|x l IH]; [done|]. csimpl. exact IH. Qed.

Lemma mse_zero_1x1 h w image z :
  rect h w image → (0 < h * w)%nat → (Z.of_nat (h * w) < 2 ^ 53)%Z →
  all_finite image → (z =? 0) = true →
  mse (add_scalar (sub_scalar image z) z) image = 0.
Proof.
  intros Hrect Hpos Hbound Hfin Hz. unfold mse.
  rewrite residual_tensor.
  set (d := (λ row : list float, _ <$> row) <$> image).
  assert (tmul d d = full_like image 0) as ->.
  { unfold tmul, d, full_like.
    rewrite zip_with_fmap_diag. apply Forall_fmap_ext_1.
    eapply List.Forall_impl; [|exact Hfin]. intros row Hrow. simpl.
    rewrite zip_with_fmap_diag. apply Forall_fmap_ext_1.
    eapply List.Forall_impl; [|exact Hrow]. intros a Ha. simpl.
    by apply square_zero, residual_zero. }
  unfold tmean, tsum, full_like. rewrite entries_fmap, foldl_add_zeros.
  rewrite length_fmap, (entries_length h w image Hrect).
  destruct (float_of_nat_finite (h * w) Hpos Hbound) as (m & e & Hme).
  by eapply zero_div_finite.
Qed.

Lemma translate_zero_1x1 z :
  (z =? 0) = true → translate_tip_mean [[z]] = Ok [[z]].
Proof. by intros [-> | ->]%zero_cases. Qed.

Lemma clamp_zero_1x1 z : (z =? 0) = true → clamp_max [[z]] 0 = [[z]].
Proof. by intros [-> | ->]%zero_cases. Qed.

Lemma zero_1x1 (t : tensor float) :
  rect 1 1 t → all_zero t → ∃ z, t = [[z]] ∧ (z =? 0) = true.
Proof.
  intros [Hn Hr] Hz. destruct t as [|row [|]]; try done.
  apply Forall_inv in Hr, Hz. destruct row as [|z [|]]; try done.
  apply Forall_inv in Hz. eauto.
Qed.
End OneByOneLoss.

Section ForInvariant.
Context {A X : Type}.

Lemma for_invariant (Inv : A → Prop) (l : list X) acc
    (body : X → A → result A) r :
  (∀ x a a', x ∈ l → Inv a → body x a = Ok a' → Inv a') →
  Inv acc → for_ l acc body = Ok r → Inv r.
Proof.
  revert acc. induction l as [|x l IH]; intros acc Hbody Hacc; simpl.
  - by intros [= <-].
  - destruct (body x acc) as [acc'|] eqn:E; [|done]. simpl.
    apply IH; [|by eapply (Hbody x); [left|..]].
    intros y a a' Hy. apply Hbody. by right.
Qed.

Lemma for_total (Inv : A → Prop) (l : list X) acc
    (body : X → A → result A) :
  (∀ x a, x ∈ l → Inv a → ∃ a', body x a = Ok a' ∧ Inv a') →
  Inv acc → ∃ r, for_ l acc body = Ok r ∧ Inv r.
Proof.
  revert acc. induction l as [|x l IH]; intros acc Hbody Hacc; simpl.
  - eauto.
  - destruct (Hbody x acc) as (acc' & -> & Hacc'); [by left|done|].
    simpl. apply IH; [|done]. intros y a Hy. apply Hbody. by right.
Qed.
End ForInvariant.

Section OneByOneRun.
#[local] Open Scope float_scope.
Context {opt_state : Type}.
Variable AdamW : tensor float → float → float → opt_state.
Variable backward : tensor float → tensor float → tensor float.
Variable step :
  opt_state → tensor float → tensor float → opt_state * tensor float.

(** What is assumed of PyTorch: the gradient of a mean squared
    residual that is zero everywhere is zero, and an optimizer that
    has only seen zero gradients ([quiescent]: its moment estimates
    are zero) leaves a zero tip at zero. *)
Variable quiescent : opt_state → Prop.
Hypothesis AdamW_quiescent : ∀ tip lr wd, quiescent (AdamW tip lr wd).
Hypothesis backward_zero : ∀ n m image tip,
  rect n m tip → zero_residual image tip →
  rect n m (backward image tip) ∧ all_zero (backward image tip).
Hypothesis step_zero : ∀ n m opt tip grad,
  quiescent opt → rect n m tip → all_zero tip →
  rect n m grad → all_zero grad →
  quiescent (step opt tip grad).1 ∧
  rect n m (step opt tip grad).2 ∧ all_zero (step opt tip grad).2.

Lemma frame_step_still image s :
  height_field image → still quiescent s →
  ∃ s', frame_step backward step image s = Ok s' ∧ still quiescent s'.
Proof.
  intros (h & w & Hrect & Hpos & Hbound & Hfin).
  destruct s as [[opt tip] loss_tmp]. unfold still. simpl.
  intros (Hq & (z & -> & Hz) & ->). unfold frame_step.
  rewrite opening_1x1_float. cbn [rbind].
  assert (rect 1 1 [[z]]) as Hr1 by (split; [done|by repeat constructor]).
  assert (all_zero [[z]]) as Hz1 by (by repeat constructor).
  destruct (backward_zero 1 1 image [[z]] Hr1) as [Hgr Hgz];
    [by apply zero_residual_1x1|].
  destruct (step_zero 1 1 opt [[z]] _ Hq Hr1 Hz1 Hgr Hgz)
    as (Hq' & Hr' & Hz').
  destruct (step opt [[z]] (backward image [[z]])) as [opt' tip'].
  cbn [fst snd] in *.
  destruct (zero_1x1 tip' Hr' Hz') as (z' & -> & Hz'').
  rewrite (clamp_zero_1x1 z' Hz''), (translate_zero_1x1 z' Hz'').
  cbn [rbind]. rewrite opening_1x1_float. cbn [rbind].
  rewrite (mse_zero_1x1 h w image z' Hrect Hpos Hbound Hfin Hz'').
  eexists. split; [done|]. split; [done|]. split; [by eexists|done].
Qed.

(** C9.  For a stack of real-valued frames and [tip_size = (1, 1)] the
    run returns, and every entry of its loss trace is zero: the first
    one too.  (The tip stays at zero: the opening by it returns the
    image, the residual and with it the gradient vanish.) *)
Theorem unit_tip_loss_zero images nepoch lr weight_decay :
  Forall height_field images →
  ∃ tip, differentiable_btr AdamW backward step images (1, 1)%nat
           nepoch lr weight_decay
         = Ok (tip, replicate (Z.to_nat nepoch) 0).
Proof.
  intros Himgs. unfold differentiable_btr. cbv zeta. cbn [fst snd].
  set (Inv := λ (k : nat) (s : opt_state * tensor float * list float),
         quiescent s.1.1 ∧ (∃ z, s.1.2 = [[z]] ∧ (z =? 0) = true) ∧
         s.2 = replicate k 0).
  assert (∀ (l : list Z) k s, Inv k s →
    ∃ s', for_ l s (λ epoch s,
          let '(opt, tip, loss_train) := s in
          s' ←ᵣ for_ images (opt, tip, 0) (frame_step backward step);
          let '(opt, tip, loss_tmp) := s' in
          Ok (opt, tip, loss_train ++ [loss_tmp])) = Ok s' ∧
        Inv (k + length l)%nat s') as Hloop.
  { induction l as [|epoch l IH]; intros k s Hs.
    - exists s. rewrite Nat.add_0_r. by split.
    - destruct s as [[opt tip] loss_train].
      destruct Hs as (Hq & Htip & Hloss). simpl in Hq, Htip, Hloss.
      destruct (for_total (still quiescent) images (opt, tip, 0)
                  (frame_step backward step))
        as ([[opt' tip'] loss_tmp] & Hfor & Hq' & Htip' & Hl').
      { intros image s Hin Hs. apply frame_step_still; [|done].
        by eapply list.Forall_forall in Himgs. }
      { by split. }
      simpl in Hq', Htip', Hl'. cbn [for_]. rewrite Hfor. simpl.
      destruct (IH (S k) (opt', tip', loss_train ++ [loss_tmp]))
        as (s' & Hs' & Hinv).
      { split; [done|]. split; [done|]. cbn [fst snd]. subst.
        symmetry. apply replicate_S_end. }
      exists s'. split; [done|].
      cbn [length]. rewrite Nat.add_succ_r. exact Hinv. }
  destruct (Hloop (py_range 0 nepoch) 0%nat
              (AdamW (zeros 1 1) lr weight_decay, zeros 1 1, []))
    as ([[opt tip] losses] & Hfor & Hq & Htip & Hlosses).
  { split; [apply AdamW_quiescent|]. split; [|done]. by exists 0. }
  rewrite Hfor. simpl in *. exists tip. subst losses. do 3 f_equal.
  unfold py_range. rewrite length_seqZ. f_equal. lia.
Qed.
End OneByOneRun.

Section Projection.
#[local] Open Scope float_scope.
Implicit Types t : tensor float.

Lemma Forall_entries {X} (Q : X → Prop) (t : tensor X) :
  Forall (Forall Q) t ↔ ∀ v, v ∈ entries t → Q v.
Proof.
  unfold entries. rewrite list.Forall_forall. split.
  - intros Ht v (row & Hv & Hrow)%list_elem_of_join.
    specialize (Ht row Hrow). by eapply list.Forall_forall in Ht.
  - intros Ht row Hrow. apply list.Forall_forall. intros v Hv.
    apply Ht, list_elem_of_join. eauto.
Qed.

Lemma clamp_le_0 x :
  is_nan x = false → ((if 0 <? x then 0 else x) <=? 0) = true.
Proof.
  intros Hx. destruct (0 <? x) eqn:E; [done|].
  by apply leb_total.
Qed.

Lemma clamp_max_nonpositive t :
  no_nan (clamp_max t 0) → nonpositive (clamp_max t 0).
Proof.
  unfold no_nan, nonpositive. rewrite !Forall_entries.
  unfold clamp_max. rewrite entries_fmap.
  intros Hnan v Hv. specialize (Hnan v Hv).
  apply list_elem_of_fmap in Hv as (x & -> & Hx). simpl in *.
  destruct (is_nan x) eqn:E; [congruence|]. by apply clamp_le_0.
Qed.

Lemma zeros_nonpositive n m : nonpositive (zeros n m).
Proof.
  unfold nonpositive, zeros. apply Forall_replicate, Forall_replicate. done.
Qed.
End Projection.

Section Run.
#[local] Open Scope float_scope.
Context {opt_state : Type}.
Variable AdamW : tensor float → float → float → opt_state.
Variable backward : tensor float → tensor float → tensor float.
Variable step :
  opt_state → tensor float → tensor float → opt_state * tensor float.

(** [optimizer.step()] updates the tip in place: it keeps its shape. *)
Hypothesis step_rect : ∀ n m opt tip grad,
  rect n m tip → rect n m (step opt tip grad).2.

Lemma frame_step_projected n m image opt tip loss s' :
  (0 < n)%nat → (0 < m)%nat → rect n m tip →
  frame_step backward step image (opt, tip, loss) = Ok s' →
  projected n m s'.1.2.
Proof.
  intros Hn Hm Htip. unfold frame_step.
  destruct (opening image tip) as [recon|]; [|done]. cbn [rbind].
  pose proof (step_rect n m opt tip (backward image tip) Htip) as Hr.
  destruct (step opt tip (backward image tip)) as [opt' tip1].
  cbn [fst snd] in Hr.
  set (Q := clamp_max tip1 0).
  assert (rect n m Q) as HQ by (by apply rect_fmap_cells).
  destruct (translate_tip_mean Q) as [tip2|] eqn:Ht; [|done]. cbn [rbind].
  destruct (opening image tip2) as [recon2|]; [|done]. cbn [rbind].
  intros [= <-]. cbn [fst snd].
  destruct (translate_tip_mean_cells n m Q tip2 HQ Hn Hm Ht)
    as (Hr2 & p & Hmin & Hnan & Hsub & _).
  assert (nonpositive Q) as HQneg.
  { apply clamp_max_nonpositive. by apply Forall_entries, list.Forall_forall. }
  split; [done|]. split; [|right; by exists Q].
  apply Forall_entries. intros v Hv.
  by apply (proj1 (Forall_entries _ Q) HQneg), Hsub.
Qed.

(** C7, amended.  Whatever the optimizer does, the tip a run returns
    has the requested shape and no positive entry, and it is the
    initial zero tip or the output of [translate_tip_mean] for a clamped
    tip.  (It need not be a fixed point of [translate_tip_mean].) *)
Theorem returned_tip_projected images n m nepoch lr weight_decay tip losses :
  (0 < n)%nat → (0 < m)%nat →
  differentiable_btr AdamW backward step images (n, m) nepoch lr weight_decay
    = Ok (tip, losses) →
  projected n m tip.
Proof.
  intros Hn Hm. unfold differentiable_btr. cbv zeta. cbn [fst snd].
  destruct (for_ _ _ _) as [[[opt tip'] losses']|] eqn:Hfor; [|done].
  cbn [rbind]. intros [= <- <-].
  apply (for_invariant
           (λ s : opt_state * tensor float * list float, projected n m s.1.2))
    in Hfor; [done| |].
  - intros epoch [[o t] lt] s' _ Ht. cbn [fst snd] in Ht.
    destruct (for_ images (o, t, 0) (frame_step backward step))
      as [[[o' t'] l']|] eqn:Hframes; [|done].
    cbn [rbind]. intros [= <-]. cbn [fst snd].
    apply (for_invariant
             (λ s : opt_state * tensor float * float, projected n m s.1.2))
      in Hframes; [done| |done].
    intros image [[o1 t1] l1] s1 _ [Hrect _]. cbn [fst snd] in Hrect.
    by apply frame_step_projected.
  - cbn [fst snd]. split; [apply rect_zeros|].
    split; [apply zeros_nonpositive|by left].
Qed.
End Run.

Section Grid.
#[local] Open Scope float_scope.
Variables xs ys : list float.

Lemma grid_zip_with {U V W} (f : U → V → W) g1 g2 :
  zip_with (zip_with f) (grid xs ys g1) (grid xs ys g2) =
  grid xs ys (λ x y, f (g1 x y) (g2 x y)).
Proof.
  unfold grid. rewrite zip_with_fmap_diag. apply list_fmap_ext.
  intros _ y _. by rewrite zip_with_fmap_diag.
Qed.

Lemma grid_foldl {X V} (f : V → V → V) (G : X → float → float → V)
    (l : list X) acc :
  foldl (zip_with (zip_with f)) (grid xs ys acc) ((λ a, grid xs ys (G a)) <$> l) =
  grid xs ys (λ x y, foldl (λ v a, f v (G a x y)) (acc x y) l).
Proof.
  revert acc. induction l as [|a l IH]; intros acc; [done|].
  csimpl. by rewrite grid_zip_with, IH.
Qed.

Lemma grid_const {V} (c : V) :
  replicate (length ys) (replicate (length xs) c) = grid xs ys (λ _ _, c).
Proof.
  unfold grid. symmetry. apply const_fmap. intros _ y _.
  by apply const_fmap.
Qed.

Lemma grid_ext {V} (g1 g2 : float → float → V) :
  (∀ x y, g1 x y = g2 x y) → grid xs ys g1 = grid xs ys g2.
Proof.
  intros Hg. unfold grid. apply list_fmap_ext. intros _ y _.
  apply list_fmap_ext. intros _ x _. apply Hg.
Qed.
End Grid.

Section RenderPoint.
#[local] Open Scope float_scope.
Implicit Types atoms : list atom.

Lemma fmaximum_neg_inf_r v : fmaximum v neg_infinity = v.
Proof.
  unfold fmaximum. destruct (is_nan v) eqn:Hv; [done|].
  change (is_nan neg_infinity) with false. cbv iota.
  rewrite FloatAxioms.ltb_spec. unfold SFltb.
  change (Prim2SF neg_infinity) with (S754_infinity true).
  apply is_nan_false in Hv.
  destruct (Prim2SF v) as [s|s| |s m e]; try done; by destruct s.
Qed.

Lemma foldl_masked atoms x y acc :
  foldl (λ v a, fmaximum v (masked x y a)) acc atoms =
  foldl fmaximum acc
    ((λ a, top a x y) <$> filter (λ a, within a x y = true) atoms).
Proof.
  revert acc. induction atoms as [|a atoms IH]; intros acc; [done|].
  simpl. rewrite IH. unfold masked.
  destruct (within a x y) eqn:E.
  - by rewrite filter_cons_True.
  - rewrite filter_cons_False by (by rewrite E).
    by rewrite fmaximum_neg_inf_r.
Qed.

Lemma foldl_orb_within atoms x y b :
  foldl (λ v a, v || within a x y) b atoms =
  b || bool_decide (filter (λ a, within a x y = true) atoms ≠ []).
Proof.
  revert b. induction atoms as [|a atoms IH]; intros b; simpl.
  - by rewrite orb_false_r.
  - rewrite IH. destruct (within a x y) eqn:E.
    + rewrite filter_cons_True by done. rewrite orb_true_r. simpl.
      by rewrite orb_true_r.
    + rewrite filter_cons_False by (by rewrite E). by rewrite orb_false_r.
Qed.

Lemma render_point_masked a0 atoms x y :
  (if foldl (λ v a, v || within a x y) false (a0 :: atoms)
   then foldl (λ v a, fmaximum v (masked x y a)) (masked x y a0) atoms
   else 0) = render_point (a0 :: atoms) x y.
Proof.
  rewrite foldl_orb_within, foldl_masked. unfold render_point, masked.
  simpl. destruct (within a0 x y) eqn:E.
  - rewrite filter_cons_True by done. by rewrite bool_decide_eq_true_2.
  - rewrite filter_cons_False by (by rewrite E).
    destruct (filter _ atoms) as [|b l]; [done|].
    rewrite bool_decide_eq_true_2 by done. csimpl.
    by rewrite fmaximum_neg_inf.
Qed.
End RenderPoint.

Section Surfing.
#[local] Open Scope float_scope.
Variable arange : float → float → float → result (list float).

Lemma surfing_render atoms cfg xs ys :
  atoms ≠ [] →
  stage arange (min_x cfg) (max_x cfg) (resolution_x cfg) = Ok xs →
  stage arange (min_y cfg) (max_y cfg) (resolution_y cfg) = Ok ys →
  surfing arange atoms cfg = Ok (render atoms xs ys).
Proof.
  intros Hne Hxs Hys. unfold surfing. rewrite Hxs, Hys. cbn [rbind].
  destruct atoms as [|a0 atoms]; [done|].
  rewrite fmap_cons. cbn [max_dim0 rbind]. f_equal. unfold render. f_equal.
  unfold any_dim0, tmaximum. rewrite (grid_const xs ys).
  assert (∀ a, (λ row : list float,
                 (λ v, if v <? square (radius a)
                       then pos_z a + sqrt (square (radius a) - v)
                       else neg_infinity) <$> row) <$>
               ((λ dy2_h, (λ dx2_w, dx2_w + dy2_h) <$>
                   ((λ x, square (pos_x a - x)) <$> xs)) <$>
                   ((λ y, square (pos_y a - y)) <$> ys)) =
               grid xs ys (λ x y, masked x y a)) as Htemp.
  { intros a. unfold grid. rewrite <- !list_fmap_compose.
    apply list_fmap_ext. intros _ y _. simpl.
    rewrite <- !list_fmap_compose. by apply list_fmap_ext. }
  assert (∀ a, (λ row : list float,
                 (λ v, v <? square (radius a)) <$> row) <$>
               ((λ dy2_h, (λ dx2_w, dx2_w + dy2_h) <$>
                   ((λ x, square (pos_x a - x)) <$> xs)) <$>
                   ((λ y, square (pos_y a - y)) <$> ys)) =
               grid xs ys (λ x y, within a x y)) as Hindex.
  { intros a. unfold grid. rewrite <- !list_fmap_compose.
    apply list_fmap_ext. intros _ y _. simpl.
    rewrite <- !list_fmap_compose. by apply list_fmap_ext. }
  rewrite Htemp.
  rewrite (list_fmap_ext _ (λ a, grid xs ys (λ x y, masked x y a)) atoms)
    by (intros; apply Htemp).
  rewrite (list_fmap_ext _ (λ a, grid xs ys (λ x y, within a x y)) (a0 :: atoms))
    by (intros; apply Hindex).
  change (λ r t : list (list float), zip_with (zip_with maximum) r t)
    with (zip_with (zip_with fmaximum)).
  rewrite (grid_foldl xs ys fmaximum (λ a x y, masked x y a) atoms
             (λ x y, masked x y a0)).
  rewrite (grid_foldl xs ys orb (λ a x y, within a x y) (a0 :: atoms)
             (λ _ _, false)).
  unfold where_. rewrite grid_zip_with. unfold grid.
  apply list_fmap_ext. intros _ y _. apply list_fmap_ext. intros _ x _.
  apply (render_point_masked a0 atoms x y).
Qed.

Lemma surfing_no_atoms cfg xs ys :
  stage arange (min_x cfg) (max_x cfg) (resolution_x cfg) = Ok xs →
  stage arange (min_y cfg) (max_y cfg) (resolution_y cfg) = Ok ys →
  surfing arange [] cfg = Raise IndexError.
Proof. intros Hxs Hys. unfold surfing. by rewrite Hxs, Hys. Qed.
End Surfing.

Section ForRange.
Context {A : Type}.

Lemma for_range (Inv : nat → A → Prop) (n : nat) acc
    (body : Z → A → result A) :
  Inv 0%nat acc →
  (∀ k a, (k < n)%nat → Inv k a →
     ∃ a', body (Z.of_nat k) a = Ok a' ∧ Inv (S k) a') →
  ∃ r, for_ (py_range 0 (Z.of_nat n)) acc body = Ok r ∧ Inv n r.
Proof.
  intros Hacc. unfold py_range. rewrite Z.sub_0_r.
  induction n as [|n IH]; intros Hbody.
  - exists acc. by split.
  - destruct IH as (r & Hr & Hinv).
    { intros k a Hk. apply Hbody. lia. }
    destruct (Hbody n r) as (r' & Hr' & Hinv'); [lia|done|].
    exists r'. rewrite seqZ_S, for_app, Hr. cbn [rbind for_].
    rewrite Z.add_0_l, Hr'. by split.
Qed.
End ForRange.

Section SetItem.
#[local] Open Scope float_scope.
Implicit Types z : tensor float.

Lemma item1_lookup (l : list float) (k : nat) v :
  l !! k = Some v → item1 l (Z.of_nat k) = Ok v.
Proof.
  intros Hk. pose proof (lookup_lt_Some _ _ _ Hk) as Hlt.
  unfold item1. rewrite py_index_in_range by lia. cbn [rbind].
  by rewrite Nat2Z.id, Hk.
Qed.

Lemma set_item_cell h w z (j c : nat) v :
  rect h w z → (j < h)%nat → (c < w)%nat →
  ∃ z', set_item z (- Z.of_nat j - 1) (Z.of_nat c) v = Ok z' ∧
        rect h w z' ∧
        ∀ r c', cell z' r c' =
                if bool_decide (r = (h - 1 - j)%nat ∧ c' = c)
                then Some v else cell z r c'.
Proof.
  intros Hz Hj Hc. unfold set_item, py_index.
  pose proof Hz as [Hn Hrows]. rewrite Hn.
  rewrite bool_decide_eq_false_2 by lia.
  rewrite bool_decide_eq_true_2 by lia. cbn [rbind].
  replace (Z.to_nat (- Z.of_nat j - 1 + Z.of_nat h)) with (h - 1 - j)%nat
    by lia.
  destruct (lookup_lt_is_Some_2 z (h - 1 - j)) as [row Hrow]; [lia|].
  rewrite Hrow.
  assert (length row = w) as Hw by (by eapply (rect_row h w z)).
  rewrite Hw, bool_decide_eq_true_2 by lia. cbn [rbind].
  rewrite Nat2Z.id. eexists. split; [done|]. split.
  - split; [by rewrite length_insert|].
    apply list.Forall_forall. intros row' Hin.
    apply list_elem_of_lookup in Hin as [i Hi].
    destruct (decide (i = (h - 1 - j)%nat)) as [->|Hne].
    + rewrite list_lookup_insert_eq in Hi by lia. injection Hi as <-.
      by rewrite length_insert.
    + rewrite list_lookup_insert_ne in Hi by done.
      by eapply (rect_row h w z).
  - intros r c'. unfold cell.
    destruct (decide (r = (h - 1 - j)%nat)) as [->|Hne].
    + rewrite list_lookup_insert_eq by lia. rewrite Hrow. simpl.
      destruct (decide (c' = c)) as [->|Hne].
      * rewrite bool_decide_eq_true_2 by done.
        by rewrite list_lookup_insert_eq by lia.
      * rewrite bool_decide_eq_false_2 by (intros [_ ?]; done).
        by rewrite list_lookup_insert_ne.
    + rewrite bool_decide_eq_false_2 by (intros [? _]; done).
      by rewrite list_lookup_insert_ne.
Qed.
End SetItem.

Section SurfingOld.
#[local] Open Scope float_scope.
Variable arange : float → float → float → result (list float).

Lemma rect_render atoms xs ys :
  rect (length ys) (length xs) (render atoms xs ys).
Proof.
  unfold render. split; [by rewrite length_reverse, length_fmap|].
  apply list.Forall_forall. intros row Hin.
  apply elem_of_reverse, list_elem_of_fmap in Hin as (y & -> & _).
  by rewrite length_fmap.
Qed.

Lemma cell_render atoms xs ys (j c : nat) x y :
  ys !! j = Some y → xs !! c = Some x →
  cell (render atoms xs ys) (length ys - 1 - j) c =
  Some (render_point atoms x y).
Proof.
  intros Hy Hx. pose proof (lookup_lt_Some _ _ _ Hy) as Hj.
  unfold cell, render.
  rewrite reverse_lookup by (rewrite length_fmap; lia).
  rewrite length_fmap, list_lookup_fmap.
  replace (length ys - S (length ys - 1 - j))%nat with j by lia.
  rewrite Hy. simpl. by rewrite list_lookup_fmap, Hx.
Qed.

Lemma existsb_filter atoms x y :
  existsb (λ a, within a x y) atoms =
  bool_decide (filter (λ a, within a x y = true) atoms ≠ []).
Proof.
  induction atoms as [|a atoms IH]; [done|]. simpl.
  destruct (within a x y) eqn:E.
  - by rewrite filter_cons_True.
  - by rewrite filter_cons_False by (by rewrite E).
Qed.

Lemma surfing_old_render atoms cfg xs ys :
  stage arange (min_x cfg) (max_x cfg) (resolution_x cfg) = Ok xs →
  stage arange (min_y cfg) (max_y cfg) (resolution_y cfg) = Ok ys →
  surfing_old arange atoms cfg = Ok (render atoms xs ys).
Proof.
  intros Hxs Hys. unfold surfing_old. rewrite Hxs, Hys. cbn [rbind].
  match goal with |- for_ _ _ ?body = _ =>
    destruct (for_range (λ k z, painted atoms xs ys k 0 z) (length xs)
                (zeros (length ys) (length xs)) body)
      as (z & -> & Hz & Hcells) end.
  - split; [apply rect_zeros|]. intros r c Hr Hc.
    rewrite bool_decide_eq_false_2 by lia.
    unfold cell, zeros. rewrite lookup_replicate_2 by done. simpl.
    by rewrite lookup_replicate_2.
  - intros k z Hk Hz.
    destruct (lookup_lt_is_Some_2 xs k Hk) as [x Hx].
    rewrite (item1_lookup xs k x Hx). cbn [rbind].
    match goal with |- ∃ a', for_ _ _ ?body = _ ∧ _ =>
      destruct (for_range (λ l z, painted atoms xs ys k l z) (length ys)
                  z body) as (z' & -> & Hz' & Hcells') end.
    + done.
    + intros l z1 Hl [Hz1 Hcells1].
      destruct (lookup_lt_is_Some_2 ys l Hl) as [y Hy].
      rewrite (item1_lookup ys l y Hy). cbn [rbind].
      change (existsb _ atoms) with (existsb (λ a, within a x y) atoms).
      rewrite existsb_filter.
      pose proof (cell_render atoms xs ys l k x y Hy Hx) as Hrender.
      unfold render_point in Hrender.
      change (filter _ atoms)
        with (filter (λ a, within a x y = true) atoms) in *.
      change (λ a, pos_z a + sqrt (square (radius a) -
                     (square (pos_x a - x) + square (pos_y a - y))))
        with (λ a, top a x y).
      destruct (filter (λ a, within a x y = true) atoms) as [|b hit] eqn:E.
      * rewrite bool_decide_eq_false_2 by (intros ?; done).
        exists z1. split; [done|]. split; [done|]. intros r c Hr Hc.
        rewrite (Hcells1 r c Hr Hc).
        destruct (decide (c = k ∧ length ys - 1 - r = l)%nat) as [[-> Hrl]|Hne].
        -- replace r with (length ys - 1 - l)%nat by lia.
           rewrite Hrender.
           rewrite bool_decide_eq_false_2 by lia.
           by rewrite bool_decide_eq_true_2 by lia.
        -- destruct (decide (c < k ∨ c = k ∧ length ys - 1 - r < l)%nat).
           ++ by rewrite !bool_decide_eq_true_2 by lia.
           ++ by rewrite !bool_decide_eq_false_2 by lia.
      * rewrite bool_decide_eq_true_2 by done. csimpl.
        destruct (set_item_cell (length ys) (length xs) z1 l k
                    (foldl fmaximum (top b x y) ((λ a, top a x y) <$> hit))
                    Hz1 Hl Hk) as (z2 & -> & Hz2 & Hcells2).
        exists z2. split; [done|]. split; [done|]. intros r c Hr Hc.
        rewrite Hcells2.
        destruct (decide (r = (length ys - 1 - l)%nat ∧ c = k)) as [[-> ->]|Hne].
        -- rewrite bool_decide_eq_true_2 by done.
           rewrite bool_decide_eq_true_2 by lia. by rewrite Hrender.
        -- rewrite bool_decide_eq_false_2 by done.
           rewrite (Hcells1 r c Hr Hc).
           destruct (decide (c < k ∨ c = k ∧ length ys - 1 - r < l)%nat).
           ++ by rewrite !bool_decide_eq_true_2 by lia.
           ++ by rewrite !bool_decide_eq_false_2 by lia.
    + exists z'. split; [done|].
      split; [done|]. intros r c Hr Hc. rewrite (Hcells' r c Hr Hc).
      destruct (decide (c < S k)%nat).
      * by rewrite !bool_decide_eq_true_2 by lia.
      * by rewrite !bool_decide_eq_false_2 by lia.
  - f_equal. apply (tensor_eq (length ys) (length xs));
      [done|apply rect_render|].
    intros r c Hr Hc. rewrite (Hcells r c Hr Hc).
    by rewrite bool_decide_eq_true_2 by lia.
Qed.

End SurfingOld.


(** * Part III: specifications and examples *)

(** ** Exact arithmetic *)

Lemma xint_exact : ExactLaws xint.
Proof.
  split; simpl.
  - intros [|x|] [|y|] [|z|]; simpl; try done.
    rewrite !bool_decide_eq_true. lia.
  - intros [|x|] [|y|]; unfold xmin; simpl; try done;
      try (by rewrite bool_decide_eq_true).
    case_bool_decide; simpl; rewrite bool_decide_eq_true; lia.
  - intros [|x|] [|y|]; unfold xmin; simpl; try done;
      try (by rewrite bool_decide_eq_true).
    case_bool_decide; simpl; rewrite bool_decide_eq_true; lia.
  - intros [|x|] [|y|] [|z|]; unfold xmax; simpl; try done;
      repeat case_bool_decide; simpl; try done;
      rewrite ?bool_decide_eq_true; intros; lia.
  - by intros [|x|].
  - intros a b t [x ->] [y ->]. destruct b as [|z|]; simpl; try done.
    rewrite !bool_decide_eq_true. lia.
Qed.

(** The theorem of the contraction at a 2 by 2 image of integers and a
    tip of one row. *)
Lemma opening_contraction_exact_witness :
  rect 2 2 [[Fin 1; Fin 5]; [Fin 3; Fin 2]] ∧
  rect 1 2 [[Fin 0; Fin (-1)]] ∧
  ∃ r, opening [[Fin 1; Fin 5]; [Fin 3; Fin 2]] [[Fin 0; Fin (-1)]] = Ok r ∧
       rect 2 2 r ∧
       ∀ i j, (i < 2)%nat → (j < 2)%nat →
         ∃ o a, cell r i j = Some o ∧
                cell [[Fin 1; Fin 5]; [Fin 3; Fin 2]] i j = Some a ∧ s_le o a.
Proof.
  assert (rect 2 2 [[Fin 1; Fin 5]; [Fin 3; Fin 2]]) as HI
    by (split; [reflexivity|repeat constructor]).
  assert (rect 1 2 [[Fin 0; Fin (-1)]]) as HT
    by (split; [reflexivity|repeat constructor]).
  split; [exact HI|]. split; [exact HT|].
  apply (@opening_contraction_exact xint _ _ xint_exact 2 2 1 2 _ _ HI HT);
    repeat constructor; eexists; reflexivity.
Defined.

(** C1, the counterexample: at binary64 the opening of the image
    [[0.1]] by the tip [[-1]] is 0.10000000000000009, which is above
    0.1: [0.1 - (-1)] rounds to 1.1 and [1.1 + (-1)] is exact. *)
Lemma opening_exceeds_image_binary64 :
  nonpositive [[(-1)%float]] ∧ all_finite [[0.1%float]] ∧
  opening [[0.1%float]] [[(-1)%float]] = Ok [[0.10000000000000009%float]] ∧
  (0.10000000000000009 <=? 0.1)%float = false.
Proof.
  split; [by repeat constructor|]. split; [by repeat constructor|].
  split; reflexivity.
Qed.

(** ** Dilation *)

(** C2.  For every surface [S] and tip [T], [idilation S T] returns a
    field of the shape of [S] whose value at each cell is the maximum,
    from minus infinity, over the offsets [px] in [-xc, tip_xsiz - xc)
    and [py] in [-yc, tip_ysiz - yc) of [S] shifted circularly by
    [(-px, -py)] plus [T[xc + px, yc + py]], where [xc] and [yc] are
    [round((tip_xsiz - 1) / 2)] and [round((tip_ysiz - 1) / 2)].
    ([tip_xsiz] is the extent of the tip's first axis: the source calls
    [x] what its docstrings call the height.) *)
Theorem idilation_spec {A : Type} `{Scalar A} h w n m (S T : tensor A) :
  rect h w S → rect n m T →
  ((0 < n)%nat →
   compute_xc_yc T =
     (round_half (Z.of_nat n - 1), round_half (Z.of_nat m - 1))) ∧
  (∀ p, p ∈ footprint T ↔
        - (compute_xc_yc T).1 ≤ p.1 < Z.of_nat n - (compute_xc_yc T).1 ∧
        - (compute_xc_yc T).2 ≤ p.2 < Z.of_nat m - (compute_xc_yc T).2) ∧
  ∃ r, idilation S T = Ok r ∧ rect h w r ∧
       ∀ i j, (i < h)%nat → (j < w)%nat →
         is_Some (cell r i j) ∧ cell r i j = dilate_cell S T i j.
Proof.
  intros HS HT. split; [|split].
  - intros Hn. by rewrite compute_xc_yc_eq, (rect_size n m T HT Hn).
  - intros [px py]. unfold footprint. rewrite compute_xc_yc_eq.
    destruct (decide (n = 0)%nat) as [->|Hn].
    + destruct HT as [Hlen _]. apply nil_length_inv in Hlen. subst T.
      simpl. split; [by intros ?%elem_of_nil|lia].
    + rewrite (rect_size n m T HT) by lia. cbn [fst snd]. unfold py_range.
      rewrite list_elem_of_bind. split.
      * intros (qx & Hq & Hqx). apply list_elem_of_fmap in Hq as (qy & [= -> ->] & Hqy).
        apply elem_of_seqZ in Hqx, Hqy. lia.
      * intros [Hx Hy]. exists px. split.
        -- apply list_elem_of_fmap. exists py. split; [done|].
           apply elem_of_seqZ. lia.
        -- apply elem_of_seqZ. lia.
  - exact (idilation_cells h w n m S T HS HT).
Qed.

Lemma idilation_spec_witness :
  rect 2 3 [[1; 2; 3]; [4; 5; 6]]%float ∧ rect 1 2 [[0; -1]]%float ∧
  ∃ r, idilation [[1; 2; 3]; [4; 5; 6]]%float [[0; -1]]%float = Ok r ∧
       rect 2 3 r ∧
       ∀ i j, (i < 2)%nat → (j < 3)%nat →
         is_Some (cell r i j) ∧
         cell r i j =
         dilate_cell [[1; 2; 3]; [4; 5; 6]]%float [[0; -1]]%float i j.
Proof.
  assert (rect 2 3 [[1; 2; 3]; [4; 5; 6]]%float) as HS
    by (split; [reflexivity|repeat constructor]).
  assert (rect 1 2 [[0; -1]]%float) as HT
    by (split; [reflexivity|repeat constructor]).
  split; [exact HS|]. split; [exact HT|].
  exact (proj2 (proj2 (idilation_spec 2 3 1 2 _ _ HS HT))).
Defined.

(** The same for the erosion: shifts by [(+px, +py)], the tip's entry
    subtracted, the minimum from plus infinity. *)
Theorem ierosion_spec {A : Type} `{Scalar A} h w n m (S T : tensor A) :
  rect h w S → rect n m T →
  ∃ r, ierosion S T = Ok r ∧ rect h w r ∧
       ∀ i j, (i < h)%nat → (j < w)%nat →
         is_Some (cell r i j) ∧ cell r i j = erode_cell S T i j.
Proof.
  intros HS HT.
  destruct (ierosion_cells h w n m S T HS HT) as (r & Hr & Hrect & Hcells).
  exists r. split; [exact Hr|]. split; [exact Hrect|].
  intros i j Hi Hj. exact (Hcells i j Hi Hj).
Qed.

Lemma ierosion_spec_witness :
  rect 2 3 [[1; 2; 3]; [4; 5; 6]]%float ∧ rect 1 2 [[0; -1]]%float ∧
  ∃ r, ierosion [[1; 2; 3]; [4; 5; 6]]%float [[0; -1]]%float = Ok r ∧
       rect 2 3 r ∧
       ∀ i j, (i < 2)%nat → (j < 3)%nat →
         is_Some (cell r i j) ∧
         cell r i j =
         erode_cell [[1; 2; 3]; [4; 5; 6]]%float [[0; -1]]%float i j.
Proof.
  assert (rect 2 3 [[1; 2; 3]; [4; 5; 6]]%float) as HS
    by (split; [reflexivity|repeat constructor]).
  assert (rect 1 2 [[0; -1]]%float) as HT
    by (split; [reflexivity|repeat constructor]).
  split; [exact HS|]. split; [exact HT|].
  exact (ierosion_spec 2 3 1 2 _ _ HS HT).
Defined.

(** ** Shapes are not checked *)

(** C6, amended.  Neither operator checks a shape: for every image and
    every tip, the tip larger than the image or not, both return a field
    of the shape of the image, computed with shifts that wrap around.
    (A stack is one tensor, so its frames have one size.) *)
Theorem morphology_no_shape_check {A : Type} `{Scalar A} h w n m
    (S T : tensor A) :
  rect h w S → rect n m T →
  ∃ d e, idilation S T = Ok d ∧ ierosion S T = Ok e ∧
         rect h w d ∧ rect h w e.
Proof.
  intros HS HT.
  destruct (idilation_cells h w n m S T HS HT) as (d & Hd & Hdr & _).
  destruct (ierosion_cells h w n m S T HS HT) as (e & He & Her & _).
  exists d, e. split; [exact Hd|]. split; [exact He|]. split; [exact Hdr|exact Her].
Qed.

Lemma morphology_no_shape_check_witness :
  rect 1 1 [[5%float]] ∧ rect 2 2 [[0; 0]; [-1; -2]]%float ∧
  ∃ d e, idilation [[5%float]] [[0; 0]; [-1; -2]]%float = Ok d ∧
         ierosion [[5%float]] [[0; 0]; [-1; -2]]%float = Ok e ∧
         rect 1 1 d ∧ rect 1 1 e.
Proof.
  assert (rect 1 1 [[5%float]]) as HS
    by (split; [reflexivity|repeat constructor]).
  assert (rect 2 2 [[0; 0]; [-1; -2]]%float) as HT
    by (split; [reflexivity|repeat constructor]).
  split; [exact HS|]. split; [exact HT|].
  exact (morphology_no_shape_check 1 1 2 2 _ _ HS HT).
Defined.

(** C6, the counterexample: a 2 by 2 tip on a 1 by 1 image raises
    nothing; both operators return a field. *)
Lemma oversized_tip_returns :
  idilation [[5%float]] [[0; 0]; [-1; -2]]%float = Ok [[5%float]] ∧
  ierosion [[5%float]] [[0; 0]; [-1; -2]]%float = Ok [[5%float]].
Proof. split; reflexivity. Qed.

(** ** Tips of zeros *)

Lemma zero_tip_identity_witness :
  no_nan [[1; 2]; [3; 4]]%float ∧ (0 =? 0)%float = true ∧
  ∃ d e, idilation [[1; 2]; [3; 4]]%float [[0%float]] = Ok d ∧
         ierosion [[1; 2]; [3; 4]]%float [[0%float]] = Ok e ∧
         numeq d [[1; 2]; [3; 4]]%float ∧ numeq e [[1; 2]; [3; 4]]%float.
Proof.
  assert (no_nan [[1; 2]; [3; 4]]%float) as HF by (by repeat constructor).
  split; [exact HF|]. split; [reflexivity|].
  exact (zero_tip_identity _ 0%float HF eq_refl).
Defined.

(** C5, the counterexample: a tip of zeros with more than one cell is a
    maximum filter, not the identity. *)
Lemma zero_tip_not_identity :
  all_zero [[0; 0]]%float ∧
  idilation [[0; 1]]%float [[0; 0]]%float = Ok [[1; 1]]%float ∧
  ¬ numeq [[1; 1]]%float [[0; 1]]%float.
Proof.
  split; [by repeat constructor|]. split; [reflexivity|].
  intros Hq. apply Forall2_cons_1 in Hq as [Hrow _].
  apply Forall2_cons_1 in Hrow as [Hx _]. discriminate Hx.
Qed.

(** ** Recentring *)

(** With the centre of mass on the tip, the two slices of an axis have
    the same extent. *)
Lemma window_extent n c id :
  0 ≤ c < n → 0 ≤ id < n → (window_src n c id).2 = (window_dst n c id).2.
Proof.
  intros Hc Hid. unfold window_src, window_dst, slice_bounds. cbn [snd].
  destruct (id + Z.max (- c) (- id) <? 0) eqn:E1; [lia|].
  destruct (id + Z.min (n - c) (n - id) <? 0) eqn:E2; [lia|].
  destruct (c + Z.max (- c) (- id) <? 0) eqn:E3; [lia|].
  destruct (c + Z.min (n - c) (n - id) <? 0) eqn:E4; [lia|].
  f_equal. lia.
Qed.

(** [translate_tip_mean] returns when the centre of mass it rounds lies
    on the tip. *)
Lemma translate_tip_mean_returns n m P p_min id_x id_y :
  rect n m P → (0 < n)%nat → (0 < m)%nat →
  tmin P = Ok p_min → centre_of_mass P p_min = Ok (id_x, id_y) →
  0 ≤ id_x < Z.of_nat n → 0 ≤ id_y < Z.of_nat m →
  ∃ P', translate_tip_mean P = Ok P'.
Proof.
  intros HP Hn Hm Hmin Hcom Hx Hy.
  rewrite (translate_tip_mean_intro n m P _ _ _ HP Hn Hmin Hcom).
  unfold assign_slice, slice_fits.
  rewrite (window_extent (Z.of_nat n)), (window_extent (Z.of_nat m));
    [|apply round_half_range; lia|done|apply round_half_range; lia|done].
  rewrite !bool_decide_eq_true_2 by (by left). simpl. eauto.
Qed.

(** C10.  For every tip [P] with at least one cell, what
    [translate_tip_mean] returns has the shape of [P] and the minimum of
    [P]: each of its cells is the background [min(P)] or a value copied
    from [P], which is not below [min(P)].  It returns whenever the
    rounded centre of mass lies on the tip; it raises for a tip with a
    NaN, whose centre of mass cannot be rounded. *)
Theorem translate_tip_mean_background n m P :
  rect n m P → (0 < n)%nat → (0 < m)%nat →
  (∀ P', translate_tip_mean P = Ok P' →
     rect n m P' ∧
     ∃ p_min,
       tmin P = Ok p_min ∧
       (∀ i j v, cell P' i j = Some v →
          (v = p_min ∨ ∃ k l, cell P k l = Some v) ∧
          (p_min <=? v)%float = true) ∧
       (∃ p_min', tmin P' = Ok p_min' ∧ (p_min' =? p_min)%float = true)) ∧
  (∀ p_min id_x id_y,
     tmin P = Ok p_min → centre_of_mass P p_min = Ok (id_x, id_y) →
     0 ≤ id_x < Z.of_nat n → 0 ≤ id_y < Z.of_nat m →
     ∃ P', translate_tip_mean P = Ok P').
Proof.
  intros HP Hn Hm. split.
  - intros P' Ht.
    destruct (translate_tip_mean_cells n m P P' HP Hn Hm Ht)
      as (HP' & p & Hmin & _ & _ & Hcells & Hmin').
    split; [exact HP'|]. exists p. split; [exact Hmin|]. split; assumption.
  - intros p id_x id_y Hmin Hcom Hx Hy.
    exact (translate_tip_mean_returns n m P p id_x id_y
             HP Hn Hm Hmin Hcom Hx Hy).
Qed.

Lemma translate_tip_mean_background_witness :
  rect 3 1 [[-1]; [0]; [0]]%float ∧
  translate_tip_mean [[-1]; [0]; [0]]%float = Ok [[0]; [0]; [-1]]%float ∧
  rect 3 1 [[0]; [0]; [-1]]%float ∧
  ∃ p_min,
    tmin [[-1]; [0]; [0]]%float = Ok p_min ∧
    (∀ i j v, cell [[0]; [0]; [-1]]%float i j = Some v →
       (v = p_min ∨ ∃ k l, cell [[-1]; [0]; [0]]%float k l = Some v) ∧
       (p_min <=? v)%float = true) ∧
    (∃ p_min', tmin [[0]; [0]; [-1]]%float = Ok p_min' ∧
               (p_min' =? p_min)%float = true).
Proof.
  assert (rect 3 1 [[-1]; [0]; [0]]%float) as HP
    by (split; [reflexivity|repeat constructor]).
  assert (translate_tip_mean [[-1]; [0]; [0]]%float
          = Ok [[0]; [0]; [-1]]%float) as Ht by (vm_compute; reflexivity).
  split; [exact HP|]. split; [exact Ht|].
  exact (proj1 (translate_tip_mean_background 3 1 _ HP
                  ltac:(lia) ltac:(lia)) _ Ht).
Defined.

(** C4, amended.  Recentring what [translate_tip_mean] returned changes
    nothing when the centre of mass of the returned tip rounds to its
    centre cell [(xc, yc)]. *)
Theorem translate_tip_mean_idempotent_if_centred n m P P' p_min' :
  rect n m P → (0 < n)%nat → (0 < m)%nat →
  translate_tip_mean P = Ok P' →
  tmin P' = Ok p_min' →
  centre_of_mass P' p_min' = Ok (compute_xc_yc P') →
  (r ←ᵣ translate_tip_mean P; translate_tip_mean r) = translate_tip_mean P.
Proof.
  intros HP Hn Hm Ht Hmin Hcom.
  destruct (translate_tip_mean_cells n m P P' HP Hn Hm Ht) as [HP' _].
  rewrite Ht. cbn [rbind].
  exact (translate_tip_mean_centred n m P' p_min' HP' Hn Hm Hmin Hcom).
Qed.

Lemma translate_tip_mean_idempotent_if_centred_witness :
  translate_tip_mean [[0]; [0]; [1]; [3]; [0]]%float
    = Ok [[0]; [1]; [3]; [0]; [0]]%float ∧
  (r ←ᵣ translate_tip_mean [[0]; [0]; [1]; [3]; [0]]%float;
   translate_tip_mean r)
  = translate_tip_mean [[0]; [0]; [1]; [3]; [0]]%float.
Proof.
  assert (translate_tip_mean [[0]; [0]; [1]; [3]; [0]]%float
          = Ok [[0]; [1]; [3]; [0]; [0]]%float) as Ht
    by (vm_compute; reflexivity).
  split; [exact Ht|].
  apply (translate_tip_mean_idempotent_if_centred 5 1
           [[0]; [0]; [1]; [3]; [0]]%float [[0]; [1]; [3]; [0]; [0]]%float
           0%float);
    [split; [reflexivity|repeat constructor]|lia|lia|exact Ht| |];
    vm_compute; reflexivity.
Defined.

(** C4, the counterexample: the tip [1, 0, 0, 1, 3] has its centre of
    mass at row 3, one row after the centre, so the copy moves it up by
    one row and drops its first row; the centre of mass of what is left,
    2.75, rounds to row 3 again, and the second call moves the tip once
    more. *)
Lemma translate_tip_mean_not_idempotent :
  translate_tip_mean [[1]; [0]; [0]; [1]; [3]]%float
    = Ok [[0]; [0]; [1]; [3]; [0]]%float ∧
  translate_tip_mean [[0]; [0]; [1]; [3]; [0]]%float
    = Ok [[0]; [1]; [3]; [0]; [0]]%float ∧
  (r ←ᵣ translate_tip_mean [[1]; [0]; [0]; [1]; [3]]%float;
   translate_tip_mean r)
  ≠ translate_tip_mean [[1]; [0]; [0]; [1]; [3]]%float.
Proof.
  split; [vm_compute; reflexivity|]. split; [vm_compute; reflexivity|].
  vm_compute. discriminate.
Qed.

(** A tie: the centre of mass of [0, 1, 1] is 1.5, which rounds to the
    even row 2, and that of the recentred tip [1, 1, 0] is 0.5, which
    rounds to row 0: the two tips alternate. *)
Example translate_tip_mean_tie :
  translate_tip_mean [[0]; [1]; [1]]%float = Ok [[1]; [1]; [0]]%float ∧
  translate_tip_mean [[1]; [1]; [0]]%float = Ok [[0]; [1]; [1]]%float.
Proof. split; vm_compute; reflexivity. Qed.

(** ** The reconstruction loop on examples *)

Lemma all_zero_full_like (t : tensor float) : all_zero (full_like t 0%float).
Proof.
  unfold all_zero, full_like. apply Forall_fmap, list.Forall_forall.
  intros row _. apply Forall_fmap, list.Forall_forall. by intros x _.
Qed.

Lemma no_grad_zero n m (image tip : tensor float) :
  rect n m tip → zero_residual image tip →
  rect n m (no_grad image tip) ∧ all_zero (no_grad image tip).
Proof.
  intros Ht _. split; [by apply rect_full_like|apply all_zero_full_like].
Qed.

Lemma frozen_step_zero n m (opt : unit) (tip grad : tensor float) :
  True → rect n m tip → all_zero tip → rect n m grad → all_zero grad →
  True ∧ rect n m (frozen_step opt tip grad).2 ∧
  all_zero (frozen_step opt tip grad).2.
Proof. intros _ Ht Hz _ _. split; [exact I|]. by split. Qed.

Lemma scripted_step_rect script n m (opt : unit) (tip grad : tensor float) :
  rect n m tip → rect n m (scripted_step script opt tip grad).2.
Proof.
  intros [Hn Hrows]. unfold scripted_step. cbn [snd].
  split; [by rewrite length_imap|].
  apply list.Forall_forall. intros row Hin.
  apply list_elem_of_lookup in Hin as [i Hi].
  rewrite list_lookup_imap in Hi.
  destruct (tip !! i) as [old|] eqn:Hold; [|done].
  injection Hi as <-. rewrite length_fmap.
  eapply list.Forall_forall in Hrows; [exact Hrows|].
  by eapply list_elem_of_lookup_2.
Qed.

Lemma height_field_2x2 : height_field [[1; 2]; [3; 4]]%float.
Proof.
  exists 2%nat, 2%nat. split; [split; [reflexivity|repeat constructor]|].
  split; [lia|]. split; [reflexivity|repeat constructor].
Qed.

Lemma unit_tip_loss_zero_witness :
  Forall height_field [[[1; 2]; [3; 4]]%float] ∧
  ∃ tip,
    differentiable_btr stateless no_grad frozen_step
      [[[1; 2]; [3; 4]]%float] (1, 1)%nat 3 0.1%float 0%float
    = Ok (tip, replicate (Z.to_nat 3) 0%float).
Proof.
  assert (Forall height_field [[[1; 2]; [3; 4]]%float]) as Himg
    by (constructor; [exact height_field_2x2|constructor]).
  split; [exact Himg|].
  exact (unit_tip_loss_zero stateless no_grad frozen_step (λ _, True)
           (λ _ _ _, I) no_grad_zero frozen_step_zero
           _ 3 0.1%float 0%float Himg).
Defined.

Lemma returned_tip_projected_witness :
  differentiable_btr stateless no_grad
    (scripted_step [2; 3; 3; 2; 0]%float)
    [[[1]; [4]; [2]; [0]; [3]]%float] (5, 1)%nat 1 0.1%float 0%float
  = Ok ([[-3]; [-3]; [-2]; [0]; [-3]]%float, [0.20000000000000001%float]) ∧
  projected 5 1 [[-3]; [-3]; [-2]; [0]; [-3]]%float.
Proof.
  assert (differentiable_btr stateless no_grad
            (scripted_step [2; 3; 3; 2; 0]%float)
            [[[1]; [4]; [2]; [0]; [3]]%float] (5, 1)%nat 1 0.1%float 0%float
          = Ok ([[-3]; [-3]; [-2]; [0]; [-3]]%float,
                [0.20000000000000001%float])) as Hrun
    by (vm_compute; reflexivity).
  split; [exact Hrun|].
  exact (returned_tip_projected stateless no_grad
           (scripted_step [2; 3; 3; 2; 0]%float)
           (scripted_step_rect [2; 3; 3; 2; 0]%float)
           _ 5%nat 1%nat 1 0.1%float 0%float _ _
           ltac:(lia) ltac:(lia) Hrun).
Defined.

(** C7, the counterexample: one epoch on one frame, with a step that
    lowers the five rows of the tip by 2, 3, 3, 2 and 0.  The projection
    moves the tip up by one row and fills the last row with the
    background; the tip that is returned has no positive entry, but
    [translate_tip_mean] moves it by one more row. *)
Lemma returned_tip_not_fixed_point :
  ∃ tip losses,
    differentiable_btr stateless no_grad
      (scripted_step [2; 3; 3; 2; 0]%float)
      [[[1]; [4]; [2]; [0]; [3]]%float] (5, 1)%nat 1 0.1%float 0%float
    = Ok (tip, losses) ∧
    nonpositive tip ∧
    translate_tip_mean tip = Ok [[-3]; [-2]; [0]; [-3]; [-3]]%float ∧
    translate_tip_mean tip ≠ Ok tip.
Proof.
  exists [[-3]; [-3]; [-2]; [0]; [-3]]%float, [0.20000000000000001%float].
  split; [vm_compute; reflexivity|]. split; [by repeat constructor|].
  split; [vm_compute; reflexivity|]. vm_compute. discriminate.
Qed.

(** ** The renderers *)

Lemma render_no_atoms xs ys : render [] xs ys = zeros (length ys) (length xs).
Proof.
  unfold render, zeros.
  assert ((λ y : float, (λ x, render_point [] x y) <$> xs) <$> ys
          = replicate (length ys) (replicate (length xs) 0%float)) as ->.
  { induction ys as [|y ys IH]; [done|]. csimpl. rewrite IH. f_equal.
    clear. induction xs as [|x xs IH]; [done|]. csimpl. by rewrite IH. }
  apply reverse_replicate.
Qed.

Section Renderers.
Variable arange : float → float → float → result (list float).

(** C3.  When [torch.arange] returns the two grids, [surfing] returns
    for at least one atom the field [render]: at the grid point [(x, y)]
    the highest [z + sqrt(r^2 - ((x - ax)^2 + (y - ay)^2))] among the
    atoms with [(x - ax)^2 + (y - ay)^2 < r^2], 0 where there is none,
    the row of [ys[j]] at index [len(ys) - 1 - j].  Without an atom it
    raises the [IndexError] of the maximum along an empty axis where the
    bare stage, a field of zeros, is expected. *)
Theorem surfing_spec atoms cfg xs ys :
  stage arange (min_x cfg) (max_x cfg) (resolution_x cfg) = Ok xs →
  stage arange (min_y cfg) (max_y cfg) (resolution_y cfg) = Ok ys →
  surfing arange atoms cfg =
    (if bool_decide (atoms = []) then Raise IndexError
     else Ok (render atoms xs ys)) ∧
  render [] xs ys = zeros (length ys) (length xs) ∧
  ∀ j c x y, ys !! j = Some y → xs !! c = Some x →
    cell (render atoms xs ys) (length ys - 1 - j) c
    = Some (render_point atoms x y).
Proof.
  intros Hxs Hys. split; [|split].
  - case_bool_decide as Hatoms.
    + subst atoms. exact (surfing_no_atoms arange cfg xs ys Hxs Hys).
    + exact (surfing_render arange atoms cfg xs ys Hatoms Hxs Hys).
  - apply render_no_atoms.
  - intros j c x y Hy Hx. exact (cell_render atoms xs ys j c x y Hy Hx).
Qed.

End Renderers.

Lemma surfing_spec_witness :
  stage arange_model 0 2 1 = Ok [0.5; 1.5]%float ∧
  surfing arange_model [] unit_stage = Raise IndexError ∧
  render [] [0.5; 1.5]%float [0.5; 1.5]%float = zeros 2 2.
Proof.
  assert (stage arange_model 0 2 1 = Ok [0.5; 1.5]%float) as Hst
    by (vm_compute; reflexivity).
  split; [exact Hst|].
  destruct (surfing_spec arange_model [] unit_stage _ _ Hst Hst)
    as (Hs & Hr & _).
  split; [exact Hs|exact Hr].
Defined.


(** One atom of radius 1 at height 1 above the centre of the cell at
    the origin: both renderers return its top, 2, in the last row. *)
Example surfing_one_atom :
  surfing arange_model [Atom 0.5 0.5 1 1]%float unit_stage
    = Ok [[0; 0]; [2; 0]]%float ∧
  surfing_old arange_model [Atom 0.5 0.5 1 1]%float unit_stage
    = Ok [[0; 0]; [2; 0]]%float.
Proof. split; vm_compute; reflexivity. Qed.


(** * Part IV: further properties of the engine *)

(** ** The centre of a tip *)

Lemma round_half_centre n : 1 ≤ n → centre_index n (round_half (n - 1)).
Proof.
  intros Hn. unfold centre_index, round_half.
  destruct (Z.Even_or_Odd n) as [[k ->]|[k ->]].
  - assert (Z.even (2 * k) = true) as He by (rewrite Z.even_spec; by exists k).
    assert (Z.odd (2 * k) = false) as Ho by (by rewrite <- Z.negb_even, He).
    assert (Z.even (2 * k - 1) = false) as ->.
    { replace (2 * k - 1) with (1 + 2 * (k - 1)) by lia.
      by rewrite Z.even_add_mul_2. }
    assert ((2 * k - 1) / 2 = k - 1) as ->.
    { replace (2 * k - 1) with (1 + (k - 1) * 2) by lia.
      by rewrite Z.div_add. }
    assert (2 * k / 2 = k) as ->.
    { rewrite Z.mul_comm. by apply Z.div_mul. }
    rewrite Ho, He. destruct (Z.even (k - 1)) eqn:Hk.
    + split; [lia|]. split; [done|]. intros _. split; [done|lia].
    + split; [lia|]. split; [done|]. intros _. split; [|lia].
      replace (k - 1 + 1) with (k - 1 + 2 * 1 - 1) by lia.
      rewrite Z.even_sub, Z.even_add_mul_2, Hk. done.
  - assert (Z.odd (2 * k + 1) = true) as Ho
      by (rewrite Z.odd_spec; by exists k).
    assert (Z.even (2 * k + 1) = false) as He
      by (by rewrite <- Z.negb_odd, Ho).
    replace (2 * k + 1 - 1) with (2 * k) by lia.
    assert (Z.even (2 * k) = true) as -> by (rewrite Z.even_spec; by exists k).
    assert (2 * k / 2 = k) as ->.
    { rewrite Z.mul_comm. by apply Z.div_mul. }
    rewrite Ho, He. split; [lia|]. split; [|done]. intros _. lia.
Qed.

(** For a tip with at least one cell the centre is a cell of the tip:
    the middle one along an axis of odd extent, and the even one of the
    two middle ones along an axis of even extent (row 0 of 2, row 2 of
    4, row 2 of 6), as [round] sends the half to the even integer. *)
Theorem compute_xc_yc_centre {A : Type} `{Scalar A} n m (T : tensor A) :
  rect n m T → (0 < n)%nat → (0 < m)%nat →
  centre_index (Z.of_nat n) (compute_xc_yc T).1 ∧
  centre_index (Z.of_nat m) (compute_xc_yc T).2.
Proof.
  intros HT Hn Hm. rewrite compute_xc_yc_eq, (rect_size n m T HT Hn).
  cbn [fst snd]. split; apply round_half_centre; lia.
Qed.

Lemma compute_xc_yc_centre_witness :
  centre_index 4 (compute_xc_yc [[1; 2]; [3; 4]; [5; 6]; [7; 8]]%float).1 ∧
  centre_index 2 (compute_xc_yc [[1; 2]; [3; 4]; [5; 6]; [7; 8]]%float).2.
Proof.
  apply (compute_xc_yc_centre 4 2 [[1; 2]; [3; 4]; [5; 6]; [7; 8]]%float);
    [split; [reflexivity|repeat constructor]|lia|lia].
Defined.

(** ** A tip without a cell *)

Lemma for_skip {A X} (l : list X) (acc : A) :
  for_ l acc (λ _ r, Ok r) = Ok acc.
Proof. induction l as [|x l IH]; [done|]. simpl. exact IH. Qed.

Lemma for_nothing {A X Y} (l : list X) (acc : A)
    (body : X → Y → A → result A) :
  for_ l acc (λ x r, for_ [] r (body x)) = Ok acc.
Proof. apply for_skip. Qed.

Lemma empty_tip_ranges {A : Type} `{Scalar A} n m (T : tensor A) :
  rect n m T → (n = 0 ∨ m = 0)%nat →
  py_range (- (compute_xc_yc T).1) ((size T).1 - (compute_xc_yc T).1) = [] ∨
  py_range (- (compute_xc_yc T).2) ((size T).2 - (compute_xc_yc T).2) = [].
Proof.
  intros [Hlen Hrows] Hnm. rewrite compute_xc_yc_eq. cbn [fst snd].
  destruct T as [|row T].
  - left. reflexivity.
  - right. simpl in Hlen. destruct Hnm as [-> | ->]; [done|].
    apply list.Forall_cons in Hrows as [Hrow _].
    unfold size. cbn [snd]. rewrite Hrow. reflexivity.
Qed.

(** A tip of shape [(0, m)] or [(n, 0)] is not refused: the loops run
    over no offset, and the dilation returns a field of minus infinity,
    the erosion one of plus infinity. *)
Theorem empty_tip_fields {A : Type} `{Scalar A} n m (S T : tensor A) :
  rect n m T → (n = 0 ∨ m = 0)%nat →
  idilation S T = Ok (full_like S neg_inf) ∧
  ierosion S T = Ok (full_like S pos_inf).
Proof.
  intros HT Hnm.
  pose proof (empty_tip_ranges n m T HT Hnm) as Hr.
  unfold idilation, ierosion.
  destruct (compute_xc_yc T) as [xc yc].
  destruct (size T) as [tip_xsiz tip_ysiz].
  cbn [fst snd] in Hr.
  destruct Hr as [-> | ->]; [done|]. split; apply for_nothing.
Qed.

Lemma empty_tip_fields_witness :
  idilation [[1; 2]]%float [[]; []] = Ok [[neg_infinity; neg_infinity]] ∧
  ierosion [[1; 2]]%float [[]; []] = Ok [[infinity; infinity]].
Proof.
  assert (rect 2 0 ([[]; []] : tensor float)) as HT
    by (split; [reflexivity|repeat constructor]).
  exact (empty_tip_fields 2 0 [[1; 2]]%float [[]; []] HT (or_intror eq_refl)).
Defined.

(** ** Circular shifts *)

Lemma wrap_roll i p a h : (0 < h)%nat →
  Z.to_nat ((Z.of_nat (wrap i p (Z.of_nat h)) - a) `mod` Z.of_nat h) =
  wrap (Z.to_nat ((Z.of_nat i - a) `mod` Z.of_nat h)) p (Z.of_nat h).
Proof.
  intros Hh. unfold wrap. f_equal.
  rewrite !Z2Nat.id by (apply Z.mod_pos_bound; lia).
  rewrite Zminus_mod_idemp_l, Zplus_mod_idemp_l. f_equal. lia.
Qed.

Section Roll.
Context {A : Type} `{Scalar A}.
Implicit Types S T : tensor A.

Lemma size_roll h w S s : rect h w S → (0 < h)%nat →
  size (roll S s) = size S.
Proof.
  intros HS Hh. rewrite (rect_size h w S HS Hh).
  apply (rect_size h w); [by apply rect_roll|done].
Qed.

Lemma dilate_term_roll h w S T a b i j p :
  rect h w S → (i < h)%nat → (j < w)%nat →
  dilate_term (roll S (a, b)) T i j p =
  dilate_term S T (Z.to_nat ((Z.of_nat i - a) `mod` Z.of_nat h))
                  (Z.to_nat ((Z.of_nat j - b) `mod` Z.of_nat w)) p.
Proof.
  intros HS Hi Hj. unfold dilate_term.
  rewrite (size_roll h w S (a, b) HS) by lia.
  rewrite (rect_size h w S HS) by lia.
  destruct (compute_xc_yc T) as [xc yc].
  rewrite (cell_roll h w S a b) by (done || apply wrap_lt; lia).
  by rewrite !wrap_roll by lia.
Qed.

Lemma erode_term_roll h w S T a b i j p :
  rect h w S → (i < h)%nat → (j < w)%nat →
  erode_term (roll S (a, b)) T i j p =
  erode_term S T (Z.to_nat ((Z.of_nat i - a) `mod` Z.of_nat h))
                 (Z.to_nat ((Z.of_nat j - b) `mod` Z.of_nat w)) p.
Proof.
  intros HS Hi Hj. unfold erode_term.
  rewrite (size_roll h w S (a, b) HS) by lia.
  rewrite (rect_size h w S HS) by lia.
  destruct (compute_xc_yc T) as [xc yc].
  rewrite (cell_roll h w S a b) by (done || apply wrap_lt; lia).
  by rewrite !wrap_roll by lia.
Qed.

Lemma roll_index i a h : (i < h)%nat →
  (Z.to_nat ((Z.of_nat i - a) `mod` Z.of_nat h) < h)%nat.
Proof.
  intros Hi.
  pose proof (Z.mod_pos_bound (Z.of_nat i - a) (Z.of_nat h) ltac:(lia)). lia.
Qed.

Lemma idilation_roll h w n m S T s :
  rect h w S → rect n m T →
  idilation (roll S s) T = (r ←ᵣ idilation S T; Ok (roll r s)).
Proof.
  intros HS HT. destruct s as [a b].
  destruct (idilation_cells h w n m S T HS HT) as (r & -> & Hr & Hcells).
  destruct (idilation_cells h w n m (roll S (a, b)) T
              (rect_roll h w S (a, b) HS) HT) as (r' & -> & Hr' & Hcells').
  cbn [rbind]. f_equal.
  apply (tensor_eq h w); [done|by apply rect_roll|]. intros i j Hi Hj.
  rewrite (cell_roll h w r a b) by done.
  rewrite (proj2 (Hcells' i j Hi Hj)).
  rewrite (proj2 (Hcells _ _ (roll_index i a h Hi) (roll_index j b w Hj))).
  unfold dilate_cell, running. apply foldl_step_ext. intros p _.
  by apply dilate_term_roll.
Qed.

Lemma ierosion_roll h w n m S T s :
  rect h w S → rect n m T →
  ierosion (roll S s) T = (r ←ᵣ ierosion S T; Ok (roll r s)).
Proof.
  intros HS HT. destruct s as [a b].
  destruct (ierosion_cells h w n m S T HS HT) as (r & -> & Hr & Hcells).
  destruct (ierosion_cells h w n m (roll S (a, b)) T
              (rect_roll h w S (a, b) HS) HT) as (r' & -> & Hr' & Hcells').
  cbn [rbind]. f_equal.
  apply (tensor_eq h w); [done|by apply rect_roll|]. intros i j Hi Hj.
  rewrite (cell_roll h w r a b) by done.
  rewrite (proj2 (Hcells' i j Hi Hj)).
  rewrite (proj2 (Hcells _ _ (roll_index i a h Hi) (roll_index j b w Hj))).
  unfold erode_cell, running. apply foldl_step_ext. intros p _.
  by apply erode_term_roll.
Qed.

(** The two operators and the opening commute with [torch.roll]: the
    image shifted circularly by [s] gives the result shifted by [s],
    cell for cell, for every tip.  (The boundary is circular, so no
    position of the image is special.) *)
Theorem morphology_roll h w n m S T s :
  rect h w S → rect n m T →
  idilation (roll S s) T = (r ←ᵣ idilation S T; Ok (roll r s)) ∧
  ierosion (roll S s) T = (r ←ᵣ ierosion S T; Ok (roll r s)) ∧
  opening (roll S s) T = (r ←ᵣ opening S T; Ok (roll r s)).
Proof.
  intros HS HT.
  pose proof (idilation_roll h w n m S T s HS HT) as Hd.
  pose proof (ierosion_roll h w n m S T s HS HT) as He.
  split; [exact Hd|]. split; [exact He|].
  unfold opening. rewrite He.
  destruct (ierosion_cells h w n m S T HS HT) as (e & -> & Hrect & _).
  cbn [rbind]. exact (idilation_roll h w n m e T s Hrect HT).
Qed.
End Roll.

Lemma morphology_roll_witness :
  idilation (roll [[1; 5; 2]; [4; 0; 3]]%float (1, -1)) [[0; -1]]%float
  = (r ←ᵣ idilation [[1; 5; 2]; [4; 0; 3]]%float [[0; -1]]%float;
     Ok (roll r (1, -1))) ∧
  ierosion (roll [[1; 5; 2]; [4; 0; 3]]%float (1, -1)) [[0; -1]]%float
  = (r ←ᵣ ierosion [[1; 5; 2]; [4; 0; 3]]%float [[0; -1]]%float;
     Ok (roll r (1, -1))) ∧
  opening (roll [[1; 5; 2]; [4; 0; 3]]%float (1, -1)) [[0; -1]]%float
  = (r ←ᵣ opening [[1; 5; 2]; [4; 0; 3]]%float [[0; -1]]%float;
     Ok (roll r (1, -1))).
Proof.
  apply (morphology_roll 2 3 1 2);
    split; [reflexivity|repeat constructor|reflexivity|repeat constructor].
Defined.

(** ** Recentring: what is refused *)

Section NonFinite.
#[local] Open Scope float_scope.
Implicit Types a b c x y : float.

Lemma sub_self_nonfinite x : finite x = false → is_nan (x - x) = true.
Proof.
  unfold finite. rewrite is_nan_spec, FloatAxioms.sub_spec.
  destruct (Prim2SF x) as [s|s| |s m e]; try done. by destruct s.
Qed.

Lemma sub_pos_inf_l x y :
  Prim2SF x = S754_infinity false → finite y = true →
  Prim2SF (x - y) = S754_infinity false.
Proof.
  unfold finite. rewrite FloatAxioms.sub_spec. intros ->.
  by destruct (Prim2SF y).
Qed.

Lemma add_nonfinite_l x y : finite x = false → finite (x + y) = false.
Proof.
  unfold finite. rewrite FloatAxioms.add_spec.
  destruct (Prim2SF x) as [s|s| |s m e]; try done;
    destruct (Prim2SF y) as [s'|s'| |s' m' e']; try done; by destruct s, s'.
Qed.

Lemma add_nonfinite_r x y : finite y = false → finite (x + y) = false.
Proof.
  unfold finite. rewrite FloatAxioms.add_spec.
  destruct (Prim2SF y) as [s'|s'| |s' m' e']; try done;
    destruct (Prim2SF x) as [s|s| |s m e]; try done; by destruct s, s'.
Qed.

Lemma mul_nonfinite_r x y : finite y = false → finite (x * y) = false.
Proof.
  unfold finite. rewrite FloatAxioms.mul_spec.
  destruct (Prim2SF y) as [s'|s'| |s' m' e']; try done;
    by destruct (Prim2SF x) as [s|s| |s m e].
Qed.

Lemma div_nonfinite x y :
  finite x = false → finite y = false → is_nan (x / y) = true.
Proof.
  unfold finite. rewrite is_nan_spec, FloatAxioms.div_spec.
  destruct (Prim2SF x) as [s|s| |s m e]; try done;
    by destruct (Prim2SF y) as [s'|s'| |s' m' e'].
Qed.

(** A NaN and plus infinity are below no number. *)
Lemma ltb_top x c :
  is_nan x = true ∨ Prim2SF x = S754_infinity false → (x <? c) = false.
Proof.
  intros [Hx|Hx]; [by apply ltb_nan_l|].
  rewrite FloatAxioms.ltb_spec, Hx. unfold SFltb.
  by destruct (Prim2SF c) as [s|s| |s m e]; try destruct s.
Qed.

Lemma top_nonfinite x :
  is_nan x = true ∨ Prim2SF x = S754_infinity false → finite x = false.
Proof.
  unfold finite. intros [Hx%is_nan_spec|Hx]; by rewrite Hx.
Qed.

Lemma leb_neg_inf x y :
  finite x = true → Prim2SF y = S754_infinity true → (x <=? y) = false.
Proof.
  unfold finite. rewrite FloatAxioms.leb_spec. intros Hx ->. unfold SFleb.
  by destruct (Prim2SF x) as [s|s| |s m e]; try destruct s.
Qed.

Lemma foldl_add_nonfinite a (l : list float) :
  finite a = false ∨ (∃ x, x ∈ l ∧ finite x = false) →
  finite (foldl PrimFloat.add a l) = false.
Proof.
  revert a. induction l as [|y l IH]; intros a.
  - intros [Ha|(x & Hx%elem_of_nil & _)]; done.
  - simpl. intros [Ha|(x & Hx & Hfx)]; apply IH.
    + left. by apply add_nonfinite_l.
    + apply elem_of_cons in Hx as [->|Hx].
      * left. by apply add_nonfinite_r.
      * right. eauto.
Qed.

Lemma foldl_add_elem_nan a (l : list float) x :
  x ∈ l → is_nan x = true → is_nan (foldl PrimFloat.add a l) = true.
Proof.
  revert a. induction l as [|y l IH]; intros a; [by intros ?%elem_of_nil|].
  simpl. intros [->|Hx]%elem_of_cons Hnan.
  - by apply foldl_add_nan, add_nan_r.
  - by apply IH.
Qed.

Lemma forallb_elem {X} (q : X → bool) (l : list X) (u : X) :
  u ∈ l → q u = false → forallb q l = false.
Proof.
  intros Hu Hq. induction l as [|v l IH]; [by apply elem_of_nil in Hu|].
  simpl. apply elem_of_cons in Hu as [<-|Hu]; [by rewrite Hq|].
  rewrite IH by done. by destruct (q v).
Qed.

(** One weight that is a NaN or plus infinity makes the centre of mass
    a NaN, which [round] refuses. *)
Lemma centre_of_mass_top n m P p i j w0 :
  rect n m P → (0 < n)%nat → (0 < m)%nat →
  cell (sub_scalar P p) i j = Some w0 →
  is_nan w0 = true ∨ Prim2SF w0 = S754_infinity false →
  centre_of_mass P p = Raise ValueError.
Proof.
  intros HP Hn Hm Hcell Hw0. unfold centre_of_mass.
  rewrite (rect_size n m P HP Hn). rewrite !Nat2Z.id.
  set (w1 := fill_lt (sub_scalar P p) 1e-8 0).
  assert (rect n m w1) as Hw1.
  { by apply rect_fmap_cells, rect_fmap_cells. }
  assert (cell w1 i j = Some w0) as Hc1.
  { unfold w1, fill_lt. rewrite cell_fmap, Hcell. simpl.
    by rewrite ltb_top. }
  assert (w0 ∈ entries w1) as Hin by (apply elem_of_entries; eauto).
  assert (all_lt w1 1e-10 = false) as ->.
  { unfold all_lt. apply (forallb_elem _ _ w0); [done|]. by apply ltb_top. }
  rewrite py_round_nan; [done|]. unfold tsum at 1.
  set (ix := sub_scalar (cumsum0 (ones n m)) 1).
  assert (rect n m ix) as Hix.
  { by apply rect_fmap_cells, rect_cumsum0, rect_ones. }
  destruct (cell_Some_lt n m w1 i j w0 Hw1 Hc1) as [Hi Hj].
  destruct (cell_is_Some n m ix i j Hix Hi Hj) as [x Hx].
  apply (foldl_add_elem_nan _ _ (x * w0 / tsum w1)).
  - apply elem_of_entries. exists i, j.
    unfold div_scalar, tmul. rewrite cell_fmap, cell_zip_with, Hx, Hc1.
    done.
  - apply div_nonfinite.
    + by apply mul_nonfinite_r, top_nonfinite.
    + unfold tsum. apply foldl_add_nonfinite. right. exists w0.
      split; [done|]. by apply top_nonfinite.
Qed.
End NonFinite.

Section Refused.
#[local] Open Scope float_scope.
Implicit Types P : tensor float.

Lemma entries_empty {X} n m (t : tensor X) :
  rect n m t → (n = 0 ∨ m = 0)%nat → entries t = [].
Proof.
  intros Ht Hnm. apply nil_length_inv.
  rewrite (entries_length n m t Ht). nia.
Qed.

Lemma translate_tip_mean_with p P :
  tmin P = Ok p → centre_of_mass P p = Raise ValueError →
  translate_tip_mean P = Raise ValueError.
Proof.
  intros Hmin Hcom. unfold translate_tip_mean.
  destruct (size P) as [tip_xsiz tip_ysiz].
  destruct (compute_xc_yc P) as [xc yc].
  rewrite Hmin. cbn [rbind]. by rewrite Hcom.
Qed.

Lemma translate_tip_mean_nonfinite n m P :
  rect n m P → (0 < n)%nat → (0 < m)%nat →
  (∃ v, v ∈ entries P ∧ finite v = false) →
  translate_tip_mean P = Raise ValueError.
Proof.
  intros HP Hn Hm (v & Hv & Hfin).
  destruct (tmin_is_Ok n m P HP Hn Hm) as [p Hmin].
  apply (translate_tip_mean_with p); [done|].
  destruct (is_nan p) eqn:Hp; [by apply (centre_of_mass_nan n m)|].
  destruct (finite p) eqn:Hfp.
  - apply elem_of_entries in Hv as (i & j & Hcell).
    pose proof (tmin_lower P p v Hmin Hp) as Hle.
    apply (centre_of_mass_top n m P p i j (v - p)); [done..| |].
    { unfold sub_scalar. by rewrite cell_fmap, Hcell. }
    unfold finite in Hfin.
    destruct (Prim2SF v) as [s|s| |s e' m'] eqn:Ev; try done.
    + destruct s.
      * rewrite (leb_neg_inf p v) in Hle; [|done..].
        discriminate Hle; apply elem_of_entries; eauto.
      * right. by apply sub_pos_inf_l.
    + left. rewrite is_nan_spec, FloatAxioms.sub_spec, Ev. done.
  - pose proof (tmin_elem P p Hmin) as Hpin.
    apply elem_of_entries in Hpin as (i & j & Hcell).
    apply (centre_of_mass_top n m P p i j (p - p)); [done..| |].
    { unfold sub_scalar. by rewrite cell_fmap, Hcell. }
    left. by apply sub_self_nonfinite.
Qed.

(** [translate_tip_mean] raises for a tip without a cell (the
    [RuntimeError] of [torch.min]) and for a tip with a NaN or an
    infinity among its entries (the [ValueError] of [round]: the centre
    of mass is then a NaN). *)
Theorem translate_tip_mean_refuses n m P :
  rect n m P →
  ((n = 0 ∨ m = 0)%nat → translate_tip_mean P = Raise RuntimeError) ∧
  ((0 < n)%nat → (0 < m)%nat →
   (∃ v, v ∈ entries P ∧ finite v = false) →
   translate_tip_mean P = Raise ValueError).
Proof.
  intros HP. split.
  - intros Hnm. unfold translate_tip_mean, tmin.
    rewrite (entries_empty n m P HP Hnm).
    destruct (size P) as [tip_xsiz tip_ysiz].
    by destruct (compute_xc_yc P) as [xc yc].
  - exact (translate_tip_mean_nonfinite n m P HP).
Qed.
End Refused.

Lemma translate_tip_mean_refuses_witness :
  translate_tip_mean [[0; -1]; [neg_infinity; 0]]%float = Raise ValueError.
Proof.
  assert (rect 2 2 [[0; -1]; [neg_infinity; 0]]%float) as HP
    by (split; [reflexivity|repeat constructor]).
  apply (proj2 (translate_tip_mean_refuses 2 2 _ HP)); [lia|lia|].
  exists neg_infinity. split; [|reflexivity].
  apply elem_of_entries. by exists 1%nat, 0%nat.
Defined.

(** ** Recentring as a translation *)

Lemma window_inside n c id (i : nat) :
  0 ≤ c < n → 0 ≤ id < n → Z.of_nat i < n →
  slice_inside (window_dst n c id) i =
  bool_decide (0 ≤ Z.of_nat i + id - c < n).
Proof.
  intros Hc Hid Hi. unfold slice_inside, window_dst, slice_bounds.
  cbn [fst snd].
  destruct (c + Z.max (- c) (- id) <? 0) eqn:E1; [lia|].
  destruct (c + Z.min (n - c) (n - id) <? 0) eqn:E2; [lia|].
  apply bool_decide_ext. lia.
Qed.

Lemma window_pick n c id (i : nat) :
  0 ≤ c < n → 0 ≤ id < n → 0 ≤ Z.of_nat i + id - c < n →
  slice_pick (window_dst n c id) (window_src n c id) i =
  Z.to_nat (Z.of_nat i + id - c).
Proof.
  intros Hc Hid Hi. unfold slice_pick.
  rewrite bool_decide_eq_true_2 by (by apply window_extent).
  unfold window_dst, window_src, slice_bounds. cbn [fst snd].
  destruct (id + Z.max (- c) (- id) <? 0) eqn:E1; [lia|].
  destruct (c + Z.max (- c) (- id) <? 0) eqn:E3; [lia|].
  lia.
Qed.

(** When the rounded centre of mass [(id_x, id_y)] is a cell of the
    tip, [translate_tip_mean] returns the tip translated by
    [(xc - id_x, yc - id_y)], which puts that cell on the centre: the
    cell [(i, j)] of the result is the cell
    [(i + id_x - xc, j + id_y - yc)] of the tip where the tip has one,
    and [min(P)] elsewhere.  What leaves the tip on one side does not
    come back on the other. *)
Theorem translate_tip_mean_shift n m P p_min id_x id_y :
  rect n m P → (0 < n)%nat → (0 < m)%nat →
  tmin P = Ok p_min → centre_of_mass P p_min = Ok (id_x, id_y) →
  0 ≤ id_x < Z.of_nat n → 0 ≤ id_y < Z.of_nat m →
  ∃ P', translate_tip_mean P = Ok P' ∧ rect n m P' ∧
    ∀ i j, (i < n)%nat → (j < m)%nat →
      cell P' i j =
      let k := Z.of_nat i + id_x - (compute_xc_yc P).1 in
      let l := Z.of_nat j + id_y - (compute_xc_yc P).2 in
      if bool_decide (0 ≤ k < Z.of_nat n ∧ 0 ≤ l < Z.of_nat m)
      then cell P (Z.to_nat k) (Z.to_nat l) else Some p_min.
Proof.
  intros HP Hn Hm Hmin Hcom Hx Hy.
  destruct (translate_tip_mean_returns n m P p_min id_x id_y
              HP Hn Hm Hmin Hcom Hx Hy) as [P' Ht].
  exists P'. split; [exact Ht|].
  rewrite (translate_tip_mean_intro n m P _ _ _ HP Hn Hmin Hcom) in Ht.
  split; [eapply assign_slice_rect; [exact Ht|by apply rect_full_like]|].
  intros i j Hi Hj. rewrite compute_xc_yc_eq, (rect_size n m P HP Hn).
  cbn [fst snd]. cbv zeta.
  pose proof (round_half_range (Z.of_nat n) ltac:(lia)) as Hxc.
  pose proof (round_half_range (Z.of_nat m) ltac:(lia)) as Hyc.
  rewrite (assign_slice_cell _ _ _ _ _ _ _ i j Ht), cell_full_like.
  destruct (cell_is_Some n m P i j HP Hi Hj) as [old ->]. simpl.
  rewrite !window_inside by (done || lia).
  repeat case_bool_decide; simpl; try done; try lia.
  rewrite !window_pick by done.
  destruct (cell_is_Some n m P
              (Z.to_nat (Z.of_nat i + id_x - round_half (Z.of_nat n - 1)))
              (Z.to_nat (Z.of_nat j + id_y - round_half (Z.of_nat m - 1)))
              HP ltac:(lia) ltac:(lia)) as [v ->].
  done.
Qed.

Lemma translate_tip_mean_shift_witness :
  ∃ P', translate_tip_mean [[1]; [0]; [0]; [1]; [3]]%float = Ok P' ∧
    rect 5 1 P' ∧
    ∀ i j, (i < 5)%nat → (j < 1)%nat →
      cell P' i j =
      let k := Z.of_nat i + 3 -
               (compute_xc_yc [[1]; [0]; [0]; [1]; [3]]%float).1 in
      let l := Z.of_nat j + 0 -
               (compute_xc_yc [[1]; [0]; [0]; [1]; [3]]%float).2 in
      if bool_decide (0 ≤ k < Z.of_nat 5 ∧ 0 ≤ l < Z.of_nat 1)
      then cell [[1]; [0]; [0]; [1]; [3]]%float (Z.to_nat k) (Z.to_nat l)
      else Some 0%float.
Proof.
  assert (rect 5 1 [[1]; [0]; [0]; [1]; [3]]%float) as HP
    by (split; [reflexivity|repeat constructor]).
  apply (translate_tip_mean_shift 5 1 _ 0%float 3 0 HP);
    [lia|lia|vm_compute; reflexivity|vm_compute; reflexivity|lia|lia].
Defined.

(** ** Tips of one cell *)

Section OneCell.
#[local] Open Scope float_scope.

Lemma sub_self x : finite x = true → x - x = 0.
Proof.
  unfold finite. intros Hx. apply Prim2SF_inj.
  rewrite FloatAxioms.sub_spec.
  destruct (Prim2SF x) as [s|s| |s m e]; try done.
  - by destruct s.
  - unfold SF64sub, SFsub. by rewrite Z.sub_diag.
Qed.

(** A tip of one cell with a real entry is returned as it is: its
    weight [x - x] is a zero, all weights are set to 1 and the centre of
    mass is the cell. *)
Theorem translate_tip_mean_1x1 x :
  finite x = true → translate_tip_mean [[x]] = Ok [[x]].
Proof.
  intros Hx.
  apply (translate_tip_mean_centred 1 1 [[x]] x);
    [split; [done|by repeat constructor]|lia|lia|done|].
  unfold centre_of_mass, sub_scalar. cbn [size length fmap list_fmap].
  change (s_sub x x) with (x - x). rewrite (sub_self x Hx).
  vm_compute. reflexivity.
Qed.
End OneCell.

Lemma translate_tip_mean_1x1_witness :
  translate_tip_mean [[(-2.5)%float]] = Ok [[(-2.5)%float]].
Proof. apply translate_tip_mean_1x1. reflexivity. Defined.

(** ** The reconstruction loop: idle runs, the trace, divergence *)

Section Loop.
#[local] Open Scope float_scope.
Context {opt_state : Type}.
Variable AdamW : tensor float → float → float → opt_state.
Variable backward : tensor float → tensor float → tensor float.
Variable step :
  opt_state → tensor float → tensor float → opt_state * tensor float.

(** One epoch: lines 115 to 130. *)
Let epoch (images : list (tensor float)) (_ : Z)
    (s : opt_state * tensor float * list float)
  : result (opt_state * tensor float * list float) :=
  let '(opt, tip, loss_train) := s in
  s' ←ᵣ for_ images (opt, tip, 0) (frame_step backward step);
  let '(opt, tip, loss_tmp) := s' in
  Ok (opt, tip, loss_train ++ [loss_tmp]).

Lemma differentiable_btr_epochs images tip_size nepoch lr weight_decay :
  differentiable_btr AdamW backward step images tip_size nepoch lr weight_decay
  = (s ←ᵣ for_ (py_range 0 nepoch)
            (AdamW (zeros tip_size.1 tip_size.2) lr weight_decay,
             zeros tip_size.1 tip_size.2, [])
            (epoch images);
     Ok (s.1.2, s.2)).
Proof.
  unfold differentiable_btr, epoch. cbv zeta.
  match goal with |- rbind ?a _ = rbind ?b _ =>
    change b with a; by destruct a as [[[opt tip] losses]|e] end.
Qed.

Lemma length_py_range lo hi : length (py_range lo hi) = Z.to_nat (hi - lo).
Proof. unfold py_range. apply length_seqZ. Qed.

Lemma epochs_trace images (l : list Z) s r :
  for_ l s (epoch images) = Ok r →
  length r.2 = (length s.2 + length l)%nat.
Proof.
  revert s. induction l as [|k l IH]; intros s; simpl.
  - intros [= <-]. lia.
  - destruct s as [[opt tip] losses]. unfold epoch at 1.
    destruct (for_ images _ _) as [[[opt' tip'] loss]|]; [|done].
    cbn [rbind]. intros Hr. rewrite (IH _ Hr). cbn [snd].
    rewrite length_app. simpl. lia.
Qed.

Lemma epochs_idle (l : list Z) opt tip losses :
  for_ l (opt, tip, losses) (epoch []) =
  Ok (opt, tip, losses ++ replicate (length l) 0).
Proof.
  revert losses. induction l as [|k l IH]; intros losses; simpl.
  - by rewrite app_nil_r.
  - rewrite IH. by rewrite <- app_assoc.
Qed.

(** A run that returns has appended one loss for each epoch. *)
Theorem loss_trace_length images tip_size nepoch lr weight_decay tip losses :
  differentiable_btr AdamW backward step images tip_size nepoch lr weight_decay
    = Ok (tip, losses) →
  length losses = Z.to_nat nepoch.
Proof.
  rewrite differentiable_btr_epochs.
  destruct (for_ _ _ _) as [s|] eqn:E; [|done]. cbn [rbind].
  intros [= _ <-]. rewrite (epochs_trace _ _ _ _ E), length_py_range.
  simpl. f_equal. lia.
Qed.

(** Without a frame, or without an epoch ([nepoch <= 0]), nothing is
    optimized: the run returns the initial tip of zeros and the loss 0.0
    for each epoch, and never calls the optimizer. *)
Theorem differentiable_btr_idle images tip_size nepoch lr weight_decay :
  images = [] ∨ nepoch ≤ 0 →
  differentiable_btr AdamW backward step images tip_size nepoch lr weight_decay
  = Ok (zeros tip_size.1 tip_size.2, replicate (Z.to_nat nepoch) 0).
Proof.
  intros Hidle. rewrite differentiable_btr_epochs.
  destruct Hidle as [-> | Hn].
  - rewrite epochs_idle. cbn [rbind fst snd]. by rewrite length_py_range, Z.sub_0_r.
  - unfold py_range. rewrite seqZ_nil by lia. simpl.
    by replace (Z.to_nat nepoch) with 0%nat by lia.
Qed.

(** [torch.clamp(tip, max=0.0)] keeps a NaN and minus infinity, so when
    [optimizer.step()] leaves one of them in the tip the iteration of
    lines 117 to 127 raises the [ValueError] of [translate_tip_mean]
    and with it the run. *)
Theorem frame_step_diverged h w n m image opt tip loss_tmp v :
  rect h w image → rect n m tip → (0 < n)%nat → (0 < m)%nat →
  rect n m (step opt tip (backward image tip)).2 →
  v ∈ entries (step opt tip (backward image tip)).2 →
  is_nan v = true ∨ v = neg_infinity →
  frame_step backward step image (opt, tip, loss_tmp) = Raise ValueError.
Proof.
  intros Himage Htip Hn Hm Hrect Hv Hbad. unfold frame_step.
  destruct (ierosion_cells h w n m image tip Himage Htip)
    as (e & He & Herect & _).
  destruct (idilation_cells h w n m e tip Herect Htip) as (d & Hd & _).
  unfold opening at 1. rewrite He. cbn [rbind]. rewrite Hd. cbn [rbind].
  destruct (step opt tip (backward image tip)) as [opt' tip'].
  cbn [snd] in Hrect, Hv.
  rewrite (translate_tip_mean_nonfinite n m (clamp_max tip' 0));
    [done|by apply rect_fmap_cells|done|done|].
  exists v. split.
  - unfold clamp_max. rewrite entries_fmap. apply list_elem_of_fmap.
    exists v. split; [|done].
    destruct Hbad as [Hnan | ->]; [by rewrite Hnan|]. reflexivity.
  - destruct Hbad as [Hnan | ->]; [|reflexivity].
    unfold finite. apply is_nan_spec in Hnan. by rewrite Hnan.
Qed.
End Loop.

Lemma loss_trace_length_witness :
  differentiable_btr stateless no_grad
    (scripted_step [2; 3; 3; 2; 0]%float)
    [[[1]; [4]; [2]; [0]; [3]]%float] (5, 1)%nat 1 0.1%float 0%float
  = Ok ([[-3]; [-3]; [-2]; [0]; [-3]]%float, [0.20000000000000001%float]) ∧
  length [0.20000000000000001%float] = Z.to_nat 1.
Proof.
  assert (differentiable_btr stateless no_grad
            (scripted_step [2; 3; 3; 2; 0]%float)
            [[[1]; [4]; [2]; [0]; [3]]%float] (5, 1)%nat 1 0.1%float 0%float
          = Ok ([[-3]; [-3]; [-2]; [0]; [-3]]%float,
                [0.20000000000000001%float])) as Hrun
    by (vm_compute; reflexivity).
  split; [exact Hrun|].
  exact (loss_trace_length stateless no_grad
           (scripted_step [2; 3; 3; 2; 0]%float) _ _ _ _ _ _ _ Hrun).
Defined.

Lemma differentiable_btr_idle_witness :
  differentiable_btr stateless no_grad frozen_step [] (2, 3)%nat 2
    0.1%float 0%float
  = Ok (zeros 2 3, replicate (Z.to_nat 2) 0%float).
Proof.
  apply (differentiable_btr_idle stateless no_grad frozen_step
           [] (2, 3)%nat 2 0.1%float 0%float).
  by left.
Defined.

Lemma frame_step_diverged_witness :
  frame_step no_grad (scripted_step [infinity; 0]%float)
    [[1; 2]]%float (tt, [[0]; [0]]%float, 0%float)
  = Raise ValueError.
Proof.
  apply (frame_step_diverged no_grad (scripted_step [infinity; 0]%float)
           1 2 2 1 _ tt _ 0%float neg_infinity);
    [split; [reflexivity|repeat constructor]
    |split; [reflexivity|repeat constructor]
    |lia|lia
    |split; [reflexivity|repeat constructor]
    |vm_compute; by left
    |by right].
Defined.

(** ** The simulated image *)

Section Afmize.
#[local] Open Scope float_scope.
Variable arange : float → float → float → result (list float).

(** [afmize] is the dilation of the rendered surface: for at least one
    atom and every rectangular tip it returns an image with one row for
    each [y] and one column for each [x] of the stage, whose cells are
    those of the dilation of [render] by the tip. *)
Theorem afmize_spec atoms tip cfg xs ys n m :
  stage arange (min_x cfg) (max_x cfg) (resolution_x cfg) = Ok xs →
  stage arange (min_y cfg) (max_y cfg) (resolution_y cfg) = Ok ys →
  atoms ≠ [] → rect n m tip →
  ∃ image, afmize arange atoms tip cfg = Ok image ∧
    idilation (render atoms xs ys) tip = Ok image ∧
    rect (length ys) (length xs) image ∧
    ∀ i j, (i < length ys)%nat → (j < length xs)%nat →
      is_Some (cell image i j) ∧
      cell image i j = dilate_cell (render atoms xs ys) tip i j.
Proof.
  intros Hxs Hys Hatoms Htip. unfold afmize.
  rewrite (surfing_render arange atoms cfg xs ys Hatoms Hxs Hys).
  cbn [rbind].
  destruct (idilation_cells (length ys) (length xs) n m
              (render atoms xs ys) tip (rect_render atoms xs ys) Htip)
    as (image & Himage & Hrect & Hcells).
  exists image. split; [exact Himage|]. split; [exact Himage|].
  split; [exact Hrect|exact Hcells].
Qed.

(** [afmize] raises what [surfing] raises, whatever the tip: the
    exception of [torch.arange] for either axis, and [IndexError] for a
    molecule without atoms. *)
Theorem afmize_raises atoms tip cfg :
  (∀ e, stage arange (min_x cfg) (max_x cfg) (resolution_x cfg) = Raise e →
        afmize arange atoms tip cfg = Raise e) ∧
  (∀ xs e,
     stage arange (min_x cfg) (max_x cfg) (resolution_x cfg) = Ok xs →
     stage arange (min_y cfg) (max_y cfg) (resolution_y cfg) = Raise e →
     afmize arange atoms tip cfg = Raise e) ∧
  (∀ xs ys,
     stage arange (min_x cfg) (max_x cfg) (resolution_x cfg) = Ok xs →
     stage arange (min_y cfg) (max_y cfg) (resolution_y cfg) = Ok ys →
     atoms = [] → afmize arange atoms tip cfg = Raise IndexError).
Proof.
  split; [|split].
  - intros e Hxs. unfold afmize, surfing. by rewrite Hxs.
  - intros xs e Hxs Hys. unfold afmize, surfing. by rewrite Hxs, Hys.
  - intros xs ys Hxs Hys ->. unfold afmize.
    by rewrite (surfing_no_atoms arange cfg xs ys Hxs Hys).
Qed.

(** With the ideal tip, one cell of height zero, the image is the
    surface itself, entry by entry. *)
Theorem afmize_point_tip atoms cfg surface z :
  surfing arange atoms cfg = Ok surface → no_nan surface →
  (z =? 0) = true →
  ∃ image, afmize arange atoms [[z]] cfg = Ok image ∧ numeq image surface.
Proof.
  intros Hs Hnan Hz. unfold afmize. rewrite Hs. cbn [rbind].
  rewrite idilation_1x1_float. eexists. split; [reflexivity|].
  unfold add_scalar. apply numeq_fmap.
  eapply List.Forall_impl; [|exact Hnan]. intros row Hrow.
  eapply List.Forall_impl; [|exact Hrow]. intros a Ha.
  by apply add_zero_r.
Qed.

Lemma render_point_skip l1 a l2 x y :
  within a x y = false →
  render_point (l1 ++ a :: l2) x y = render_point (l1 ++ l2) x y.
Proof.
  intros Ha. unfold render_point.
  rewrite !list.filter_app, filter_cons_False by (by rewrite Ha). done.
Qed.

Lemma render_skip l1 a l2 xs ys :
  (∀ x y, x ∈ xs → y ∈ ys → within a x y = false) →
  render (l1 ++ a :: l2) xs ys = render (l1 ++ l2) xs ys.
Proof.
  intros Ha. unfold render. f_equal.
  apply list_fmap_ext. intros k y Hy. apply list_fmap_ext. intros k' x Hx.
  apply render_point_skip, Ha; by eapply list_elem_of_lookup_2.
Qed.

(** An atom whose sphere meets the vertical line of no grid point
    ([(x - ax)^2 + (y - ay)^2 < r^2] nowhere on the stage) changes
    nothing: both renderers return the field of the other atoms. *)
Theorem surfing_far_atom l1 a l2 cfg xs ys :
  stage arange (min_x cfg) (max_x cfg) (resolution_x cfg) = Ok xs →
  stage arange (min_y cfg) (max_y cfg) (resolution_y cfg) = Ok ys →
  (∀ x y, x ∈ xs → y ∈ ys → within a x y = false) →
  surfing_old arange (l1 ++ a :: l2) cfg = surfing_old arange (l1 ++ l2) cfg ∧
  (l1 ++ l2 ≠ [] →
   surfing arange (l1 ++ a :: l2) cfg = surfing arange (l1 ++ l2) cfg).
Proof.
  intros Hxs Hys Ha. split.
  - rewrite !(surfing_old_render arange _ cfg xs ys Hxs Hys).
    by rewrite (render_skip l1 a l2 xs ys Ha).
  - intros Hne.
    rewrite (surfing_render arange (l1 ++ a :: l2) cfg xs ys);
      [|by destruct l1|done..].
    rewrite (surfing_render arange (l1 ++ l2) cfg xs ys) by done.
    by rewrite (render_skip l1 a l2 xs ys Ha).
Qed.
End Afmize.

Lemma afmize_spec_witness :
  ∃ image,
    afmize arange_model [Atom 0.5 0.5 1 1]%float [[0; -1]]%float unit_stage
      = Ok image ∧
    idilation (render [Atom 0.5 0.5 1 1]%float [0.5; 1.5]%float
                 [0.5; 1.5]%float) [[0; -1]]%float = Ok image ∧
    rect 2 2 image ∧
    ∀ i j, (i < 2)%nat → (j < 2)%nat →
      is_Some (cell image i j) ∧
      cell image i j =
      dilate_cell (render [Atom 0.5 0.5 1 1]%float [0.5; 1.5]%float
                     [0.5; 1.5]%float) [[0; -1]]%float i j.
Proof.
  assert (stage arange_model 0 2 1 = Ok [0.5; 1.5]%float) as Hst
    by (vm_compute; reflexivity).
  apply (afmize_spec arange_model [Atom 0.5 0.5 1 1]%float [[0; -1]]%float
           unit_stage _ _ 1 2 Hst Hst);
    [discriminate|split; [reflexivity|repeat constructor]].
Defined.

Lemma afmize_point_tip_witness :
  ∃ image,
    afmize arange_model [Atom 0.5 0.5 1 1]%float [[0%float]] unit_stage
      = Ok image ∧
    numeq image [[0; 0]; [2; 0]]%float.
Proof.
  apply (afmize_point_tip arange_model [Atom 0.5 0.5 1 1]%float unit_stage
           [[0; 0]; [2; 0]]%float 0%float);
    [vm_compute; reflexivity|by repeat constructor|reflexivity].
Defined.

Lemma surfing_far_atom_witness :
  surfing_old arange_model
    ([Atom 0.5 0.5 1 1] ++ Atom 9 9 5 1 :: [])%float unit_stage
  = surfing_old arange_model ([Atom 0.5 0.5 1 1] ++ [])%float unit_stage.
Proof.
  assert (stage arange_model 0 2 1 = Ok [0.5; 1.5]%float) as Hst
    by (vm_compute; reflexivity).
  assert (∀ x, x ∈ [0.5; 1.5]%float → x = 0.5%float ∨ x = 1.5%float)
    as Hmem.
  { intros x Hx. apply elem_of_cons in Hx as [-> | Hx]; [by left|].
    apply elem_of_cons in Hx as [-> | Hx]; [by right|].
    by apply elem_of_nil in Hx. }
  assert (∀ x y, x ∈ [0.5; 1.5]%float → y ∈ [0.5; 1.5]%float →
            within (Atom 9 9 5 1)%float x y = false) as Hfar.
  { intros x y Hx Hy.
    destruct (Hmem x Hx) as [-> | ->]; destruct (Hmem y Hy) as [-> | ->];
      reflexivity. }
  exact (proj1 (surfing_far_atom arange_model [Atom 0.5 0.5 1 1]%float
                  (Atom 9 9 5 1)%float [] unit_stage _ _ Hst Hst Hfar)).
Defined.

(** ** Sums of real numbers are no NaN *)

Section Rounding.

Lemma shr_1_nonneg mrs : 0 ≤ shr_m mrs → 0 ≤ shr_m (shr_1 mrs).
Proof.
  destruct mrs as [m r s]. simpl.
  destruct m as [|p|p]; [done| |lia]. by destruct p.
Qed.

Lemma iter_shr_1_nonneg p mrs :
  0 ≤ shr_m mrs → 0 ≤ shr_m (SpecFloat.iter_pos shr_1 p mrs).
Proof.
  revert mrs. induction p as [p IH|p IH|]; intros mrs Hm; simpl.
  - by apply IH, IH, shr_1_nonneg.
  - by apply IH, IH.
  - by apply shr_1_nonneg.
Qed.

Lemma shr_nonneg mrs e n : 0 ≤ shr_m mrs → 0 ≤ shr_m (shr mrs e n).1.
Proof.
  intros Hm. unfold shr. destruct n as [|p|p]; [done| |done]. cbn [fst].
  by apply iter_shr_1_nonneg.
Qed.

Lemma shr_fexp_nonneg m e l :
  0 ≤ m → 0 ≤ shr_m (shr_fexp prec emax m e l).1.
Proof.
  intros Hm. unfold shr_fexp. apply shr_nonneg. by destruct l as [|[]].
Qed.

Lemma round_nearest_even_nonneg m l : 0 ≤ m → 0 ≤ round_nearest_even m l.
Proof.
  intros Hm. unfold round_nearest_even.
  destruct l as [|[]]; [done| |done|]; [destruct (Z.even m)|]; lia.
Qed.

Lemma binary_round_aux_not_nan s m e l :
  0 ≤ m → binary_round_aux prec emax s m e l ≠ S754_nan.
Proof.
  intros Hm. unfold binary_round_aux.
  pose proof (shr_fexp_nonneg m e l Hm) as H1.
  destruct (shr_fexp prec emax m e l) as [mrs' e']. cbn [fst] in H1.
  pose proof (shr_fexp_nonneg
                (round_nearest_even (shr_m mrs') (loc_of_shr_record mrs'))
                e' loc_Exact (round_nearest_even_nonneg _ _ H1)) as H2.
  destruct (shr_fexp prec emax _ e' loc_Exact) as [mrs'' e''].
  cbn [fst] in H2.
  destruct (shr_m mrs'') as [|p|p]; [done| |lia].
  by destruct (e'' <=? emax - prec).
Qed.

Lemma binary_normalize_not_nan m e :
  binary_normalize prec emax m e false ≠ S754_nan.
Proof.
  unfold binary_normalize, binary_round.
  destruct m as [|p|p]; [done|..];
    destruct (shl_align p e _) as [mz ez]; by apply binary_round_aux_not_nan.
Qed.

#[local] Open Scope float_scope.

Lemma add_finite_not_nan a b :
  finite a = true → finite b = true → is_nan (a + b) = false.
Proof.
  unfold finite. intros Ha Hb. apply is_nan_false.
  rewrite FloatAxioms.add_spec.
  destruct (Prim2SF a) as [sa|sa| |sa ma ea]; try done;
    destruct (Prim2SF b) as [sb|sb| |sb mb eb]; try done.
  - by destruct sa, sb.
  - apply binary_normalize_not_nan.
Qed.

Lemma sub_finite_not_nan a b :
  finite a = true → finite b = true → is_nan (a - b) = false.
Proof.
  unfold finite. intros Ha Hb. apply is_nan_false.
  rewrite FloatAxioms.sub_spec.
  destruct (Prim2SF a) as [sa|sa| |sa ma ea]; try done;
    destruct (Prim2SF b) as [sb|sb| |sb mb eb]; try done.
  - by destruct sa, sb.
  - apply binary_normalize_not_nan.
Qed.
End Rounding.

(** ** A tip that is zero at its centre *)

Section ZeroCentre.
#[local] Open Scope float_scope.
Implicit Types S T : tensor float.

Lemma eqb_sym a b : (a =? b) = true → (b =? a) = true.
Proof.
  rewrite !FloatAxioms.eqb_spec. unfold SFeqb.
  rewrite (SFcompare_antisym (Prim2SF a) (Prim2SF b)).
  by destruct (SFcompare (Prim2SF a) (Prim2SF b)) as [[]|].
Qed.

Lemma fmaximum_not_nan a b :
  is_nan a = false → is_nan b = false → is_nan (fmaximum a b) = false.
Proof. intros Ha Hb. unfold fmaximum. rewrite Ha, Hb. by destruct (a <? b). Qed.

Lemma fminimum_not_nan a b :
  is_nan a = false → is_nan b = false → is_nan (fminimum a b) = false.
Proof. intros Ha Hb. by destruct (fminimum_cases a b) as [-> | ->]. Qed.

Lemma fmaximum_ge_l a b :
  is_nan a = false → is_nan b = false → (a <=? fmaximum a b) = true.
Proof.
  intros Ha Hb. unfold fmaximum. rewrite Ha, Hb.
  destruct (a <? b) eqn:E; [by apply ltb_leb|by apply leb_refl].
Qed.

Lemma fmaximum_ge_r a b :
  is_nan a = false → is_nan b = false → (b <=? fmaximum a b) = true.
Proof.
  intros Ha Hb. unfold fmaximum. rewrite Ha, Hb.
  destruct (a <? b) eqn:E; [by apply leb_refl|by apply leb_total].
Qed.

Lemma running_fmax_ge (term : Z * Z → option float) (l : list (Z * Z)) a v :
  foldl (step_opt fmaximum term) (Some a) l = Some v →
  is_nan a = false →
  (∀ q c, q ∈ l → term q = Some c → is_nan c = false) →
  is_nan v = false ∧ (a <=? v) = true ∧
  ∀ q c, q ∈ l → term q = Some c → (c <=? v) = true.
Proof.
  revert a. induction l as [|p l IH]; intros a; simpl.
  - intros [= <-] Ha _. split; [done|]. split; [by apply leb_refl|].
    by intros q c ?%elem_of_nil.
  - destruct (term p) as [c|] eqn:Hp; simpl;
      [|by rewrite foldl_step_None].
    intros Hv Ha Hl.
    assert (is_nan c = false) as Hc by (eapply Hl; [by left|done]).
    destruct (IH _ Hv (fmaximum_not_nan a c Ha Hc)) as (Hnv & Hle & Hrest).
    { intros q c' Hq. apply Hl. by right. }
    split; [done|]. split.
    + apply (leb_trans _ (fmaximum a c)); [by apply fmaximum_ge_l|done].
    + intros q c' [-> | Hq]%elem_of_cons Hq'.
      * rewrite Hp in Hq'. injection Hq' as <-.
        apply (leb_trans _ (fmaximum a c)); [by apply fmaximum_ge_r|done].
      * by eapply Hrest.
Qed.

Lemma running_fmin_le (term : Z * Z → option float) (l : list (Z * Z)) a v :
  foldl (step_opt fminimum term) (Some a) l = Some v →
  is_nan a = false →
  (∀ q c, q ∈ l → term q = Some c → is_nan c = false) →
  is_nan v = false ∧ (v <=? a) = true ∧
  ∀ q c, q ∈ l → term q = Some c → (v <=? c) = true.
Proof.
  revert a. induction l as [|p l IH]; intros a; simpl.
  - intros [= <-] Ha _. split; [done|]. split; [by apply leb_refl|].
    by intros q c ?%elem_of_nil.
  - destruct (term p) as [c|] eqn:Hp; simpl;
      [|by rewrite foldl_step_None].
    intros Hv Ha Hl.
    assert (is_nan c = false) as Hc by (eapply Hl; [by left|done]).
    destruct (IH _ Hv (fminimum_not_nan a c Ha Hc)) as (Hnv & Hle & Hrest).
    { intros q c' Hq. apply Hl. by right. }
    split; [done|]. split.
    + apply (leb_trans _ (fminimum a c)); [done|by apply fminimum_le_l].
    + intros q c' [-> | Hq]%elem_of_cons Hq'.
      * rewrite Hp in Hq'. injection Hq' as <-.
        apply (leb_trans _ (fminimum a c)); [done|by apply fminimum_le_r].
      * by eapply Hrest.
Qed.

Lemma centre_in_footprint n m T :
  rect n m T → (0 < n)%nat → (0 < m)%nat → (0, 0)%Z ∈ footprint T.
Proof.
  intros HT Hn Hm. unfold footprint.
  rewrite compute_xc_yc_eq, (rect_size n m T HT Hn). cbn [fst snd].
  pose proof (round_half_range (Z.of_nat n) ltac:(lia)).
  pose proof (round_half_range (Z.of_nat m) ltac:(lia)).
  unfold py_range. apply list_elem_of_bind. exists 0%Z. split.
  - apply list_elem_of_fmap. exists 0%Z. split; [done|].
    apply elem_of_seqZ. lia.
  - apply elem_of_seqZ. lia.
Qed.

Lemma wrap_0 i h : (i < h)%nat → wrap i 0 (Z.of_nat h) = i.
Proof. intros Hi. unfold wrap. rewrite Z.add_0_r, Z.mod_small; lia. Qed.

Lemma dilate_term_finite S T i j q c :
  all_finite S → all_finite T →
  dilate_term S T i j q = Some c → is_nan c = false.
Proof.
  intros HS HT. unfold dilate_term.
  destruct (compute_xc_yc T) as [xc yc], (size S) as [h w].
  destruct (cell S _ _) as [s|] eqn:Hs; [|done].
  destruct (cell T _ _) as [t|] eqn:Ht; [|done]. simpl. intros [= <-].
  apply add_finite_not_nan.
  - exact (Forall_cell _ S _ _ s HS Hs).
  - exact (Forall_cell _ T _ _ t HT Ht).
Qed.

Lemma erode_term_finite S T i j q c :
  all_finite S → all_finite T →
  erode_term S T i j q = Some c → is_nan c = false.
Proof.
  intros HS HT. unfold erode_term.
  destruct (compute_xc_yc T) as [xc yc], (size S) as [h w].
  destruct (cell S _ _) as [s|] eqn:Hs; [|done].
  destruct (cell T _ _) as [t|] eqn:Ht; [|done]. simpl. intros [= <-].
  apply sub_finite_not_nan.
  - exact (Forall_cell _ S _ _ s HS Hs).
  - exact (Forall_cell _ T _ _ t HT Ht).
Qed.

Lemma centre_terms h w n m S T i j a z :
  rect h w S → rect n m T → (0 < n)%nat → (0 < m)%nat →
  cell S i j = Some a →
  item T (compute_xc_yc T).1 (compute_xc_yc T).2 = Ok z →
  dilate_term S T i j (0, 0)%Z = Some (a + z) ∧
  erode_term S T i j (0, 0)%Z = Some (a - z).
Proof.
  intros HS HT Hn Hm Ha Hz.
  destruct (cell_Some_lt h w S i j a HS Ha) as [Hi Hj].
  unfold dilate_term, erode_term.
  rewrite (rect_size h w S HS) by lia.
  assert (cell T (Z.to_nat ((compute_xc_yc T).1 + 0))
                 (Z.to_nat ((compute_xc_yc T).2 + 0)) = Some z) as Hc.
  { rewrite !Z.add_0_r. revert Hz.
    rewrite compute_xc_yc_eq, (rect_size n m T HT Hn). cbn [fst snd].
    intros Hz.
    destruct (item_cell n m T (round_half (Z.of_nat n - 1))
                (round_half (Z.of_nat m - 1)) HT) as (v & Hv & Hcell);
      [apply round_half_range; lia..|].
    rewrite Hz in Hv. by injection Hv as <-. }
  destruct (compute_xc_yc T) as [xc yc]. cbn [fst snd] in *.
  change (- 0)%Z with 0%Z. rewrite !wrap_0 by done.
  by rewrite Ha, Hc.
Qed.

Lemma zero_centre_sandwich h w n m S T z :
  rect h w S → rect n m T → (0 < n)%nat → (0 < m)%nat →
  all_finite S → all_finite T →
  item T (compute_xc_yc T).1 (compute_xc_yc T).2 = Ok z →
  (z =? 0) = true →
  ∃ d e, idilation S T = Ok d ∧ ierosion S T = Ok e ∧
    ∀ i j a, cell S i j = Some a →
      ∃ x y, cell d i j = Some x ∧ cell e i j = Some y ∧
             is_nan x = false ∧ is_nan y = false ∧
             (y <=? a) = true ∧ (a <=? x) = true.
Proof.
  intros HS HT Hn Hm HfS HfT Hz Hz0.
  destruct (idilation_cells h w n m S T HS HT) as (d & Hd & Hdr & Hdc).
  destruct (ierosion_cells h w n m S T HS HT) as (e & He & Her & Hec).
  exists d, e. split; [exact Hd|]. split; [exact He|].
  intros i j a Ha.
  destruct (cell_Some_lt h w S i j a HS Ha) as [Hi Hj].
  destruct (Hdc i j Hi Hj) as [[x Hx] Hdx].
  destruct (Hec i j Hi Hj) as [[y Hy] Hey].
  exists x, y. split; [exact Hx|]. split; [exact Hy|].
  destruct (centre_terms h w n m S T i j a z HS HT Hn Hm Ha Hz)
    as [Hdt Het].
  pose proof (centre_in_footprint n m T HT Hn Hm) as Hin.
  pose proof (Forall_cell _ S i j a HfS Ha) as Hfa. simpl in Hfa.
  pose proof (finite_not_nan a Hfa) as Hna.
  rewrite Hx in Hdx. rewrite Hy in Hey. symmetry in Hdx, Hey.
  destruct (running_fmax_ge _ _ _ _ Hdx eq_refl) as (Hnx & _ & Hge).
  { intros q c _. by apply dilate_term_finite. }
  destruct (running_fmin_le _ _ _ _ Hey eq_refl) as (Hny & _ & Hle).
  { intros q c _. by apply erode_term_finite. }
  split; [exact Hnx|]. split; [exact Hny|]. split.
  - eapply leb_trans; [exact (Hle _ _ Hin Het)|].
    by apply eqb_leb, sub_zero_r.
  - eapply leb_trans; [|exact (Hge _ _ Hin Hdt)].
    by apply eqb_leb, eqb_sym, add_zero_r.
Qed.

(** For a surface and a tip of real numbers, the tip zero at its centre
    [tip[xc, yc]], the erosion is at most the surface and the dilation
    at least the surface at every cell, exactly so in binary64 (adding
    a zero does not round), and neither result has a NaN. *)
Theorem zero_centre_bounds h w n m S T z :
  rect h w S → rect n m T → (0 < n)%nat → (0 < m)%nat →
  all_finite S → all_finite T →
  item T (compute_xc_yc T).1 (compute_xc_yc T).2 = Ok z →
  (z =? 0) = true →
  ∃ d e, idilation S T = Ok d ∧ ierosion S T = Ok e ∧
    ∀ i j a, cell S i j = Some a →
      ∃ x y, cell d i j = Some x ∧ cell e i j = Some y ∧
             is_nan x = false ∧ is_nan y = false ∧
             (y <=? a) = true ∧ (a <=? x) = true.
Proof.
  intros HS HT Hn Hm HfS HfT Hz Hz0.
  exact (zero_centre_sandwich h w n m S T z HS HT Hn Hm HfS HfT Hz Hz0).
Qed.

(** The simulated image is nowhere below the molecular surface when the
    tip is zero at its centre: for a surface and a tip of real numbers
    every cell of [afmize] is at least the cell of [surfing]. *)
Theorem afmize_above_surface (arange : float → float → float →
                                       result (list float))
    atoms cfg h w n m surface tip z :
  surfing arange atoms cfg = Ok surface →
  rect h w surface → rect n m tip → (0 < n)%nat → (0 < m)%nat →
  all_finite surface → all_finite tip →
  item tip (compute_xc_yc tip).1 (compute_xc_yc tip).2 = Ok z →
  (z =? 0) = true →
  ∃ image, afmize arange atoms tip cfg = Ok image ∧
    ∀ i j a, cell surface i j = Some a →
      ∃ x, cell image i j = Some x ∧ (a <=? x) = true.
Proof.
  intros Hs HS HT Hn Hm HfS HfT Hz Hz0. unfold afmize. rewrite Hs.
  cbn [rbind].
  destruct (zero_centre_sandwich h w n m surface tip z
              HS HT Hn Hm HfS HfT Hz Hz0) as (d & e & Hd & _ & Hcells).
  exists d. split; [exact Hd|]. intros i j a Ha.
  destruct (Hcells i j a Ha) as (x & y & Hx & _ & _ & _ & _ & Hle).
  by exists x.
Qed.
End ZeroCentre.

Lemma zero_centre_bounds_witness :
  ∃ d e,
    idilation [[1; 5; 2]; [4; 0; 3]]%float [[-1; 0; -2]]%float = Ok d ∧
    ierosion [[1; 5; 2]; [4; 0; 3]]%float [[-1; 0; -2]]%float = Ok e ∧
    ∀ i j a, cell [[1; 5; 2]; [4; 0; 3]]%float i j = Some a →
      ∃ x y, cell d i j = Some x ∧ cell e i j = Some y ∧
             is_nan x = false ∧ is_nan y = false ∧
             (y <=? a)%float = true ∧ (a <=? x)%float = true.
Proof.
  apply (zero_centre_bounds 2 3 1 3 _ _ 0%float);
    [split; [reflexivity|repeat constructor]
    |split; [reflexivity|repeat constructor]
    |lia|lia
    |repeat constructor|repeat constructor
    |reflexivity|reflexivity].
Defined.

Lemma afmize_above_surface_witness :
  ∃ image,
    afmize arange_model [Atom 0.5 0.5 1 1]%float [[-1; 0; -2]]%float
      unit_stage = Ok image ∧
    ∀ i j a, cell [[0; 0]; [2; 0]]%float i j = Some a →
      ∃ x, cell image i j = Some x ∧ (a <=? x)%float = true.
Proof.
  apply (afmize_above_surface arange_model [Atom 0.5 0.5 1 1]%float
           unit_stage 2 2 1 3 [[0; 0]; [2; 0]]%float
           [[-1; 0; -2]]%float 0%float);
    [vm_compute; reflexivity
    |split; [reflexivity|repeat constructor]
    |split; [reflexivity|repeat constructor]
    |lia|lia
    |repeat constructor|repeat constructor
    |reflexivity|reflexivity].
Defined.

(** ** The radius table *)

Section Lookup.
Context {K V : Type} `{EqDecision K}.
Implicit Types l : list (K * V).

Lemma filter_key_absent l (k : K) :
  k ∉ l.*1 → filter (λ kv, kv.1 = k) l = [].
Proof.
  induction l as [|[k' v'] l IH]; [done|]. simpl.
  intros Hk. apply not_elem_of_cons in Hk as [Hne Hk].
  rewrite filter_cons_False by (simpl; congruence). by apply IH.
Qed.

(** In a list of items without a repeated key, the item kept for a key
    is the one item that has it. *)
Lemma last_item_unique l (k : K) (v : V) :
  NoDup (l.*1) →
  snd <$> last (filter (λ kv, kv.1 = k) l) = Some v ↔ (k, v) ∈ l.
Proof.
  induction l as [|[k' v'] l IH]; simpl.
  - intros _. split; [done|by intros ?%elem_of_nil].
  - intros [Hk' Hnd]%NoDup_cons. destruct (decide (k' = k)) as [->|Hne].
    + rewrite filter_cons_True by done.
      rewrite (filter_key_absent l k Hk'). simpl. split.
      * intros [= ->]. by left.
      * intros [[= ->]|Hin]%elem_of_cons; [done|].
        destruct Hk'. apply list_elem_of_fmap. by exists (k, v).
    + rewrite filter_cons_False by (simpl; congruence).
      rewrite (IH Hnd). split; [by right|].
      intros [[= -> ->]|Hin]%elem_of_cons; [done|done].
Qed.

Lemma forallb_Forall {X} (q : X → bool) (l : list X) :
  forallb q l = true → Forall (λ x, q x = true) l.
Proof.
  induction l as [|x l IH]; [by constructor|]. simpl.
  intros [Hx Hl]%andb_prop. constructor; [done|by apply IH].
Qed.
End Lookup.

Lemma Atom2Radius_keys : NoDup (Atom2Radius.*1).
Proof. apply (bool_decide_unpack _). vm_compute. exact I. Qed.

(** The table lists 77 names, none of them twice, so that
    [Atom2Radius[name]] is the radius written beside [name] and a name
    that is not listed is a [KeyError].  Every radius lies between 0.12
    and 0.34, except the 1.70 of [CD1], ten times the 0.170 of the
    other carbon names. *)
Theorem Atom2Radius_table :
  length Atom2Radius = 77%nat ∧
  (∀ name r, radius_of name = Some r ↔ (name, r) ∈ Atom2Radius) ∧
  (∀ name, radius_of name = None ↔ name ∉ Atom2Radius.*1) ∧
  (∀ name r, radius_of name = Some r →
     if bool_decide (name = "CD1"%string) then (r =? 1.70)%float = true
     else ((0.12 <=? r) && (r <=? 0.34))%float = true).
Proof.
  split; [reflexivity|]. split; [|split].
  - intros name r. apply last_item_unique, Atom2Radius_keys.
  - intros name. unfold radius_of. split.
    + intros Hnone Hin. apply list_elem_of_fmap in Hin as ([k v] & -> & Hin).
      apply (proj2 (last_item_unique Atom2Radius k v Atom2Radius_keys)) in Hin.
      simpl in Hnone. rewrite Hnone in Hin. done.
    + intros Hout. by rewrite filter_key_absent.
  - intros name r Hr.
    apply (proj1 (last_item_unique Atom2Radius name r Atom2Radius_keys)) in Hr.
    assert (Forall (λ kv : string * float,
              (if bool_decide (kv.1 = "CD1"%string)
               then (kv.2 =? 1.70)%float
               else ((0.12 <=? kv.2) && (kv.2 <=? 0.34))%float) = true)
              Atom2Radius) as Hall.
    { apply forallb_Forall. vm_compute. reflexivity. }
    eapply list.Forall_forall in Hall; [|exact Hr]. simpl in Hall.
    by case_bool_decide.
Qed.

(** ** NaN in the two operators *)

Section Poison.
#[local] Open Scope float_scope.
Implicit Types S T : tensor float.

Lemma fmaximum_nan_l a b : is_nan a = true → is_nan (fmaximum a b) = true.
Proof. intros Ha. unfold fmaximum. by rewrite Ha. Qed.

Lemma fmaximum_nan_r a b : is_nan b = true → is_nan (fmaximum a b) = true.
Proof.
  intros Hb. unfold fmaximum. destruct (is_nan a) eqn:Ha; [done|].
  by rewrite Hb.
Qed.

Lemma running_nan (f : float → float → float)
    (term : Z * Z → option float) (l : list (Z * Z)) a v q c :
  (∀ x y, is_nan x = true → is_nan (f x y) = true) →
  (∀ x y, is_nan y = true → is_nan (f x y) = true) →
  foldl (step_opt f term) (Some a) l = Some v →
  q ∈ l → term q = Some c → is_nan c = true → is_nan v = true.
Proof.
  intros Hl Hr. revert a.
  assert (∀ l a v, foldl (step_opt f term) (Some a) l = Some v →
            is_nan a = true → is_nan v = true) as Hkeep.
  { clear l. intros l. induction l as [|p l IH]; intros a v'; simpl.
    - by intros [= <-].
    - destruct (term p) as [c'|]; simpl; [|by rewrite foldl_step_None].
      intros Hv Ha. eapply IH; [exact Hv|]. by apply Hl. }
  induction l as [|p l IH]; intros a; simpl; [by intros _ ?%elem_of_nil|].
  destruct (term p) as [c'|] eqn:Hp; simpl; [|by rewrite foldl_step_None].
  intros Hv [-> | Hq]%elem_of_cons Hc Hnan.
  - rewrite Hp in Hc. injection Hc as ->.
    eapply Hkeep; [exact Hv|]. by apply Hr.
  - by eapply IH.
Qed.

Lemma elem_of_footprint n m T p :
  rect n m T → (0 < n)%nat →
  p ∈ footprint T ↔
  (- (compute_xc_yc T).1 ≤ p.1 < Z.of_nat n - (compute_xc_yc T).1 ∧
   - (compute_xc_yc T).2 ≤ p.2 < Z.of_nat m - (compute_xc_yc T).2)%Z.
Proof.
  intros HT Hn. destruct p as [px py]. unfold footprint.
  rewrite compute_xc_yc_eq, (rect_size n m T HT Hn). cbn [fst snd].
  unfold py_range. rewrite list_elem_of_bind. split.
  - intros (qx & Hq & Hqx).
    apply list_elem_of_fmap in Hq as (qy & [= -> ->] & Hqy).
    apply elem_of_seqZ in Hqx, Hqy. lia.
  - intros [Hx Hy]. exists px. split.
    + apply list_elem_of_fmap. exists py. split; [done|].
      apply elem_of_seqZ. lia.
    + apply elem_of_seqZ. lia.
Qed.

(** The offset of the tip's cell [(k, l)] and what it contributes. *)
Lemma tip_cell_terms h w n m S T i j k l t :
  rect h w S → rect n m T → (i < h)%nat → (j < w)%nat →
  cell T k l = Some t →
  ∃ p s s', p ∈ footprint T ∧
    dilate_term S T i j p = Some (s + t) ∧
    erode_term S T i j p = Some (s' - t).
Proof.
  intros HS HT Hi Hj Ht.
  destruct (cell_Some_lt n m T k l t HT Ht) as [Hk Hl].
  pose proof (round_half_range (Z.of_nat n) ltac:(lia)) as Hxc.
  pose proof (round_half_range (Z.of_nat m) ltac:(lia)) as Hyc.
  set (p := (Z.of_nat k - (compute_xc_yc T).1,
             Z.of_nat l - (compute_xc_yc T).2)%Z).
  assert (p ∈ footprint T) as Hp.
  { apply (elem_of_footprint n m); [done|lia|]. unfold p. cbn [fst snd].
    rewrite compute_xc_yc_eq, (rect_size n m T HT) by lia.
    cbn [fst snd]. lia. }
  destruct (cell_is_Some h w S (wrap i p.1 (Z.of_nat h))
              (wrap j p.2 (Z.of_nat w)) HS) as [s Hs];
    [apply wrap_lt; lia..|].
  destruct (cell_is_Some h w S (wrap i (- p.1) (Z.of_nat h))
              (wrap j (- p.2) (Z.of_nat w)) HS) as [s' Hs'];
    [apply wrap_lt; lia..|].
  exists p, s, s'. split; [exact Hp|].
  unfold dilate_term, erode_term. rewrite (rect_size h w S HS) by lia.
  destruct (compute_xc_yc T) as [xc yc]. cbn [fst snd] in *.
  rewrite Hs, Hs'. unfold p. cbn [fst snd].
  replace (xc + (Z.of_nat k - xc))%Z with (Z.of_nat k) by lia.
  replace (yc + (Z.of_nat l - yc))%Z with (Z.of_nat l) by lia.
  rewrite !Nat2Z.id, Ht. done.
Qed.

(** A NaN and the two operators.  For a field and a tip of real
    numbers neither result has a NaN (a sum that overflows is an
    infinity).  A NaN anywhere in the tip makes every cell of both
    results a NaN. *)
Theorem morphology_nan h w n m S T :
  rect h w S → rect n m T →
  ∃ d e, idilation S T = Ok d ∧ ierosion S T = Ok e ∧
    (all_finite S → all_finite T → no_nan d ∧ no_nan e) ∧
    ((∃ t, t ∈ entries T ∧ is_nan t = true) →
     ∀ v, v ∈ entries d ∨ v ∈ entries e → is_nan v = true).
Proof.
  intros HS HT.
  destruct (idilation_cells h w n m S T HS HT) as (d & Hd & Hdr & Hdc).
  destruct (ierosion_cells h w n m S T HS HT) as (e & He & Her & Hec).
  exists d, e. split; [exact Hd|]. split; [exact He|]. split.
  - intros HfS HfT. split; apply Forall_entries; intros v Hv;
      apply elem_of_entries in Hv as (i & j & Hv).
    + destruct (cell_Some_lt h w d i j v Hdr Hv) as [Hi Hj].
      destruct (Hdc i j Hi Hj) as [_ Hdx]. rewrite Hv in Hdx.
      symmetry in Hdx.
      destruct (running_fmax_ge _ _ _ _ Hdx eq_refl) as (Hnv & _); [|done].
      intros q c _. by apply dilate_term_finite.
    + destruct (cell_Some_lt h w e i j v Her Hv) as [Hi Hj].
      destruct (Hec i j Hi Hj) as [_ Hey]. rewrite Hv in Hey.
      symmetry in Hey.
      destruct (running_fmin_le _ _ _ _ Hey eq_refl) as (Hnv & _); [|done].
      intros q c _. by apply erode_term_finite.
  - intros (t & Ht & Hnan) v Hv.
    apply elem_of_entries in Ht as (k & l & Ht).
    destruct Hv as [Hv|Hv]; apply elem_of_entries in Hv as (i & j & Hv).
    + destruct (cell_Some_lt h w d i j v Hdr Hv) as [Hi Hj].
      destruct (tip_cell_terms h w n m S T i j k l t HS HT Hi Hj Ht)
        as (p & s & s' & Hp & Hdt & _).
      destruct (Hdc i j Hi Hj) as [_ Hdx]. rewrite Hv in Hdx.
      symmetry in Hdx.
      apply (running_nan fmaximum _ _ _ _ p (s + t)
               fmaximum_nan_l fmaximum_nan_r Hdx Hp Hdt).
      by apply add_nan_r.
    + destruct (cell_Some_lt h w e i j v Her Hv) as [Hi Hj].
      destruct (tip_cell_terms h w n m S T i j k l t HS HT Hi Hj Ht)
        as (p & s & s' & Hp & _ & Het).
      destruct (Hec i j Hi Hj) as [_ Hey]. rewrite Hv in Hey.
      symmetry in Hey.
      apply (running_nan fminimum _ _ _ _ p (s' - t)
               fminimum_nan_l fminimum_nan_r Hey Hp Het).
      by apply sub_nan_r.
Qed.
End Poison.

Lemma morphology_nan_witness :
  ∃ d e,
    idilation [[1; 5; 2]; [4; 0; 3]]%float [[nan; 0]]%float = Ok d ∧
    ierosion [[1; 5; 2]; [4; 0; 3]]%float [[nan; 0]]%float = Ok e ∧
    (all_finite [[1; 5; 2]; [4; 0; 3]]%float → all_finite [[nan; 0]]%float →
     no_nan d ∧ no_nan e) ∧
    ((∃ t, t ∈ entries [[nan; 0]]%float ∧ is_nan t = true) →
     ∀ v, v ∈ entries d ∨ v ∈ entries e → is_nan v = true).
Proof.
  apply (morphology_nan 2 3 1 2);
    split; [reflexivity|repeat constructor|reflexivity|repeat constructor].
Defined.

(** ** Exact arithmetic: the adjunction of the two operators *)

Section Adjunction.
Implicit Types S I T : tensor xint.
Implicit Types a b c x y : xint.

Lemma xleb_refl a : xleb a a = true.
Proof. destruct a; simpl; [done| |done]. by apply bool_decide_eq_true. Qed.

Lemma xleb_trans a b c : xleb a b = true → xleb b c = true → xleb a c = true.
Proof.
  destruct a, b, c; simpl; try done. rewrite !bool_decide_eq_true. lia.
Qed.

Lemma xleb_antisym a b : xleb a b = true → xleb b a = true → a = b.
Proof.
  destruct a, b; simpl; try done. rewrite !bool_decide_eq_true.
  intros ??. f_equal. lia.
Qed.

Lemma xadd_xsub a b (t : Z) :
  xleb (xadd b (Fin t)) a = xleb b (xsub a (Fin t)).
Proof.
  destruct a, b; simpl; try done. apply bool_decide_ext. lia.
Qed.

Lemma xmax_ge_l a b : xleb a (xmax a b) = true.
Proof.
  unfold xmax. destruct (xleb a b) eqn:E; [done|apply xleb_refl].
Qed.

Lemma xmax_ge_r a b : xleb b (xmax a b) = true.
Proof.
  unfold xmax. destruct (xleb a b) eqn:E; [apply xleb_refl|].
  destruct a, b; simpl in *; try done.
  apply bool_decide_eq_false in E. apply bool_decide_eq_true. lia.
Qed.

Lemma xmin_glb a b x :
  xleb x a = true → xleb x b = true → xleb x (xmin a b) = true.
Proof. intros Ha Hb. unfold xmin. by destruct (xleb a b). Qed.

Lemma xmin_le_l a b : xleb (xmin a b) a = true.
Proof.
  unfold xmin. destruct (xleb a b) eqn:E; [apply xleb_refl|].
  destruct a, b; simpl in *; try done.
  apply bool_decide_eq_false in E. apply bool_decide_eq_true. lia.
Qed.

Lemma xmin_le_r a b : xleb (xmin a b) b = true.
Proof.
  unfold xmin. destruct (xleb a b) eqn:E; [done|apply xleb_refl].
Qed.

Lemma xmax_lub a b x :
  xleb a x = true → xleb b x = true → xleb (xmax a b) x = true.
Proof. intros Ha Hb. unfold xmax. by destruct (xleb a b). Qed.

(** The running maximum: above its terms, and below what is above
    them. *)
Lemma running_xmax (term : Z * Z → option xint) (l : list (Z * Z)) a v :
  foldl (step_opt xmax term) (Some a) l = Some v →
  (xleb a v = true ∧ ∀ q c, q ∈ l → term q = Some c → xleb c v = true) ∧
  (∀ x, xleb a x = true →
        (∀ q c, q ∈ l → term q = Some c → xleb c x = true) →
        xleb v x = true).
Proof.
  revert a. induction l as [|p l IH]; intros a; simpl.
  - intros [= <-]. split; [split; [apply xleb_refl|]|done].
    by intros q c ?%elem_of_nil.
  - destruct (term p) as [c|] eqn:Hp; simpl;
      [|by rewrite foldl_step_None].
    intros Hv. destruct (IH _ Hv) as [[Hle Hterms] Hlub]. split; [split|].
    + exact (xleb_trans _ _ _ (xmax_ge_l a c) Hle).
    + intros q c' [-> | Hq]%elem_of_cons Hq'.
      * rewrite Hp in Hq'. injection Hq' as <-.
        exact (xleb_trans _ _ _ (xmax_ge_r a c) Hle).
      * by eapply Hterms.
    + intros x Hax Hx. apply Hlub.
      * apply xmax_lub; [done|]. eapply Hx; [by left|done].
      * intros q c' Hq. apply Hx. by right.
Qed.

(** The running minimum: below its terms, and above what is below
    them. *)
Lemma running_xmin (term : Z * Z → option xint) (l : list (Z * Z)) a v :
  foldl (step_opt xmin term) (Some a) l = Some v →
  (xleb v a = true ∧ ∀ q c, q ∈ l → term q = Some c → xleb v c = true) ∧
  (∀ x, xleb x a = true →
        (∀ q c, q ∈ l → term q = Some c → xleb x c = true) →
        xleb x v = true).
Proof.
  revert a. induction l as [|p l IH]; intros a; simpl.
  - intros [= <-]. split; [split; [apply xleb_refl|]|done].
    by intros q c ?%elem_of_nil.
  - destruct (term p) as [c|] eqn:Hp; simpl;
      [|by rewrite foldl_step_None].
    intros Hv. destruct (IH _ Hv) as [[Hle Hterms] Hglb]. split; [split|].
    + exact (xleb_trans _ _ _ Hle (xmin_le_l a c)).
    + intros q c' [-> | Hq]%elem_of_cons Hq'.
      * rewrite Hp in Hq'. injection Hq' as <-.
        exact (xleb_trans _ _ _ Hle (xmin_le_r a c)).
      * by eapply Hterms.
    + intros x Hax Hx. apply Hglb.
      * apply xmin_glb; [done|]. eapply Hx; [by left|done].
      * intros q c' Hq. apply Hx. by right.
Qed.

(** [below] cell by cell. *)
Lemma below_cells h w (A B : tensor xint) :
  rect h w A → rect h w B →
  below A B ↔
  ∀ i j a b, cell A i j = Some a → cell B i j = Some b → xleb a b = true.
Proof.
  intros [HA HAr] [HB HBr]. unfold below, cell. split.
  - intros Hall i j a b Ha Hb.
    destruct (A !! i) as [ra|] eqn:Hra; [|done].
    destruct (B !! i) as [rb|] eqn:Hrb; [|done]. simpl in Ha, Hb.
    pose proof (Forall2_lookup_lr _ _ _ _ _ _ Hall Hra Hrb) as Hrow.
    exact (Forall2_lookup_lr _ _ _ _ _ _ Hrow Ha Hb).
  - intros Hcells. apply Forall2_same_length_lookup. split; [lia|].
    intros i ra rb Hra Hrb. apply Forall2_same_length_lookup. split.
    + eapply list.Forall_forall in HAr; [|by eapply list_elem_of_lookup_2].
      eapply list.Forall_forall in HBr; [|by eapply list_elem_of_lookup_2].
      lia.
    + intros j a b Ha Hb. apply (Hcells i j); by rewrite ?Hra, ?Hrb.
Qed.

Lemma below_refl h w (A : tensor xint) : rect h w A → below A A.
Proof.
  intros HA. apply (below_cells h w); [done..|].
  intros i j a b Ha Hb. rewrite Ha in Hb. injection Hb as <-.
  apply xleb_refl.
Qed.

Lemma below_trans h w (A B C : tensor xint) :
  rect h w A → rect h w B → rect h w C →
  below A B → below B C → below A C.
Proof.
  intros HA HB HC HAB HBC. apply (below_cells h w); [done..|].
  intros i j a c Ha Hc.
  destruct (cell_Some_lt h w A i j a HA Ha) as [Hi Hj].
  destruct (cell_is_Some h w B i j HB Hi Hj) as [b Hb].
  eapply xleb_trans.
  - exact (proj1 (below_cells h w A B HA HB) HAB i j a b Ha Hb).
  - exact (proj1 (below_cells h w B C HB HC) HBC i j b c Hb Hc).
Qed.

Lemma below_antisym h w (A B : tensor xint) :
  rect h w A → rect h w B → below A B → below B A → A = B.
Proof.
  intros HA HB HAB HBA. apply (tensor_eq h w); [done..|].
  intros i j Hi Hj.
  destruct (cell_is_Some h w A i j HA Hi Hj) as [a Ha].
  destruct (cell_is_Some h w B i j HB Hi Hj) as [b Hb].
  rewrite Ha, Hb. f_equal. apply xleb_antisym.
  - exact (proj1 (below_cells h w A B HA HB) HAB i j a b Ha Hb).
  - exact (proj1 (below_cells h w B A HB HA) HBA i j b a Hb Ha).
Qed.

(** What one offset contributes, for a tip of integers. *)
Lemma tip_entry n m T p :
  rect n m T → Forall (Forall real) T → p ∈ footprint T →
  ∃ t : Z, cell T (Z.to_nat ((compute_xc_yc T).1 + p.1))
                  (Z.to_nat ((compute_xc_yc T).2 + p.2)) = Some (Fin t).
Proof.
  intros HT HrT Hp.
  destruct (footprint_in_range n m T p HT Hp) as [Hx Hy].
  destruct (cell_is_Some n m T (Z.to_nat ((compute_xc_yc T).1 + p.1))
              (Z.to_nat ((compute_xc_yc T).2 + p.2)) HT) as [t Ht];
    [lia..|].
  destruct (Forall_cell _ T _ _ t HrT Ht) as [z ->]. by exists z.
Qed.

Lemma dilate_term_at h w S T i j p s t :
  rect h w S → (i < h)%nat →
  cell S (wrap i p.1 (Z.of_nat h)) (wrap j p.2 (Z.of_nat w)) = Some s →
  cell T (Z.to_nat ((compute_xc_yc T).1 + p.1))
         (Z.to_nat ((compute_xc_yc T).2 + p.2)) = Some t →
  dilate_term S T i j p = Some (xadd s t).
Proof.
  intros HS Hi Hs Ht. unfold dilate_term.
  rewrite (rect_size h w S HS) by lia.
  destruct (compute_xc_yc T) as [xc yc]. cbn [fst snd] in *.
  by rewrite Hs, Ht.
Qed.

Lemma erode_term_at h w I T i j p a t :
  rect h w I → (i < h)%nat →
  cell I (wrap i (- p.1) (Z.of_nat h)) (wrap j (- p.2) (Z.of_nat w))
    = Some a →
  cell T (Z.to_nat ((compute_xc_yc T).1 + p.1))
         (Z.to_nat ((compute_xc_yc T).2 + p.2)) = Some t →
  erode_term I T i j p = Some (xsub a t).
Proof.
  intros HI Hi Ha Ht. unfold erode_term.
  rewrite (rect_size h w I HI) by lia.
  destruct (compute_xc_yc T) as [xc yc]. cbn [fst snd] in *.
  by rewrite Ha, Ht.
Qed.

Lemma wrap_back i p h : (i < h)%nat →
  wrap (wrap i (- p) (Z.of_nat h)) p (Z.of_nat h) = i.
Proof.
  intros Hi. pose proof (wrap_wrap i (- p) h Hi) as Hw.
  by rewrite Z.opp_involutive in Hw.
Qed.

Lemma adjunction_cells h w n m S I T d e :
  rect h w S → rect h w I → rect n m T → Forall (Forall real) T →
  idilation S T = Ok d → ierosion I T = Ok e →
  below d I ↔ below S e.
Proof.
  intros HS HI HT HrT Hd He.
  destruct (idilation_cells h w n m S T HS HT) as (d' & Hd' & Hdr & Hdc).
  destruct (ierosion_cells h w n m I T HI HT) as (e' & He' & Her & Hec).
  rewrite Hd in Hd'. injection Hd' as <-.
  rewrite He in He'. injection He' as <-.
  rewrite (below_cells h w d I Hdr HI), (below_cells h w S e HS Her).
  split.
  - intros Hle i j s v Hs Hv.
    destruct (cell_Some_lt h w S i j s HS Hs) as [Hi Hj].
    destruct (Hec i j Hi Hj) as [_ Hey]. rewrite Hv in Hey.
    symmetry in Hey. apply (proj2 (running_xmin _ _ _ _ Hey)).
    { by destruct s. }
    intros p c Hp Hc.
    destruct (tip_entry n m T p HT HrT Hp) as [t Ht].
    set (i' := wrap i (- p.1) (Z.of_nat h)).
    set (j' := wrap j (- p.2) (Z.of_nat w)).
    assert (i' < h)%nat as Hi' by (apply wrap_lt; lia).
    assert (j' < w)%nat as Hj' by (apply wrap_lt; lia).
    destruct (cell_is_Some h w I i' j' HI Hi' Hj') as [a Ha].
    rewrite (erode_term_at h w I T i j p a (Fin t) HI Hi Ha Ht) in Hc.
    injection Hc as <-. rewrite <- xadd_xsub.
    destruct (Hdc i' j' Hi' Hj') as [[x Hx] Hdx]. rewrite Hx in Hdx.
    symmetry in Hdx.
    assert (dilate_term S T i' j' p = Some (xadd s (Fin t))) as Hdt.
    { apply (dilate_term_at h w); [done..| |done].
      unfold i', j'. by rewrite !wrap_back. }
    eapply xleb_trans; [|exact (Hle i' j' x a Hx Ha)].
    exact (proj2 (proj1 (running_xmax _ _ _ _ Hdx)) p _ Hp Hdt).
  - intros Hle i j x a Hx Ha.
    destruct (cell_Some_lt h w I i j a HI Ha) as [Hi Hj].
    destruct (Hdc i j Hi Hj) as [_ Hdx]. rewrite Hx in Hdx.
    symmetry in Hdx. apply (proj2 (running_xmax _ _ _ _ Hdx)); [done|].
    intros p c Hp Hc.
    destruct (tip_entry n m T p HT HrT Hp) as [t Ht].
    set (i' := wrap i p.1 (Z.of_nat h)).
    set (j' := wrap j p.2 (Z.of_nat w)).
    assert (i' < h)%nat as Hi' by (apply wrap_lt; lia).
    assert (j' < w)%nat as Hj' by (apply wrap_lt; lia).
    destruct (cell_is_Some h w S i' j' HS Hi' Hj') as [s Hs].
    rewrite (dilate_term_at h w S T i j p s (Fin t) HS Hi Hs Ht) in Hc.
    injection Hc as <-. rewrite xadd_xsub.
    destruct (Hec i' j' Hi' Hj') as [[y Hy] Hey]. rewrite Hy in Hey.
    symmetry in Hey.
    assert (erode_term I T i' j' p = Some (xsub a (Fin t))) as Het.
    { apply (erode_term_at h w); [done..| |done].
      unfold i', j'. by rewrite !wrap_wrap. }
    eapply xleb_trans; [exact (Hle i' j' s y Hs Hy)|].
    exact (proj2 (proj1 (running_xmin _ _ _ _ Hey)) p _ Hp Het).
Qed.
End Adjunction.

Section Exact.
Implicit Types S I T : tensor xint.
Variables (h w n m : nat) (T : tensor xint).
Hypothesis HT : rect n m T.
Hypothesis HrT : Forall (Forall real) T.

Lemma idilation_rect S :
  rect h w S → ∃ d, idilation S T = Ok d ∧ rect h w d.
Proof.
  intros HS.
  destruct (idilation_cells h w n m S T HS HT) as (d & Hd & Hr & _). eauto.
Qed.

Lemma ierosion_rect I :
  rect h w I → ∃ e, ierosion I T = Ok e ∧ rect h w e.
Proof.
  intros HI.
  destruct (ierosion_cells h w n m I T HI HT) as (e & He & Hr & _). eauto.
Qed.

Lemma erode_dilate_below I e o :
  rect h w I → ierosion I T = Ok e → idilation e T = Ok o → below o I.
Proof.
  intros HI He Ho.
  destruct (ierosion_rect I HI) as (e' & He' & Her).
  rewrite He in He'. injection He' as <-.
  apply (adjunction_cells h w n m e I T o e Her HI HT HrT Ho He).
  by apply (below_refl h w).
Qed.

Lemma dilate_erode_above S d c :
  rect h w S → idilation S T = Ok d → ierosion d T = Ok c → below S c.
Proof.
  intros HS Hd Hc.
  destruct (idilation_rect S HS) as (d' & Hd' & Hdr).
  rewrite Hd in Hd'. injection Hd' as <-.
  apply (adjunction_cells h w n m S d T d c HS Hdr HT HrT Hd Hc).
  by apply (below_refl h w).
Qed.

Lemma idilation_mono S S' d d' :
  rect h w S → rect h w S' → below S S' →
  idilation S T = Ok d → idilation S' T = Ok d' → below d d'.
Proof.
  intros HS HS' Hle Hd Hd'.
  destruct (idilation_rect S' HS') as (d0 & Hd0 & Hdr').
  rewrite Hd' in Hd0. injection Hd0 as <-.
  destruct (ierosion_rect d' Hdr') as (c & Hc & Hcr).
  apply (adjunction_cells h w n m S d' T d c HS Hdr' HT HrT Hd Hc).
  apply (below_trans h w S S' c); [done..|].
  by apply (dilate_erode_above S' d' c).
Qed.

Lemma ierosion_mono I I' e e' :
  rect h w I → rect h w I' → below I I' →
  ierosion I T = Ok e → ierosion I' T = Ok e' → below e e'.
Proof.
  intros HI HI' Hle He He'.
  destruct (ierosion_rect I HI) as (e0 & He0 & Her).
  rewrite He in He0. injection He0 as <-.
  destruct (idilation_rect e Her) as (o & Ho & Hor).
  apply (adjunction_cells h w n m e I' T o e' Her HI' HT HrT Ho He').
  apply (below_trans h w o I I'); [done..| |done].
  by apply (erode_dilate_below I e o).
Qed.

Lemma opening_fixed I o :
  rect h w I → opening I T = Ok o → opening o T = Ok o.
Proof.
  intros HI. unfold opening.
  destruct (ierosion_rect I HI) as (e & He & Her). rewrite He.
  cbn [rbind]. intros Ho.
  destruct (idilation_rect e Her) as (o0 & Ho0 & Hor).
  rewrite Ho in Ho0. injection Ho0 as <-.
  destruct (ierosion_rect o Hor) as (e2 & He2 & He2r). rewrite He2.
  cbn [rbind].
  destruct (idilation_rect e2 He2r) as (o2 & Ho2 & Ho2r). rewrite Ho2.
  f_equal. apply (below_antisym h w); [done..| |].
  - by apply (erode_dilate_below o e2 o2).
  - apply (idilation_mono e e2 o o2); [done..| |done|done].
    by apply (dilate_erode_above e o e2).
Qed.
End Exact.

(** Over exact arithmetic the two operators by one tip of integers are
    adjoint: the dilation of [S] is at most [I] at every cell exactly
    when [S] is at most the erosion of [I] at every cell.  The circular
    shifts are as they are. *)
Theorem morphology_adjunction h w n m (S I T : tensor xint) :
  rect h w S → rect h w I → rect n m T → Forall (Forall real) T →
  ∃ d e, idilation S T = Ok d ∧ ierosion I T = Ok e ∧
         (below d I ↔ below S e).
Proof.
  intros HS HI HT HrT.
  destruct (idilation_rect h w n m T HT S HS) as (d & Hd & _).
  destruct (ierosion_rect h w n m T HT I HI) as (e & He & _).
  exists d, e. split; [exact Hd|]. split; [exact He|].
  exact (adjunction_cells h w n m S I T d e HS HI HT HrT Hd He).
Qed.

(** Over exact arithmetic both operators are increasing in the field:
    a field that is at most another one at every cell has a dilation
    and an erosion at most those of the other. *)
Theorem morphology_monotone h w n m (S S' T : tensor xint) :
  rect h w S → rect h w S' → rect n m T → Forall (Forall real) T →
  below S S' →
  ∃ d d' e e',
    idilation S T = Ok d ∧ idilation S' T = Ok d' ∧
    ierosion S T = Ok e ∧ ierosion S' T = Ok e' ∧
    below d d' ∧ below e e'.
Proof.
  intros HS HS' HT HrT Hle.
  destruct (idilation_rect h w n m T HT S HS) as (d & Hd & _).
  destruct (idilation_rect h w n m T HT S' HS') as (d' & Hd' & _).
  destruct (ierosion_rect h w n m T HT S HS) as (e & He & _).
  destruct (ierosion_rect h w n m T HT S' HS') as (e' & He' & _).
  exists d, d', e, e'. repeat (split; [done|]). split.
  - exact (idilation_mono h w n m T HT HrT S S' d d' HS HS' Hle Hd Hd').
  - exact (ierosion_mono h w n m T HT HrT S S' e e' HS HS' Hle He He').
Qed.

(** Over exact arithmetic the opening is idempotent: the opening of an
    image is at most the image and is its own opening, cell for cell. *)
Theorem opening_idempotent_exact h w n m (I T : tensor xint) :
  rect h w I → rect n m T → Forall (Forall real) T →
  ∃ o, opening I T = Ok o ∧ below o I ∧ opening o T = Ok o.
Proof.
  intros HI HT HrT.
  destruct (ierosion_rect h w n m T HT I HI) as (e & He & Her).
  destruct (idilation_rect h w n m T HT e Her) as (o & Ho & Hor).
  assert (opening I T = Ok o) as Hop by (unfold opening; by rewrite He).
  exists o. split; [exact Hop|]. split.
  - exact (erode_dilate_below h w n m T HT HrT I e o HI He Ho).
  - exact (opening_fixed h w n m T HT HrT I o HI Hop).
Qed.

Lemma morphology_adjunction_witness :
  ∃ d e,
    idilation [[Fin 1; Fin 5]; [Fin 3; Fin 2]] [[Fin 0; Fin (-1)]] = Ok d ∧
    ierosion [[Fin 4; Fin 6]; [Fin 3; Fin 3]] [[Fin 0; Fin (-1)]] = Ok e ∧
    (below d [[Fin 4; Fin 6]; [Fin 3; Fin 3]] ↔
     below [[Fin 1; Fin 5]; [Fin 3; Fin 2]] e).
Proof.
  apply (morphology_adjunction 2 2 1 2);
    [split; [reflexivity|repeat constructor]
    |split; [reflexivity|repeat constructor]
    |split; [reflexivity|repeat constructor]
    |repeat constructor; eexists; reflexivity].
Defined.

Lemma morphology_monotone_witness :
  ∃ d d' e e',
    idilation [[Fin 1; Fin 5]; [Fin 3; Fin 2]] [[Fin 0; Fin (-1)]] = Ok d ∧
    idilation [[Fin 4; Fin 6]; [Fin 3; Fin 3]] [[Fin 0; Fin (-1)]] = Ok d' ∧
    ierosion [[Fin 1; Fin 5]; [Fin 3; Fin 2]] [[Fin 0; Fin (-1)]] = Ok e ∧
    ierosion [[Fin 4; Fin 6]; [Fin 3; Fin 3]] [[Fin 0; Fin (-1)]] = Ok e' ∧
    below d d' ∧ below e e'.
Proof.
  apply (morphology_monotone 2 2 1 2);
    [split; [reflexivity|repeat constructor]
    |split; [reflexivity|repeat constructor]
    |split; [reflexivity|repeat constructor]
    |repeat constructor; eexists; reflexivity
    |repeat constructor].
Defined.

Lemma opening_idempotent_exact_witness :
  ∃ o,
    opening [[Fin 1; Fin 5]; [Fin 3; Fin 2]] [[Fin 0; Fin (-1)]] = Ok o ∧
    below o [[Fin 1; Fin 5]; [Fin 3; Fin 2]] ∧
    opening o [[Fin 0; Fin (-1)]] = Ok o.
Proof.
  apply (opening_idempotent_exact 2 2 1 2);
    [split; [reflexivity|repeat constructor]
    |split; [reflexivity|repeat constructor]
    |repeat constructor; eexists; reflexivity].
Defined.
